(** * Logic-circuit simulator (PythonTutorialLogicCircuits/main.py)

    A shallow embedding of the connector/gate simulator and of the 8-bit
    arithmetic routines built on it.  Python objects live in a heap of
    connectors and circuits addressed by references; [Connector.set] is the
    recursive propagation routine, bounded here by a nesting depth that
    stands for the interpreter's recursion limit. *)

From Stdlib Require Import ZArith String Ascii List Bool Lia DecimalString.
From stdpp Require Import base option numbers strings list pmap fin_maps.
Import ListNotations.

Local Open Scope Z_scope.
Local Open Scope string_scope.

(** ** Python values carried by connectors *)

(** A connector holds [None] (never set), a [bool], or an [int]
    ([F0.Cin.set(0)] stores the integer 0). *)
Inductive pyval : Type :=
| VNone
| VBool (b : bool)
| VInt (n : Z).

Definition pyval_eqb (x y : pyval) : bool :=
  match x, y with
  | VNone, VNone => true
  | VBool a, VBool b => Bool.eqb a b
  | VInt m, VInt n => Z.eqb m n
  | _, _ => false
  end.

(** Truth value of an object, as tested by [if], [not], [and], [or]. *)
Definition truthy (v : pyval) : bool :=
  match v with
  | VNone => false
  | VBool b => b
  | VInt n => negb (Z.eqb n 0)
  end.

(** [bool] is a subclass of [int]: [False == 0] and [True == 1]. *)
Definition num_of_bool (b : bool) : Z := if b then 1 else 0.

(** Python's [==] on these values: [None] equals only [None]; booleans and
    integers compare by numeric value. *)
Definition py_eq (x y : pyval) : bool :=
  match x, y with
  | VNone, VNone => true
  | VNone, _ | _, VNone => false
  | VBool a, VBool b => Bool.eqb a b
  | VBool a, VInt n => Z.eqb (num_of_bool a) n
  | VInt m, VBool b => Z.eqb m (num_of_bool b)
  | VInt m, VInt n => Z.eqb m n
  end.

(** [not x] always yields a [bool]. *)
Definition py_not (x : pyval) : pyval := VBool (negb (truthy x)).

(** [x and y] yields [x] when [x] is falsy, otherwise [y]. *)
Definition py_and (x y : pyval) : pyval := if truthy x then y else x.

(** [x or y] yields [x] when [x] is truthy, otherwise [y]. *)
Definition py_or (x y : pyval) : pyval := if truthy x then x else y.

(** ** Exceptions and results *)

Inductive exn : Type :=
| RecursionError
| IndexError
| TypeError
| AttributeError.

Inductive result (A : Type) : Type :=
| Ok (a : A)
| Raise (e : exn).
Arguments Ok {A} a.
Arguments Raise {A} e.

(** ** Heap objects *)

(** References (object addresses). *)
Abbreviation ref := positive (only parsing).

(** The [name] given to a circuit: a string, or (in [increment] and
    [PassTrough]) another freshly built circuit object. *)
Inductive pyname : Type :=
| NameStr (s : string)
| NameObj (o : ref).

(** class Connector *)
Record Connector : Type := mkConnector {
  value : pyval;
  owner : ref;
  name : string;
  monitor : Z;
  connects : list ref;
  activates : Z
}.

(** The classes that are instantiated; [LC] and [Gate2] are only bases. *)
Inductive pyclass : Type :=
| CNot | CAnd | COr | CXor | CHalfAdder | CFullAdder.

(** An instance attribute is a connector or a sub-circuit. *)
Inductive attr : Type :=
| AConn (c : ref)
| AObj (o : ref).

(** class LC and its subclasses: the class tag selects [evaluate]. *)
Record LC : Type := mkLC {
  lc_class : pyclass;
  lc_name : pyname;
  lc_attrs : list (string * attr)
}.

Record heap : Type := mkHeap {
  conns : Pmap Connector;
  objs : Pmap LC;
  next_conn : positive;
  next_obj : positive
}.

Definition empty_heap : heap := mkHeap ∅ ∅ 1%positive 1%positive.

(** ** Output events

    [Monitor o n v] is the line printed by a monitored connector,
    ["Connector {0}-{1} set to {2}".format(o, n, v)]; [Stdout s] is a line
    printed by [print(s)]; [Evaluated o] records a call of [o.evaluate()]. *)
Inductive event : Type :=
| Evaluated (o : ref)
| Monitor (owner_name : pyname) (conn_name : string) (v : pyval)
| Stdout (s : string).

Definition trace : Type := list event.

(** ** The simulation monad: heap state, exceptions, emitted events *)

Definition M (A : Type) : Type := heap -> result (A * heap * trace).

Definition ret {A} (a : A) : M A := fun h => Ok (a, h, []).

Definition bind {A B} (m : M A) (f : A -> M B) : M B :=
  fun h =>
    match m h with
    | Raise e => Raise e
    | Ok (a, h1, t1) =>
        match f a h1 with
        | Raise e => Raise e
        | Ok (b, h2, t2) => Ok (b, h2, (t1 ++ t2)%list)
        end
    end.

Definition raise {A} (e : exn) : M A := fun _ => Raise e.

Definition tell (t : trace) : M unit := fun h => Ok (tt, h, t).

Notation "'let*' x ':=' m 'in' k" := (bind m (fun x => k))
  (at level 10, x name, m at level 100, k at level 200).

Definition lift {A} (r : result A) : M A :=
  fun h => match r with Ok a => Ok (a, h, []) | Raise e => Raise e end.

(** [for x in l: body(x)] *)
Fixpoint for_each {A} (l : list A) (body : A -> M unit) : M unit :=
  match l with
  | [] => ret tt
  | x :: l' => let* _ := body x in for_each l' body
  end.

(** Heap access. *)
Definition get_conn (c : ref) : M Connector :=
  fun h => match conns h !! c with
           | Some con => Ok (con, h, [])
           | None => Raise AttributeError
           end.

Definition get_obj (o : ref) : M LC :=
  fun h => match objs h !! o with
           | Some ob => Ok (ob, h, [])
           | None => Raise AttributeError
           end.

Definition put_conn (c : ref) (con : Connector) : M unit :=
  fun h => Ok (tt, mkHeap (<[c := con]> (conns h)) (objs h)
                          (next_conn h) (next_obj h), []).

Definition put_obj (o : ref) (ob : LC) : M unit :=
  fun h => Ok (tt, mkHeap (conns h) (<[o := ob]> (objs h))
                          (next_conn h) (next_obj h), []).

Definition alloc_conn (con : Connector) : M ref :=
  fun h => let c := next_conn h in
           Ok (c, mkHeap (<[c := con]> (conns h)) (objs h)
                         (Pos.succ c) (next_obj h), []).

Definition alloc_obj (ob : LC) : M ref :=
  fun h => let o := next_obj h in
           Ok (o, mkHeap (conns h) (<[o := ob]> (objs h))
                         (next_conn h) (Pos.succ o), []).

Fixpoint assoc (k : string) (l : list (string * attr)) : option attr :=
  match l with
  | [] => None
  | (k', a) :: l' => if String.eqb k k' then Some a else assoc k l'
  end.

(** [self.<field> = <connector>] and [self.<field> = <circuit>] *)
Definition setattr (self : ref) (field : string) (a : attr) : M unit :=
  let* ob := get_obj self in
  put_obj self (mkLC (lc_class ob) (lc_name ob) ((field, a) :: lc_attrs ob)).

(** [self.<field>] read as a connector *)
Definition conn_of (self : ref) (field : string) : M ref :=
  let* ob := get_obj self in
  match assoc field (lc_attrs ob) with
  | Some (AConn c) => ret c
  | _ => raise AttributeError
  end.

(** [self.<field>] read as a sub-circuit *)
Definition obj_of (self : ref) (field : string) : M ref :=
  let* ob := get_obj self in
  match assoc field (lc_attrs ob) with
  | Some (AObj o) => ret o
  | _ => raise AttributeError
  end.

(** [c.value] *)
Definition value_of (c : ref) : M pyval :=
  let* con := get_conn c in ret (value con).

(** ** class Connector *)

(** [Connector.__init__(self, owner, name, activates=0, monitor=0)],
    followed by the assignment of the new connector to [owner.<name>]. *)
Definition new_Connector (own : ref) (nm : string) (act mon : Z) : M ref :=
  let* c := alloc_conn (mkConnector VNone own nm mon [] act) in
  let* _ := setattr own nm (AConn c) in
  ret c.

(** The argument of [connect]: one connector or a list of them. *)
Inductive connect_arg : Type :=
| One (c : ref)
| Many (l : list ref).

(** [Connector.connect(self, inputs)] *)
Definition connect (self : ref) (inputs : connect_arg) : M unit :=
  let inputs := match inputs with One c => [c] | Many l => l end in
  for_each inputs (fun input =>
    let* con := get_conn self in
    put_conn self (mkConnector (value con) (owner con) (name con)
                     (monitor con) (connects con ++ [input]) (activates con))).

(** [evaluate] of the circuit [self], dispatched on its class:
    [Not.evaluate], [And.evaluate], [Or.evaluate], and [LC.evaluate] (which
    just returns) for every class that does not override it.  The [set]
    used for the output connector is a parameter, as [set] and [evaluate]
    call each other. *)
Definition evaluate (set : ref -> pyval -> M unit) (self : ref) : M unit :=
  let* _ := tell [Evaluated self] in
  let* ob := get_obj self in
  match lc_class ob with
  | CNot =>
      let* B := conn_of self "B" in
      let* A := conn_of self "A" in
      let* a := value_of A in
      set B (py_not a)
  | CAnd =>
      let* C := conn_of self "C" in
      let* A := conn_of self "A" in
      let* a := value_of A in
      let* B := conn_of self "B" in
      let* b := value_of B in
      set C (py_and a b)
  | COr =>
      let* C := conn_of self "C" in
      let* A := conn_of self "A" in
      let* a := value_of A in
      let* B := conn_of self "B" in
      let* b := value_of B in
      set C (py_or a b)
  | CXor | CHalfAdder | CFullAdder => ret tt
  end.

(** [Connector.set(self, value)].  [depth] bounds the nesting of [set]
    calls; running out of it is Python's [RecursionError]. *)
Fixpoint set (depth : nat) (self : ref) (v : pyval) : M unit :=
  match depth with
  | O => raise RecursionError
  | S d =>
      let* con := get_conn self in
      if py_eq (value con) v then ret tt
      else
        let* _ := put_conn self (mkConnector v (owner con) (name con)
                     (monitor con) (connects con) (activates con)) in
        let* _ := (if negb (Z.eqb (activates con) 0)
                   then evaluate (set d) (owner con) else ret tt) in
        let* _ := (if negb (Z.eqb (monitor con) 0)
                   then let* own := get_obj (owner con) in
                        let* now := get_conn self in
                        tell [Monitor (lc_name own) (name now) (value now)]
                   else ret tt) in
        let* now := get_conn self in
        for_each (connects now) (fun con' => set d con' v)
  end.

(** [self.f1.f2...fn]: follow sub-circuit attributes down to a connector. *)
Fixpoint conn_path (self : ref) (path : list string) : M ref :=
  match path with
  | [] => raise AttributeError
  | [f] => conn_of self f
  | f :: rest => let* o := obj_of self f in conn_path o rest
  end.

(** [src.connect([dst1, dst2, ...])] with every connector given by its
    attribute path from [self]. *)
Definition wire (self : ref) (src : list string) (dsts : list (list string))
  : M unit :=
  let* s := conn_path self src in
  let* ds := (fix go (l : list (list string)) : M (list ref) :=
                match l with
                | [] => ret []
                | p :: l' => let* d := conn_path self p in
                             let* r := go l' in ret (d :: r)
                end) dsts in
  connect s (Many ds).

(** [self.<field> = <Class>(<name>)] *)
Definition sub (self : ref) (field : string) (mk : pyname -> M ref)
  (nm : string) : M unit :=
  let* o := mk (NameStr nm) in setattr self field (AObj o).

(** ** The circuit classes *)

(** [LC.__init__]: a new object of class [cls] with [self.name = name]. *)
Definition LC_init (cls : pyclass) (nm : pyname) : M ref :=
  alloc_obj (mkLC cls nm []).

(** class Not(LC): inverter, input A, output B. *)
Definition Not (nm : pyname) : M ref :=
  let* self := LC_init CNot nm in
  let* _ := new_Connector self "A" 1 0 in
  let* _ := new_Connector self "B" 0 0 in
  ret self.

(** class Gate2(LC): inputs A and B, output C. *)
Definition Gate2 (cls : pyclass) (nm : pyname) : M ref :=
  let* self := LC_init cls nm in
  let* _ := new_Connector self "A" 1 0 in
  let* _ := new_Connector self "B" 1 0 in
  let* _ := new_Connector self "C" 0 0 in
  ret self.

Definition And (nm : pyname) : M ref := Gate2 CAnd nm.

Definition Or (nm : pyname) : M ref := Gate2 COr nm.

Definition Xor (nm : pyname) : M ref :=
  let* self := Gate2 CXor nm in
  let* _ := sub self "A1" And "A1" in
  let* _ := sub self "A2" And "A2" in
  let* _ := sub self "I1" Not "I1" in
  let* _ := sub self "I2" Not "I2" in
  let* _ := sub self "O1" Or "O1" in
  let* _ := wire self ["A"] [["A1"; "A"]; ["I2"; "A"]] in
  let* _ := wire self ["B"] [["I1"; "A"]; ["A2"; "A"]] in
  let* _ := wire self ["I1"; "B"] [["A1"; "B"]] in
  let* _ := wire self ["I2"; "B"] [["A2"; "B"]] in
  let* _ := wire self ["A1"; "C"] [["O1"; "A"]] in
  let* _ := wire self ["A2"; "C"] [["O1"; "B"]] in
  let* _ := wire self ["O1"; "C"] [["C"]] in
  ret self.

Definition HalfAdder (nm : pyname) : M ref :=
  let* self := LC_init CHalfAdder nm in
  let* _ := new_Connector self "A" 1 0 in
  let* _ := new_Connector self "B" 1 0 in
  let* _ := new_Connector self "S" 0 0 in
  let* _ := new_Connector self "C" 0 0 in
  let* _ := sub self "X1" Xor "X1" in
  let* _ := sub self "A1" And "A1" in
  let* _ := wire self ["A"] [["X1"; "A"]; ["A1"; "A"]] in
  let* _ := wire self ["B"] [["X1"; "B"]; ["A1"; "B"]] in
  let* _ := wire self ["X1"; "C"] [["S"]] in
  let* _ := wire self ["A1"; "C"] [["C"]] in
  ret self.

Definition FullAdder (nm : pyname) : M ref :=
  let* self := LC_init CFullAdder nm in
  let* _ := new_Connector self "A" 1 1 in
  let* _ := new_Connector self "B" 1 1 in
  let* _ := new_Connector self "Cin" 1 1 in
  let* _ := new_Connector self "S" 0 1 in
  let* _ := new_Connector self "Cout" 0 1 in
  let* _ := sub self "H1" HalfAdder "H1" in
  let* _ := sub self "H2" HalfAdder "H2" in
  let* _ := sub self "O1" Or "O1" in
  let* _ := wire self ["A"] [["H1"; "A"]] in
  let* _ := wire self ["B"] [["H1"; "B"]] in
  let* _ := wire self ["Cin"] [["H2"; "A"]] in
  let* _ := wire self ["H1"; "S"] [["H2"; "B"]] in
  let* _ := wire self ["H1"; "C"] [["O1"; "B"]] in
  let* _ := wire self ["H2"; "C"] [["O1"; "A"]] in
  let* _ := wire self ["H2"; "S"] [["S"]] in
  let* _ := wire self ["O1"; "C"] [["Cout"]] in
  ret self.

(** ** Bit strings *)

(** The argument of [bit]: a string, or (when a routine is fed the list
    another one returned) a list of connector values. *)
Inductive pyseq : Type :=
| SStr (s : string)
| SList (l : list pyval).

(** [bit(x, bit)]: [x[bit] == '1'].  No connector value equals the string
    ['1'], so on a list every in-range index gives [False]. *)
Definition bit (x : pyseq) (i : nat) : result bool :=
  match x with
  | SStr s =>
      match String.get i s with
      | Some c => Ok (Ascii.eqb c "1"%char)
      | None => Raise IndexError
      end
  | SList l =>
      match nth_error l i with
      | Some _ => Ok false
      | None => Raise IndexError
      end
  end.

(** [int(v)] *)
Definition py_int (v : pyval) : result Z :=
  match v with
  | VNone => Raise TypeError
  | VBool b => Ok (num_of_bool b)
  | VInt n => Ok n
  end.

(** [str(n)] for an integer [n] *)
Definition py_str (n : Z) : string := NilZero.string_of_int (Z.to_int n).

(** The local [toString(byte)] of [PassTrough] and [Substraction]. *)
Definition toString (byte : list pyval) : result string :=
  fold_left (fun s bit =>
               match s with
               | Raise e => Raise e
               | Ok s => match py_int bit with
                         | Raise e => Raise e
                         | Ok n => Ok (s ++ py_str n)
                         end
               end) byte (Ok "").

(** ** The 8-bit routines

    Every routine takes the nesting [depth] available to [set]. *)

(** [o.<field>.set(v)] *)
Definition set_at (depth : nat) (o : ref) (field : string) (v : pyval)
  : M unit :=
  let* c := conn_of o field in set depth c v.

(** [o.<field>.set(bit(x, i))] *)
Definition set_bit (depth : nat) (o : ref) (field : string) (x : pyseq)
  (i : nat) : M unit :=
  let* c := conn_of o field in
  let* b := lift (bit x i) in
  set depth c (VBool b).

(** [o.<field>.value] *)
Definition value_at (o : ref) (field : string) : M pyval :=
  let* c := conn_of o field in value_of c.

(** [src.<f>.connect(dst.<g>)] *)
Definition connect_at (src : ref) (f : string) (dst : ref) (g : string)
  : M unit :=
  let* s := conn_of src f in
  let* d := conn_of dst g in
  connect s (One d).

Definition addcarry (depth : nat) (a b : pyseq) : M (list pyval) :=
  let* F0 := FullAdder (NameStr "F0") in
  let* F1 := FullAdder (NameStr "F1") in
  let* _ := connect_at F0 "Cout" F1 "Cin" in
  let* F2 := FullAdder (NameStr "F2") in
  let* _ := connect_at F1 "Cout" F2 "Cin" in
  let* F3 := FullAdder (NameStr "F3") in
  let* _ := connect_at F2 "Cout" F3 "Cin" in
  let* F4 := FullAdder (NameStr "F4") in
  let* _ := connect_at F3 "Cout" F4 "Cin" in
  let* F5 := FullAdder (NameStr "F5") in
  let* _ := connect_at F4 "Cout" F5 "Cin" in
  let* F6 := FullAdder (NameStr "F6") in
  let* _ := connect_at F5 "Cout" F6 "Cin" in
  let* F7 := FullAdder (NameStr "F7") in
  let* _ := connect_at F6 "Cout" F7 "Cin" in

  let* _ := set_at depth F0 "Cin" (VInt 0) in
  let* _ := set_bit depth F0 "A" a 7 in
  let* _ := set_bit depth F0 "B" b 7 in
  let* _ := set_bit depth F1 "A" a 6 in
  let* _ := set_bit depth F1 "B" b 6 in
  let* _ := set_bit depth F2 "A" a 5 in
  let* _ := set_bit depth F2 "B" b 5 in
  let* _ := set_bit depth F3 "A" a 4 in
  let* _ := set_bit depth F3 "B" b 4 in
  let* _ := set_bit depth F4 "A" a 3 in
  let* _ := set_bit depth F4 "B" b 3 in
  let* _ := set_bit depth F5 "A" a 2 in
  let* _ := set_bit depth F5 "B" b 2 in
  let* _ := set_bit depth F6 "A" a 1 in
  let* _ := set_bit depth F6 "B" b 1 in
  let* _ := set_bit depth F7 "A" a 0 in
  let* _ := set_bit depth F7 "B" b 0 in

  let* cout := value_at F7 "Cout" in
  let* s7 := value_at F7 "S" in
  let* s6 := value_at F6 "S" in
  let* s5 := value_at F5 "S" in
  let* s4 := value_at F4 "S" in
  let* s3 := value_at F3 "S" in
  let* s2 := value_at F2 "S" in
  let* s1 := value_at F1 "S" in
  let* s0 := value_at F0 "S" in
  ret [cout; s7; s6; s5; s4; s3; s2; s1; s0].

(** [FullAdder(And(nm))]: the adder's [name] is a fresh, unconnected And
    gate. *)
Definition FullAdder_And (nm : string) : M ref :=
  let* g := And (NameStr nm) in FullAdder (NameObj g).

Definition increment (depth : nat) (a b : pyseq) : M (list pyval) :=
  let* F0 := FullAdder_And "F0" in
  let* F1 := FullAdder_And "F1" in
  let* _ := connect_at F0 "Cout" F1 "Cin" in
  let* F2 := FullAdder_And "F2" in
  let* _ := connect_at F1 "Cout" F2 "Cin" in
  let* F3 := FullAdder_And "F3" in
  let* _ := connect_at F2 "Cout" F3 "Cin" in
  let* F4 := FullAdder_And "F4" in
  let* _ := connect_at F3 "Cout" F4 "Cin" in
  let* F5 := FullAdder_And "F5" in
  let* _ := connect_at F4 "Cout" F5 "Cin" in
  let* F6 := FullAdder_And "F6" in
  let* _ := connect_at F5 "Cout" F6 "Cin" in
  let* F7 := FullAdder_And "F7" in
  let* _ := connect_at F6 "Cout" F7 "Cin" in

  let* _ := set_at depth F0 "Cin" (VInt 0) in
  let* _ := set_bit depth F0 "A" a 7 in
  let* _ := set_bit depth F0 "B" b 7 in
  let* _ := evaluate (set depth) F0 in
  let* _ := set_bit depth F1 "A" a 6 in
  let* _ := set_bit depth F1 "B" b 6 in
  let* _ := evaluate (set depth) F1 in
  let* _ := set_bit depth F2 "A" a 5 in
  let* _ := set_bit depth F2 "B" b 5 in
  let* _ := evaluate (set depth) F2 in
  let* _ := set_bit depth F3 "A" a 4 in
  let* _ := set_bit depth F3 "B" b 4 in
  let* _ := evaluate (set depth) F3 in
  let* _ := set_bit depth F4 "A" a 3 in
  let* _ := set_bit depth F4 "B" b 3 in
  let* _ := evaluate (set depth) F4 in
  let* _ := set_bit depth F5 "A" a 2 in
  let* _ := set_bit depth F5 "B" b 2 in
  let* _ := evaluate (set depth) F5 in
  let* _ := set_bit depth F6 "A" a 1 in
  let* _ := set_bit depth F6 "B" b 1 in
  let* _ := evaluate (set depth) F6 in
  let* _ := set_bit depth F7 "A" a 0 in
  let* _ := set_bit depth F7 "B" b 0 in
  let* _ := evaluate (set depth) F7 in

  let* cout := value_at F7 "Cout" in
  let* s7 := value_at F7 "S" in
  let* s6 := value_at F6 "S" in
  let* s5 := value_at F5 "S" in
  let* s4 := value_at F4 "S" in
  let* s3 := value_at F3 "S" in
  let* s2 := value_at F2 "S" in
  let* s1 := value_at F1 "S" in
  let* s0 := value_at F0 "S" in
  ret [cout; s7; s6; s5; s4; s3; s2; s1; s0].

Definition complementOne (depth : nat) (a : pyseq) : M (list pyval) :=
  let* F0 := Not (NameStr "F0") in
  let* F1 := Not (NameStr "F1") in
  let* F3 := Not (NameStr "F3") in
  let* F2 := Not (NameStr "F2") in
  let* F4 := Not (NameStr "F4") in
  let* F5 := Not (NameStr "F5") in
  let* F6 := Not (NameStr "F6") in
  let* F7 := Not (NameStr "F7") in

  let* _ := set_bit depth F0 "A" a 7 in
  let* _ := evaluate (set depth) F0 in
  let* _ := set_bit depth F1 "A" a 6 in
  let* _ := evaluate (set depth) F1 in
  let* _ := set_bit depth F2 "A" a 5 in
  let* _ := evaluate (set depth) F2 in
  let* _ := set_bit depth F3 "A" a 4 in
  let* _ := evaluate (set depth) F3 in
  let* _ := set_bit depth F4 "A" a 3 in
  let* _ := evaluate (set depth) F4 in
  let* _ := set_bit depth F5 "A" a 2 in
  let* _ := evaluate (set depth) F5 in
  let* _ := set_bit depth F6 "A" a 1 in
  let* _ := evaluate (set depth) F6 in
  let* _ := set_bit depth F7 "A" a 0 in
  let* _ := evaluate (set depth) F7 in
  let* b7 := value_at F7 "B" in
  let* b6 := value_at F6 "B" in
  let* b5 := value_at F5 "B" in
  let* b4 := value_at F4 "B" in
  let* b3 := value_at F3 "B" in
  let* b2 := value_at F2 "B" in
  let* b1 := value_at F1 "B" in
  let* b0 := value_at F0 "B" in
  ret [b7; b6; b5; b4; b3; b2; b1; b0].

Definition negateNumber (depth : nat) (a : pyseq) : M (list pyval) :=
  let* result := complementOne depth a in
  let b := map (fun j => if py_eq j (VBool false) then 0 else 1) result in
  let number := String.concat "" (map py_str b) in
  increment depth (SStr number) (SStr "00000001").

(** [Not(Not(nm))]: the inverter's [name] is a fresh, unconnected
    inverter. *)
Definition Not_Not (nm : string) : M ref :=
  let* g := Not (NameStr nm) in Not (NameObj g).

Definition PassTrough (depth : nat) (a : pyseq) : M string :=
  let* F0 := Not_Not "F0" in
  let* F1 := Not_Not "F1" in
  let* F3 := Not_Not "F3" in
  let* F2 := Not_Not "F2" in
  let* F4 := Not_Not "F4" in
  let* F5 := Not_Not "F5" in
  let* F6 := Not_Not "F6" in
  let* F7 := Not_Not "F7" in

  let* _ := set_bit depth F0 "A" a 7 in
  let* _ := evaluate (set depth) F0 in
  let* _ := set_bit depth F1 "A" a 6 in
  let* _ := evaluate (set depth) F1 in
  let* _ := set_bit depth F2 "A" a 5 in
  let* _ := evaluate (set depth) F2 in
  let* _ := set_bit depth F3 "A" a 4 in
  let* _ := evaluate (set depth) F3 in
  let* _ := set_bit depth F4 "A" a 3 in
  let* _ := evaluate (set depth) F4 in
  let* _ := set_bit depth F5 "A" a 2 in
  let* _ := evaluate (set depth) F5 in
  let* _ := set_bit depth F6 "A" a 1 in
  let* _ := evaluate (set depth) F6 in
  let* _ := set_bit depth F7 "A" a 0 in
  let* _ := evaluate (set depth) F7 in
  let* b7 := value_at F7 "B" in
  let* b6 := value_at F6 "B" in
  let* b5 := value_at F5 "B" in
  let* b4 := value_at F4 "B" in
  let* b3 := value_at F3 "B" in
  let* b2 := value_at F2 "B" in
  let* b1 := value_at F1 "B" in
  let* b0 := value_at F0 "B" in
  lift (toString [b7; b6; b5; b4; b3; b2; b1; b0]).

(** [Substraction(a, b)] returns what [print] returns, [None]; the digits
    are only written to the output. *)
Definition Substraction (depth : nat) (a b : pyseq) : M pyval :=
  let* nb := negateNumber depth b in
  let* b := lift (toString nb) in
  let* c := addcarry depth a (SStr b) in
  let* s := lift (toString c) in
  let* _ := tell [Stdout s] in
  ret VNone.

(** Run a routine as a fresh program. *)
Definition run {A} (m : M A) : result (A * trace) :=
  match m empty_heap with
  | Ok (a, _, t) => Ok (a, t)
  | Raise e => Raise e
  end.

Definition returns {A} (m : M A) : result A :=
  match m empty_heap with
  | Ok (a, _, _) => Ok a
  | Raise e => Raise e
  end.

(** ** Reasoning support: heaps that extend one another

    A routine that succeeds on a heap [s] succeeds in the same way on every
    heap [h] that extends [s] with further objects: it never inspects an
    address it did not reach.  [ov s' h] is the heap [h] with the part [s]
    replaced by its final state [s']. *)

Definition wf (h : heap) : Prop :=
  (forall r, (next_conn h <= r)%positive -> conns h !! r = None) /\
  (forall o, (next_obj h <= o)%positive -> objs h !! o = None).

Definition ext (s h : heap) : Prop :=
  conns s ⊆ conns h /\ objs s ⊆ objs h /\
  next_conn s = next_conn h /\ next_obj s = next_obj h /\ wf h.

Definition ov (s h : heap) : heap :=
  mkHeap (conns s ∪ conns h) (objs s ∪ objs h) (next_conn s) (next_obj s).

Definition grows (s s' : heap) : Prop :=
  (forall r, conns s' !! r = None -> conns s !! r = None) /\
  (forall r, (r < next_conn s)%positive ->
             conns s !! r = None -> conns s' !! r = None) /\
  (next_conn s <= next_conn s')%positive /\
  (forall o, objs s' !! o = None -> objs s !! o = None) /\
  (forall o, (o < next_obj s)%positive ->
             objs s !! o = None -> objs s' !! o = None) /\
  (next_obj s <= next_obj s')%positive.

Definition local_at {A} (s : heap) (m : M A) : Prop :=
  forall a s' t, wf s -> m s = Ok (a, s', t) ->
    wf s' /\ grows s s' /\
    forall h, ext s h -> m h = Ok (a, ov s' h, t).

Definition local {A} (m : M A) : Prop := forall s, local_at s m.

(** A routine is [static] when it allocates nothing and leaves every
    circuit object as it is: only connector values change. *)
Definition static {A} (m : M A) : Prop :=
  forall h a h' t, m h = Ok (a, h', t) ->
    objs h' = objs h /\ next_conn h' = next_conn h /\
    next_obj h' = next_obj h.

(** [below m m']: whenever [m] succeeds, [m'] succeeds with the same
    outcome (used for: more depth never changes a result). *)
Definition below {A} (m m' : M A) : Prop :=
  forall h r, m h = Ok r -> m' h = Ok r.

(** Total-correctness postconditions. *)
Definition wp {A} (m : M A) (Q : A -> heap -> Prop) (h : heap) : Prop :=
  exists a h' t, m h = Ok (a, h', t) /\ Q a h'.

(** ** Executable checks

    The routines are analysed by running them: [wpb] runs a routine on a
    concrete heap and hands the outcome to a boolean continuation, [allb]
    tries both values of an input bit. *)

Definition wpb {A} (m : M A) (K : A -> heap -> bool) (h : heap) : bool :=
  match m h with
  | Ok (a, h', _) => K a h'
  | Raise _ => false
  end.

Definition allb (K : bool -> heap -> bool) (h : heap) : bool :=
  K false h && K true h.

#[global] Instance pyval_eq_dec : EqDecision pyval.
Proof. solve_decision. Defined.

#[global] Instance pyname_eq_dec : EqDecision pyname.
Proof. solve_decision. Defined.

#[global] Instance Connector_eq_dec : EqDecision Connector.
Proof. solve_decision. Defined.

#[global] Instance pyclass_eq_dec : EqDecision pyclass.
Proof. solve_decision. Defined.

#[global] Instance attr_eq_dec : EqDecision attr.
Proof. solve_decision. Defined.

#[global] Instance LC_eq_dec : EqDecision LC.
Proof. solve_decision. Defined.

#[global] Instance heap_eq_dec : EqDecision heap.
Proof. solve_decision. Defined.

(** The connector stored in [o.<f>], and its current value. *)
Definition field_conn (h : heap) (o : ref) (f : string) : option ref :=
  match objs h !! o with
  | Some ob =>
      match assoc f (lc_attrs ob) with
      | Some (AConn c) => Some c
      | _ => None
      end
  | None => None
  end.

Definition peek (h : heap) (o : ref) (f : string) : option pyval :=
  match field_conn h o f with
  | Some c =>
      match conns h !! c with
      | Some con => Some (value con)
      | None => None
      end
  | None => None
  end.

(** *** The ripple-carry chain, stage by stage

    One stage of [addcarry] sets [F.A] and [F.B]; one stage of [increment]
    ([ev = true]) then calls [F.evaluate()].  [stages] is the chain as it
    stands in the source, followed by the rest [k] of the routine. *)

Definition stage (ev : bool) (d : nat) (F : ref) (x y : bool) : M unit :=
  let* _ := set_at d F "A" (VBool x) in
  let* _ := set_at d F "B" (VBool y) in
  if ev then evaluate (set d) F else ret tt.

Definition after {A} (ev : bool) (d : nat) (F : ref) (k : M A) : M A :=
  if ev then let* _ := evaluate (set d) F in k else k.

Fixpoint stages {A} (ev : bool) (d : nat) (a b : pyseq)
  (Fs : list (ref * nat)) (k : M A) : M A :=
  match Fs with
  | [] => k
  | (F, i) :: Fs' =>
      let* _ := set_bit d F "A" a i in
      let* _ := set_bit d F "B" b i in
      after ev d F (stages ev d a b Fs' k)
  end.

(** The one-bit full adder. *)
Definition fa_sum (x y c : bool) : bool := xorb (xorb x y) c.

Definition fa_carry (x y c : bool) : bool := (x && y) || (c && xorb x y).

(** The part of a heap made of the connectors allocated from [bound] on:
    the stages that have not been driven yet. *)
Definition restrict (bound : positive) (s : heap) : heap :=
  mkHeap (filter (fun kv => (bound <= kv.1)%positive) (conns s))
         (objs s) (next_conn s) (next_obj s).

Definition bound_of (s : heap) (Fs : list (ref * nat)) : positive :=
  match Fs with
  | (F, _) :: _ =>
      match field_conn s F "A" with Some r => r | None => next_conn s end
  | [] => next_conn s
  end.

(** [o.<f>] holds [v] in [s'] and lies outside the part [t]. *)
Definition out_ok (s' t : heap) (F : ref) (f : string) (v : pyval) : bool :=
  match field_conn s' F f with
  | Some r =>
      match conns s' !! r with
      | Some con => bool_decide (value con = v)
      | None => false
      end
      && match conns t !! r with None => true | Some _ => false end
  | None => false
  end.

(** The carry waiting at the first stage of [Fs] is [c]. *)
Definition cin_is (s : heap) (Fs : list (ref * nat)) (c : bool) : bool :=
  match Fs with
  | [] => true
  | (F, _) :: _ =>
      match peek s F "Cin" with
      | Some v => bool_decide (truthy v = c)
      | None => false
      end
  end.

Definition bools : list bool := [false; true].

(** Every state of [R], driven with every pair of bits, yields the full
    adder's outputs and leaves the later stages in a state of [R']. *)
Definition stage_ok (ev : bool) (d : nat) (F : ref) (Fs' : list (ref * nat))
  (R R' : list heap) : bool :=
  forallb (fun s =>
    match peek s F "Cin" with
    | Some cv =>
        let c := truthy cv in
        forallb (fun x => forallb (fun y =>
          match stage ev d F x y s with
          | Ok (_, s', _) =>
              let t := restrict (bound_of s' Fs') s' in
              out_ok s' t F "S" (VBool (fa_sum x y c))
              && out_ok s' t F "Cout" (VBool (fa_carry x y c))
              && existsb (fun t' => bool_decide (t' = t)) R'
              && cin_is t Fs' (fa_carry x y c)
          | Raise _ => false
          end) bools) bools
    | None => false
    end) R.

Fixpoint dp_check (ev : bool) (d : nat) (Fs : list (ref * nat))
  (Rs : list (list heap)) : bool :=
  match Fs, Rs with
  | [], _ => true
  | (F, _) :: Fs', R :: ((R' :: _) as Rs') =>
      stage_ok ev d F Fs' R R' && dp_check ev d Fs' Rs'
  | _, _ => false
  end.

(** The states the later stages can be left in. *)
Fixpoint insert_new (t : heap) (l : list heap) : list heap :=
  match l with
  | [] => [t]
  | x :: l' => if bool_decide (x = t) then l else x :: insert_new t l'
  end.

Definition next_states (ev : bool) (d : nat) (F : ref)
  (Fs' : list (ref * nat)) (R : list heap) : list heap :=
  fold_left (fun acc s =>
    fold_left (fun acc x =>
      fold_left (fun acc y =>
        match stage ev d F x y s with
        | Ok (_, s', _) => insert_new (restrict (bound_of s' Fs') s') acc
        | Raise _ => acc
        end) bools acc) bools acc) R [].

Fixpoint explore (ev : bool) (d : nat) (Fs : list (ref * nat))
  (R : list heap) : list (list heap) :=
  R :: match Fs with
       | [] => []
       | (F, _) :: Fs' => explore ev d Fs' (next_states ev d F Fs' R)
       end.

Definition chain_ok (ev : bool) (d : nat) (Fs : list (ref * nat))
  (s : heap) : bool :=
  cin_is s Fs false && dp_check ev d Fs (explore ev d Fs [s]).

(** The bits fed to the stages, and the outputs they must show. *)
Fixpoint bits_of (a b : pyseq) (idx : list nat) (xs ys : list bool)
  : Prop :=
  match idx, xs, ys with
  | [], [], [] => True
  | i :: idx', x :: xs', y :: ys' =>
      bit a i = Ok x /\ bit b i = Ok y /\ bits_of a b idx' xs' ys'
  | _, _, _ => False
  end.

Fixpoint outputs_ok (Fs : list (ref * nat)) (xs ys : list bool) (c : bool)
  (h : heap) : Prop :=
  match Fs, xs, ys with
  | (F, _) :: Fs', x :: xs', y :: ys' =>
      peek h F "S" = Some (VBool (fa_sum x y c)) /\
      peek h F "Cout" = Some (VBool (fa_carry x y c)) /\
      outputs_ok Fs' xs' ys' (fa_carry x y c) h
  | _, _, _ => True
  end.

(** What driving the stages of the part [s] of [h] leaves untouched. *)
Definition frame_ok (s h h' : heap) : Prop :=
  objs h' = objs h /\ next_conn h' = next_conn h /\
  next_obj h' = next_obj h /\ wf h' /\
  forall r, conns s !! r = None -> conns h' !! r = conns h !! r.

(** The checks of the two adders, from a heap [base]. *)
Definition addcarry_check (d : nat) (base : heap) : bool :=
  wpb (FullAdder (NameStr "F0")) (fun F0 =>
  wpb (FullAdder (NameStr "F1")) (fun F1 =>
  wpb (connect_at F0 "Cout" F1 "Cin") (fun _ =>
  wpb (FullAdder (NameStr "F2")) (fun F2 =>
  wpb (connect_at F1 "Cout" F2 "Cin") (fun _ =>
  wpb (FullAdder (NameStr "F3")) (fun F3 =>
  wpb (connect_at F2 "Cout" F3 "Cin") (fun _ =>
  wpb (FullAdder (NameStr "F4")) (fun F4 =>
  wpb (connect_at F3 "Cout" F4 "Cin") (fun _ =>
  wpb (FullAdder (NameStr "F5")) (fun F5 =>
  wpb (connect_at F4 "Cout" F5 "Cin") (fun _ =>
  wpb (FullAdder (NameStr "F6")) (fun F6 =>
  wpb (connect_at F5 "Cout" F6 "Cin") (fun _ =>
  wpb (FullAdder (NameStr "F7")) (fun F7 =>
  wpb (connect_at F6 "Cout" F7 "Cin") (fun _ =>
  wpb (set_at d F0 "Cin" (VInt 0)) (fun _ =>
  chain_ok false d
    [(F0, 7); (F1, 6); (F2, 5); (F3, 4); (F4, 3); (F5, 2); (F6, 1); (F7, 0)]%nat
  )))))))))))))))) base.

Definition increment_check (d : nat) (base : heap) : bool :=
  wpb (FullAdder_And "F0") (fun F0 =>
  wpb (FullAdder_And "F1") (fun F1 =>
  wpb (connect_at F0 "Cout" F1 "Cin") (fun _ =>
  wpb (FullAdder_And "F2") (fun F2 =>
  wpb (connect_at F1 "Cout" F2 "Cin") (fun _ =>
  wpb (FullAdder_And "F3") (fun F3 =>
  wpb (connect_at F2 "Cout" F3 "Cin") (fun _ =>
  wpb (FullAdder_And "F4") (fun F4 =>
  wpb (connect_at F3 "Cout" F4 "Cin") (fun _ =>
  wpb (FullAdder_And "F5") (fun F5 =>
  wpb (connect_at F4 "Cout" F5 "Cin") (fun _ =>
  wpb (FullAdder_And "F6") (fun F6 =>
  wpb (connect_at F5 "Cout" F6 "Cin") (fun _ =>
  wpb (FullAdder_And "F7") (fun F7 =>
  wpb (connect_at F6 "Cout" F7 "Cin") (fun _ =>
  wpb (set_at d F0 "Cin" (VInt 0)) (fun _ =>
  chain_ok true d
    [(F0, 7); (F1, 6); (F2, 5); (F3, 4); (F4, 3); (F5, 2); (F6, 1); (F7, 0)]%nat
  )))))))))))))))) base.

(** The end of both adders: read the carry and the sums. *)
Definition read_sums (F0 F1 F2 F3 F4 F5 F6 F7 : ref) : M (list pyval) :=
  let* cout := value_at F7 "Cout" in
  let* s7 := value_at F7 "S" in
  let* s6 := value_at F6 "S" in
  let* s5 := value_at F5 "S" in
  let* s4 := value_at F4 "S" in
  let* s3 := value_at F3 "S" in
  let* s2 := value_at F2 "S" in
  let* s1 := value_at F1 "S" in
  let* s0 := value_at F0 "S" in
  ret [cout; s7; s6; s5; s4; s3; s2; s1; s0].

(** The ripple-carry adder on bits, least significant first: the sum bits
    and the carry out. *)
Fixpoint ripple (c : bool) (xs ys : list bool) : list bool * bool :=
  match xs, ys with
  | x :: xs', y :: ys' =>
      let (ss, co) := ripple (fa_carry x y c) xs' ys' in
      (fa_sum x y c :: ss, co)
  | _, _ => ([], c)
  end.

(** What the adders return for operands given least significant bit
    first: the carry, then the sum bits, most significant first. *)
Definition adder_result (xs ys : list bool) : list pyval :=
  let (ss, co) := ripple false xs ys in
  VBool co :: map VBool (rev ss).

Definition idx8 : list nat := [7; 6; 5; 4; 3; 2; 1; 0]%nat.

(** A heap with nothing in it whose next addresses are [nc] and [no]. *)
Definition blank (nc no : positive) : heap := mkHeap ∅ ∅ nc no.

(** ** Bit strings as numbers *)

(** The bits of a string, most significant first, read the way [bit]
    reads them: a character is a one bit iff it is ['1']. *)
Definition msb_bits (s : string) : list bool :=
  map (fun c => Ascii.eqb c "1"%char) (list_ascii_of_string s).

Definition lsb_bits (s : string) : list bool := rev (msb_bits s).

(** The number a bit string denotes in binary. *)
Definition bin_value (s : string) : Z :=
  fold_left (fun acc x => 2 * acc + Z.b2z x) (msb_bits s) 0.

(** The number denoted by bits given least significant first. *)
Definition val_lsb (l : list bool) : Z :=
  fold_right (fun x acc => 2 * acc + Z.b2z x) 0 l.

(** The 8 low bits of a number, most significant first. *)
Definition to_bits8 (n : Z) : list bool :=
  map (Z.testbit n) [7; 6; 5; 4; 3; 2; 1; 0].

(** A string of exactly 8 characters, each ['0'] or ['1']. *)
Definition is_bitstring8 (s : string) : bool :=
  Nat.eqb (String.length s) 8 &&
  forallb (fun c => Ascii.eqb c "0"%char || Ascii.eqb c "1"%char)
          (list_ascii_of_string s).

(** The character of a bit, and the string of a list of bits. *)
Definition bit_char (x : bool) : ascii := if x then "1"%char else "0"%char.

Definition bit_string (l : list bool) : string :=
  string_of_list_ascii (map bit_char l).

(** The bits of one operand at the indices [idx]. *)
Fixpoint bits_at (a : pyseq) (idx : list nat) (xs : list bool) : Prop :=
  match idx, xs with
  | [], [] => True
  | i :: idx', x :: xs' => bit a i = Ok x /\ bits_at a idx' xs'
  | _, _ => False
  end.

(** ** The bank of eight inverters

    [complementOne] and [PassTrough] build eight inverters with [mk],
    drive each with one bit of [a] and read the outputs; they differ in
    [mk] and in what they do with the list read ([fin]). *)
Definition inverters {A} (mk : string -> M ref) (d : nat) (a : pyseq)
  (fin : list pyval -> M A) : M A :=
  let* F0 := mk "F0" in
  let* F1 := mk "F1" in
  let* F3 := mk "F3" in
  let* F2 := mk "F2" in
  let* F4 := mk "F4" in
  let* F5 := mk "F5" in
  let* F6 := mk "F6" in
  let* F7 := mk "F7" in
  let* _ := set_bit d F0 "A" a 7 in
  let* _ := evaluate (set d) F0 in
  let* _ := set_bit d F1 "A" a 6 in
  let* _ := evaluate (set d) F1 in
  let* _ := set_bit d F2 "A" a 5 in
  let* _ := evaluate (set d) F2 in
  let* _ := set_bit d F3 "A" a 4 in
  let* _ := evaluate (set d) F3 in
  let* _ := set_bit d F4 "A" a 3 in
  let* _ := evaluate (set d) F4 in
  let* _ := set_bit d F5 "A" a 2 in
  let* _ := evaluate (set d) F5 in
  let* _ := set_bit d F6 "A" a 1 in
  let* _ := evaluate (set d) F6 in
  let* _ := set_bit d F7 "A" a 0 in
  let* _ := evaluate (set d) F7 in
  let* b7 := value_at F7 "B" in
  let* b6 := value_at F6 "B" in
  let* b5 := value_at F5 "B" in
  let* b4 := value_at F4 "B" in
  let* b3 := value_at F3 "B" in
  let* b2 := value_at F2 "B" in
  let* b1 := value_at F1 "B" in
  let* b0 := value_at F0 "B" in
  fin [b7; b6; b5; b4; b3; b2; b1; b0].

(** [o.<f>] holds [v]. *)
Definition holds (o : ref) (f : string) (v : pyval) (h : heap) : bool :=
  match peek h o f with
  | Some w => bool_decide (w = v)
  | None => false
  end.

(** The check of the bank: whatever the eight bits, every output is the
    negated input, and the heap ends with next addresses [nc] and [no]. *)
Definition inverters_check (mk : string -> M ref) (d : nat)
  (nc no : positive) (base : heap) : bool :=
  wpb (mk "F0") (fun F0 =>
  wpb (mk "F1") (fun F1 =>
  wpb (mk "F3") (fun F3 =>
  wpb (mk "F2") (fun F2 =>
  wpb (mk "F4") (fun F4 =>
  wpb (mk "F5") (fun F5 =>
  wpb (mk "F6") (fun F6 =>
  wpb (mk "F7") (fun F7 =>
  allb (fun x0 =>
  wpb (set_at d F0 "A" (VBool x0)) (fun _ =>
  wpb (evaluate (set d) F0) (fun _ =>
  allb (fun x1 =>
  wpb (set_at d F1 "A" (VBool x1)) (fun _ =>
  wpb (evaluate (set d) F1) (fun _ =>
  allb (fun x2 =>
  wpb (set_at d F2 "A" (VBool x2)) (fun _ =>
  wpb (evaluate (set d) F2) (fun _ =>
  allb (fun x3 =>
  wpb (set_at d F3 "A" (VBool x3)) (fun _ =>
  wpb (evaluate (set d) F3) (fun _ =>
  allb (fun x4 =>
  wpb (set_at d F4 "A" (VBool x4)) (fun _ =>
  wpb (evaluate (set d) F4) (fun _ =>
  allb (fun x5 =>
  wpb (set_at d F5 "A" (VBool x5)) (fun _ =>
  wpb (evaluate (set d) F5) (fun _ =>
  allb (fun x6 =>
  wpb (set_at d F6 "A" (VBool x6)) (fun _ =>
  wpb (evaluate (set d) F6) (fun _ =>
  allb (fun x7 =>
  wpb (set_at d F7 "A" (VBool x7)) (fun _ =>
  wpb (evaluate (set d) F7) (fun _ h =>
    holds F7 "B" (VBool (negb x7)) h && holds F6 "B" (VBool (negb x6)) h
    && holds F5 "B" (VBool (negb x5)) h && holds F4 "B" (VBool (negb x4)) h
    && holds F3 "B" (VBool (negb x3)) h && holds F2 "B" (VBool (negb x2)) h
    && holds F1 "B" (VBool (negb x1)) h && holds F0 "B" (VBool (negb x0)) h
    && bool_decide (next_conn h = nc) && bool_decide (next_obj h = no)
  )))))))))))))))))))))))))))))))) base.

Definition mkNot (nm : string) : M ref := Not (NameStr nm).

(** The nesting depths the checks are run with. *)
Definition adder_depth : nat := 28.

Definition inverter_depth : nat := 2.

(** ** Driving a single gate *)

(** Build a two-input gate, set [A] then [B], read [C]. *)
Definition drive2 (mk : pyname -> M ref) (d : nat) (a b : pyval) : M pyval :=
  let* g := mk (NameStr "G") in
  let* _ := set_at d g "A" a in
  let* _ := set_at d g "B" b in
  value_at g "C".

(** The same with [B] set before [A]. *)
Definition drive2_rev (mk : pyname -> M ref) (d : nat) (a b : pyval)
  : M pyval :=
  let* g := mk (NameStr "G") in
  let* _ := set_at d g "B" b in
  let* _ := set_at d g "A" a in
  value_at g "C".

(** Build an inverter, set [A], read [B]. *)
Definition drive1 (d : nat) (a : pyval) : M pyval :=
  let* g := Not (NameStr "G") in
  let* _ := set_at d g "A" a in
  value_at g "B".

(** The lines printed by [print(...)] calls other than monitors. *)
Fixpoint stdout_lines (t : trace) : list string :=
  match t with
  | [] => []
  | Stdout s :: t' => s :: stdout_lines t'
  | _ :: t' => stdout_lines t'
  end.

(** The output of a program run: what it returns and the lines it
    prints with [print]. *)
Definition printed {A} (m : M A) : result (A * list string) :=
  match m empty_heap with
  | Ok (a, _, t) => Ok (a, stdout_lines t)
  | Raise e => Raise e
  end.

(** The re-encoding of a list of connector values as a bit string, as
    [negateNumber] does it: [0] for a value equal to [False], else [1]. *)
Definition reencode (result : list pyval) : string :=
  let b := map (fun j => if py_eq j (VBool false) then 0 else 1) result in
  String.concat "" (map py_str b).

(** [complementOne(complementOne(x))], the inner result passed on as it
    is. *)
Definition complementOne_twice (d : nat) (x : string) : M (list pyval) :=
  let* r := complementOne d (SStr x) in
  complementOne d (SList r).

(** [complementOne] applied again to the re-encoded result of a first
    application. *)
Definition complementOne_reencoded (d : nat) (x : string)
  : M (list pyval) :=
  let* r := complementOne d (SStr x) in
  complementOne d (SStr (reencode r)).

Definition gate_depth : nat := 8.

(** Build a two-input gate, set only the input [field], read [C]. *)
Definition drive_only (mk : pyname -> M ref) (d : nat) (field : string)
  (v : pyval) : M pyval :=
  let* g := mk (NameStr "G") in
  let* _ := set_at d g field v in
  value_at g "C".

(** How many circuit objects of class [cls] a constructor creates. *)
Definition count_built (cls : pyclass) (m : M ref) : result nat :=
  match m empty_heap with
  | Ok (_, h, _) =>
      Ok (length (filter (fun kv => lc_class kv.2 = cls)
                         (map_to_list (objs h))))
  | Raise e => Raise e
  end.

(** A heap with one inverter whose input has been set to [True]. *)
Definition inverter_heap : heap :=
  match (let* g := Not (NameStr "G") in
         set_at 2 g "A" (VBool true)) empty_heap with
  | Ok (_, h, _) => h
  | Raise _ => empty_heap
  end.

(** ** Further programs and checks *)

(** [PassTrough(PassTrough(a))] *)
Definition PassTrough_twice (d : nat) (a : string) : M string :=
  let* s := PassTrough d (SStr a) in
  PassTrough d (SStr s).

(** The 8 values after the carry in an adder's result. *)
Definition sum_bits (r : list pyval) : list pyval := tl r.

(** A feedback loop: an inverter whose output drives its own input, then
    [A.set(v)]. *)
Definition feedback (d : nat) (v : pyval) : M pyval :=
  let* g := Not (NameStr "G") in
  let* b := conn_of g "B" in
  let* a := conn_of g "A" in
  let* _ := connect b (One a) in
  let* _ := set d a v in
  value_of b.

(** The heap of the feedback loop once [A] holds [x] and [B] holds
    [not x]. *)
Definition loop_heap (x : bool) : heap :=
  mkHeap
    (<[2%positive := mkConnector (VBool (negb x)) 1 "B" 0 [1%positive] 0]>
       (<[1%positive := mkConnector (VBool x) 1 "A" 0 [] 1]> PEmpty))
    (<[1%positive := mkLC CNot (NameStr "G")
                       [("B", AConn 2%positive); ("A", AConn 1%positive)]]>
       PEmpty)
    3%positive 2%positive.

(** [set] leaves a connector's wiring alone: everything but [value]. *)
Definition same_wiring (c c' : Connector) : Prop :=
  owner c' = owner c /\ name c' = name c /\ monitor c' = monitor c /\
  connects c' = connects c /\ activates c' = activates c.

Definition wiring_kept (h h' : heap) : Prop :=
  objs h' = objs h /\ next_conn h' = next_conn h /\
  next_obj h' = next_obj h /\
  forall r, match conns h !! r, conns h' !! r with
            | Some c, Some c' => same_wiring c c'
            | None, None => True
            | _, _ => False
            end.

Definition keeps_wiring {A} (m : M A) : Prop :=
  forall h a h' t, m h = Ok (a, h', t) -> wiring_kept h h'.

(** A value [toString] can convert: anything but [None]. *)
Definition convertible (v : pyval) : bool :=
  match v with VNone => false | _ => true end.

(** The connectors passed to [connect]. *)
Definition targets (arg : connect_arg) : list ref :=
  match arg with One c => [c] | Many l => l end.

(** A connector with [l] appended to its fan-out. *)
Definition connected (con : Connector) (l : list ref) : Connector :=
  mkConnector (value con) (owner con) (name con) (monitor con)
              (connects con ++ l) (activates con).

(** A heap with two inverters, and its part made of the second one. *)
Definition two_inverters : heap :=
  match (let* g1 := Not (NameStr "G1") in Not (NameStr "G2")) empty_heap with
  | Ok (_, h, _) => h
  | Raise _ => empty_heap
  end.

Definition second_inverter : heap := restrict 3 two_inverters.

(** ** Driving a circuit with any sequence of input changes *)

(** [g.<f>.set(b)] for each [(f, b)] of the script, in order. *)
Fixpoint play (d : nat) (g : ref) (script : list (string * bool)) : M unit :=
  match script with
  | [] => ret tt
  | (f, b) :: rest => let* _ := set_at d g f (VBool b) in play d g rest
  end.

(** [[g.<f>.value for f in fs]] *)
Fixpoint read_fields (g : ref) (fs : list string) : M (list pyval) :=
  match fs with
  | [] => ret []
  | f :: fs' =>
      let* v := value_at g f in
      let* vs := read_fields g fs' in
      ret (v :: vs)
  end.

(** Build a circuit, play a script on its inputs, read some connectors. *)
Definition drive_script (mk : pyname -> M ref) (d : nat)
  (script : list (string * bool)) (fs : list string) : M (list pyval) :=
  let* g := mk (NameStr "G") in
  let* _ := play d g script in
  read_fields g fs.

(** The value a script gave last to the input [q], if any. *)
Fixpoint last_set (q : string) (script : list (string * bool))
  : option bool :=
  match script with
  | [] => None
  | (f, b) :: rest =>
      match last_set q rest with
      | Some b' => Some b'
      | None => if String.eqb q f then Some b else None
      end
  end.

(** What input [q] holds after a script: the last value set, or [None]. *)
Definition input_value (script : list (string * bool)) (q : string) : pyval :=
  match last_set q script with
  | Some b => VBool b
  | None => VNone
  end.

(** What the inputs hold after a script played from a state in which
    [q] holds [v0]. *)
Definition held (script : list (string * bool)) (v0 : option pyval)
  (q : string) : option pyval :=
  match last_set q script with
  | Some b => Some (VBool b)
  | None => v0
  end.

Fixpoint peeks (h : heap) (g : ref) (fs : list string)
  : option (list pyval) :=
  match fs with
  | [] => Some []
  | f :: fs' =>
      match peek h g f, peeks h g fs' with
      | Some v, Some vs => Some (v :: vs)
      | _, _ => None
      end
  end.

Fixpoint all_bools (vs : list pyval) : option (list bool) :=
  match vs with
  | [] => Some []
  | VBool b :: vs' =>
      match all_bools vs' with
      | Some bs => Some (b :: bs)
      | None => None
      end
  | _ :: _ => None
  end.

(** In the state [h] the outputs can be read, and show [table] of the
    inputs whenever every input holds a boolean. *)
Definition settled (ins outs : list string) (table : list bool -> list bool)
  (g : ref) (h : heap) : bool :=
  match peeks h g ins, peeks h g outs with
  | Some vi, Some vo =>
      match all_bools vi with
      | Some xs => bool_decide (vo = map VBool (table xs))
      | None => true
      end
  | _, _ => false
  end.

(** After [g.<p>.set(b)] the input [p] holds [b] and the other inputs
    hold what they held. *)
Definition pins_ok (ins : list string) (g : ref) (p : string) (b : bool)
  (h h' : heap) : bool :=
  forallb (fun q =>
    bool_decide (peek h' g q
                 = if String.eqb q p then Some (VBool b) else peek h g q))
    ins.

Definition closed_under (d : nat) (g : ref) (ins : list string)
  (R : list heap) : bool :=
  forallb (fun h =>
    forallb (fun p =>
      forallb (fun b =>
        match set_at d g p (VBool b) h with
        | Ok (_, h', _) =>
            existsb (fun r => bool_decide (r = h')) R
            && pins_ok ins g p b h h'
        | Raise _ => false
        end) bools) ins) R.

Definition expand (d : nat) (g : ref) (ins : list string) (R : list heap)
  : list heap :=
  fold_left (fun acc h =>
    fold_left (fun acc p =>
      fold_left (fun acc b =>
        match set_at d g p (VBool b) h with
        | Ok (_, h', _) => insert_new h' acc
        | Raise _ => acc
        end) bools acc) ins acc) R R.

Fixpoint saturate (n : nat) (d : nat) (g : ref) (ins : list string)
  (R : list heap) : list heap :=
  match n with
  | O => R
  | S n' => saturate n' d g ins (expand d g ins R)
  end.

(** The check of a circuit: the states reached from the fresh circuit by
    at most [n] rounds of input changes are closed under input changes and
    all settled. *)
Definition sequence_check (mk : pyname -> M ref) (d n : nat)
  (ins outs : list string) (table : list bool -> list bool) : bool :=
  wpb (mk (NameStr "G")) (fun g h0 =>
    let R := saturate n d g ins [h0] in
    existsb (fun r => bool_decide (r = h0)) R
    && forallb (fun q => holds g q VNone h0) ins
    && forallb (settled ins outs table g) R
    && closed_under d g ins R) empty_heap.

Definition and_table (xs : list bool) : list bool :=
  match xs with [a; b] => [a && b] | _ => [] end.

Definition or_table (xs : list bool) : list bool :=
  match xs with [a; b] => [a || b] | _ => [] end.

Definition xor_table (xs : list bool) : list bool :=
  match xs with [a; b] => [xorb a b] | _ => [] end.

Definition not_table (xs : list bool) : list bool :=
  match xs with [a] => [negb a] | _ => [] end.

Definition half_table (xs : list bool) : list bool :=
  match xs with [a; b] => [xorb a b; a && b] | _ => [] end.

Definition full_table (xs : list bool) : list bool :=
  match xs with
  | [a; b; c] => [fa_sum a b c; fa_carry a b c]
  | _ => []
  end.

Definition circuit_depth : nat := 24.

(** A routine is [quiet] when it never calls [print] on a result: its trace
    has no [Stdout] line (monitored connectors write [Monitor] lines). *)
Definition quiet {A} (m : M A) : Prop :=
  forall h a h' t, m h = Ok (a, h', t) -> stdout_lines t = [].

(** The next addresses once [increment] has built and connected its eight
    stages. *)
Definition increment_counters (d : nat) (nc no : positive) (base : heap)
  : bool :=
  wpb (FullAdder_And "F0") (fun F0 =>
  wpb (FullAdder_And "F1") (fun F1 =>
  wpb (connect_at F0 "Cout" F1 "Cin") (fun _ =>
  wpb (FullAdder_And "F2") (fun F2 =>
  wpb (connect_at F1 "Cout" F2 "Cin") (fun _ =>
  wpb (FullAdder_And "F3") (fun F3 =>
  wpb (connect_at F2 "Cout" F3 "Cin") (fun _ =>
  wpb (FullAdder_And "F4") (fun F4 =>
  wpb (connect_at F3 "Cout" F4 "Cin") (fun _ =>
  wpb (FullAdder_And "F5") (fun F5 =>
  wpb (connect_at F4 "Cout" F5 "Cin") (fun _ =>
  wpb (FullAdder_And "F6") (fun F6 =>
  wpb (connect_at F5 "Cout" F6 "Cin") (fun _ =>
  wpb (FullAdder_And "F7") (fun F7 =>
  wpb (connect_at F6 "Cout" F7 "Cin") (fun _ =>
  wpb (set_at d F0 "Cin" (VInt 0)) (fun _ s =>
  bool_decide (next_conn s = nc) && bool_decide (next_obj s = no)
  )))))))))))))))) base.

(** The second operand [Substraction] hands to [addcarry], read at the
    indices 7 to 0 of the 9-character string of [negateNumber(b)]: the bits
    7 to 1 of [n], least significant first, then the carry [c]. *)
Definition shifted_bits (c : bool) (n : Z) : list bool :=
  map (Z.testbit n) [1; 2; 3; 4; 5; 6; 7] ++ [c].

(** ** What a run writes to the output *)

(** The lines of a trace: those of monitored connectors and those of
    [print]; [Evaluated] only records a call. *)
Fixpoint output_lines (t : trace) : list event :=
  match t with
  | [] => []
  | Evaluated _ :: t' => output_lines t'
  | e :: t' => e :: output_lines t'
  end.

(** No connector of the heap is monitored. *)
Definition unmonitored (h : heap) : Prop :=
  map_Forall (fun _ con => monitor con = 0%Z) (conns h).

(** On a heap without monitored connectors the routine writes nothing and
    creates no monitored connector. *)
Definition silent {A} (m : M A) : Prop :=
  forall h a h' t, unmonitored h -> m h = Ok (a, h', t) ->
    unmonitored h' /\ output_lines t = [].

(** A program that writes nothing when it returns. *)
Definition prints_nothing {A} (m : M A) : Prop :=
  match run m with
  | Ok (_, t) => output_lines t = []
  | Raise _ => True
  end.

(** A fresh full adder, the one circuit with monitored connectors. *)
Definition full_adder_heap : heap :=
  match FullAdder (NameStr "G") empty_heap with
  | Ok (_, h, _) => h
  | Raise _ => empty_heap
  end.
Lemma ov_self (s h : heap) : ext s h -> ov s h = h.
Proof.
  intros (Hc & Ho & Hn1 & Hn2 & _). unfold ov. destruct h as [c o n1 n2].
  simpl in *. rewrite Hn1, Hn2.
  f_equal; apply map_subseteq_union; assumption.
Qed.

Lemma wf_ov (s' h : heap) :
  wf s' -> wf h -> (next_conn h <= next_conn s')%positive ->
  (next_obj h <= next_obj s')%positive -> wf (ov s' h).
Proof.
  intros [W1 W2] [V1 V2] L1 L2. split; simpl; intros r Hr.
  - apply lookup_union_None. split; [apply W1 | apply V1]; lia.
  - apply lookup_union_None. split; [apply W2 | apply V2]; lia.
Qed.

Lemma ext_ov (s s' h : heap) :
  wf s' -> grows s s' -> ext s h -> ext s' (ov s' h).
Proof.
  intros W (_ & _ & L1 & _ & _ & L2) (Hc & Ho & Hn1 & Hn2 & V).
  repeat split; simpl; try apply map_union_subseteq_l;
    try (apply (wf_ov s' h W V); lia).
Qed.

Lemma union_absorb {A} (m1 m2 m3 : Pmap A) :
  (forall r, m1 !! r = None -> m2 !! r = None) ->
  m1 ∪ (m2 ∪ m3) = m1 ∪ m3.
Proof.
  intros H. apply map_eq. intros r.
  destruct (m1 !! r) eqn:E.
  - rewrite !(lookup_union_Some_l _ _ _ _ E). reflexivity.
  - rewrite (lookup_union_r m1 (m2 ∪ m3)) by assumption.
    rewrite (lookup_union_r m1 m3) by assumption.
    apply lookup_union_r. auto.
Qed.

Lemma ov_ov (s1 s2 h : heap) : grows s1 s2 -> ov s2 (ov s1 h) = ov s2 h.
Proof.
  intros (G1 & _ & _ & G2 & _ & _). unfold ov. simpl.
  f_equal; apply union_absorb; assumption.
Qed.

Lemma grows_refl (s : heap) : grows s s.
Proof. repeat split; auto; lia. Qed.

Lemma grows_trans (s1 s2 s3 : heap) :
  grows s1 s2 -> grows s2 s3 -> grows s1 s3.
Proof.
  intros (A1 & A2 & A3 & A4 & A5 & A6) (B1 & B2 & B3 & B4 & B5 & B6).
  repeat split; intros; auto; try lia.
  - apply B2; auto. lia.
  - apply B5; auto. lia.
Qed.

Lemma local_ret {A} (a : A) : local (ret a).
Proof.
  intros s a' s' t W H. inversion H; subst. split; [assumption|].
  split; [apply grows_refl|]. intros h E. unfold ret.
  rewrite (ov_self _ _ E). reflexivity.
Qed.

Lemma local_raise {A} (e : exn) : local (@raise A e).
Proof. intros s a s' t W H. discriminate. Qed.

Lemma local_tell (t : trace) : local (tell t).
Proof.
  intros s a' s' t' W H. inversion H; subst. split; [assumption|].
  split; [apply grows_refl|]. intros h E. unfold tell.
  rewrite (ov_self _ _ E). reflexivity.
Qed.

Lemma local_lift {A} (r : result A) : local (lift r).
Proof.
  intros s a' s' t' W H. unfold lift in *. destruct r; [|discriminate].
  inversion H; subst. split; [assumption|].
  split; [apply grows_refl|]. intros h E.
  rewrite (ov_self _ _ E). reflexivity.
Qed.

Lemma local_at_bind {A B} (s : heap) (m : M A) (k : A -> M B) :
  local_at s m ->
  (forall a s1 t, wf s1 -> m s = Ok (a, s1, t) -> local_at s1 (k a)) ->
  local_at s (bind m k).
Proof.
  intros Hm Hk b s2 t W H. unfold bind in H.
  destruct (m s) as [[[a s1] t1]|] eqn:E1; [|discriminate].
  destruct (k a s1) as [[[b' s2'] t2]|] eqn:E2; [|discriminate].
  inversion H; subst; clear H.
  destruct (Hm _ _ _ W E1) as (W1 & G1 & F1).
  destruct (Hk _ _ _ W1 eq_refl _ _ _ W1 E2) as (W2 & G2 & F2).
  split; [assumption|]. split; [eapply grows_trans; eassumption|].
  intros h E. unfold bind. rewrite (F1 h E).
  rewrite (F2 (ov s1 h) (ext_ov _ _ _ W1 G1 E)).
  rewrite ov_ov by assumption. reflexivity.
Qed.

Lemma local_bind {A B} (m : M A) (k : A -> M B) :
  local m -> (forall a, local (k a)) -> local (bind m k).
Proof.
  intros Hm Hk s. apply local_at_bind; [apply Hm|]. intros. apply Hk.
Qed.

Lemma get_conn_inv (c : ref) (h h' : heap) (con : Connector) (t : trace) :
  get_conn c h = Ok (con, h', t) ->
  h' = h /\ t = [] /\ conns h !! c = Some con.
Proof.
  unfold get_conn. destruct (conns h !! c); intros H; inversion H; auto.
Qed.

Lemma get_obj_inv (o : ref) (h h' : heap) (ob : LC) (t : trace) :
  get_obj o h = Ok (ob, h', t) ->
  h' = h /\ t = [] /\ objs h !! o = Some ob.
Proof.
  unfold get_obj. destruct (objs h !! o); intros H; inversion H; auto.
Qed.

Lemma local_get_conn (c : ref) : local (get_conn c).
Proof.
  intros s con s' t W H. apply get_conn_inv in H as (-> & -> & L).
  split; [assumption|]. split; [apply grows_refl|]. intros h E.
  unfold get_conn. destruct E as (Hc & E').
  rewrite (lookup_weaken _ _ _ _ L Hc).
  rewrite ov_self by (split; assumption). reflexivity.
Qed.

Lemma local_get_obj (o : ref) : local (get_obj o).
Proof.
  intros s ob s' t W H. apply get_obj_inv in H as (-> & -> & L).
  split; [assumption|]. split; [apply grows_refl|]. intros h E.
  unfold get_obj. destruct E as (Hc & Ho & E').
  rewrite (lookup_weaken _ _ _ _ L Ho).
  rewrite ov_self by (repeat split; try assumption; apply E'). reflexivity.
Qed.

Lemma local_at_put_conn (s : heap) (c : ref) (con : Connector) :
  is_Some (conns s !! c) -> local_at s (put_conn c con).
Proof.
  intros [old L] a s' t [W1 W2] H. inversion H; subst; clear H.
  split; [|split].
  - split; simpl; intros r Hr; [|auto].
    rewrite lookup_insert_ne; [auto|]. intros ->. rewrite W1 in L; [discriminate|assumption].
  - repeat split; simpl; auto; try lia.
    + intros r Hr. apply lookup_insert_None in Hr. tauto.
    + intros r _ Hr. rewrite lookup_insert_ne; [assumption|]. congruence.
  - intros h (Hc & Ho & Hn1 & Hn2 & V). unfold put_conn, ov. simpl.
    rewrite <- Hn1, <- Hn2. do 3 f_equal. f_equal.
    + rewrite <- insert_union_l. f_equal. symmetry.
      apply map_subseteq_union. assumption.
    + symmetry. apply map_subseteq_union. assumption.
Qed.

Lemma local_at_put_obj (s : heap) (o : ref) (ob : LC) :
  is_Some (objs s !! o) -> local_at s (put_obj o ob).
Proof.
  intros [old L] a s' t [W1 W2] H. inversion H; subst; clear H.
  split; [|split].
  - split; simpl; intros r Hr; [auto|].
    rewrite lookup_insert_ne; [auto|]. intros ->. rewrite W2 in L; [discriminate|assumption].
  - repeat split; simpl; auto; try lia.
    + intros r Hr. apply lookup_insert_None in Hr. tauto.
    + intros r _ Hr. rewrite lookup_insert_ne; [assumption|]. congruence.
  - intros h (Hc & Ho & Hn1 & Hn2 & V). unfold put_obj, ov. simpl.
    rewrite <- Hn1, <- Hn2. do 3 f_equal. f_equal.
    + symmetry. apply map_subseteq_union. assumption.
    + rewrite <- insert_union_l. f_equal. symmetry.
      apply map_subseteq_union. assumption.
Qed.

Lemma local_alloc_conn (con : Connector) : local (alloc_conn con).
Proof.
  intros s a s' t [W1 W2] H. inversion H; subst; clear H.
  split; [|split].
  - split; simpl; intros r Hr; [|auto].
    rewrite lookup_insert_ne by lia. apply W1. lia.
  - repeat split; simpl; auto; try lia.
    + intros r Hr. apply lookup_insert_None in Hr. tauto.
    + intros r Hlt Hr. rewrite lookup_insert_ne by lia. assumption.
  - intros h (Hc & Ho & Hn1 & Hn2 & V). unfold alloc_conn, ov. simpl.
    rewrite <- Hn1, <- Hn2. do 3 f_equal. f_equal.
    + rewrite <- insert_union_l. f_equal. symmetry.
      apply map_subseteq_union. assumption.
    + symmetry. apply map_subseteq_union. assumption.
Qed.

Lemma local_alloc_obj (ob : LC) : local (alloc_obj ob).
Proof.
  intros s a s' t [W1 W2] H. inversion H; subst; clear H.
  split; [|split].
  - split; simpl; intros r Hr; [auto|].
    rewrite lookup_insert_ne by lia. apply W2. lia.
  - repeat split; simpl; auto; try lia.
    + intros r Hr. apply lookup_insert_None in Hr. tauto.
    + intros r Hlt Hr. rewrite lookup_insert_ne by lia. assumption.
  - intros h (Hc & Ho & Hn1 & Hn2 & V). unfold alloc_obj, ov. simpl.
    rewrite <- Hn1, <- Hn2. do 3 f_equal. f_equal.
    + symmetry. apply map_subseteq_union. assumption.
    + rewrite <- insert_union_l. f_equal. symmetry.
      apply map_subseteq_union. assumption.
Qed.

Create HintDb local_db discriminated.

#[local] Hint Resolve local_ret local_raise local_tell local_lift
  local_get_conn local_get_obj local_alloc_conn local_alloc_obj : local_db.

Ltac local_step :=
  first [ solve [ auto with local_db ]
        | apply local_bind; [ | intros ? ]
        | match goal with
          | |- local (match ?x with _ => _ end) => destruct x
          | |- local (if ?x then _ else _) => destruct x
          end ].

Ltac local_auto := repeat local_step.

Lemma local_for_each {A} (l : list A) (body : A -> M unit) :
  (forall x, local (body x)) -> local (for_each l body).
Proof. intros H. induction l; simpl; local_auto. Qed.

Lemma local_update_conn (c : ref) (f : Connector -> Connector) :
  local (let* con := get_conn c in put_conn c (f con)).
Proof.
  intros s. apply local_at_bind; [apply local_get_conn|].
  intros con s1 t W H. apply get_conn_inv in H as (-> & _ & L).
  apply local_at_put_conn. eauto.
Qed.

Lemma local_setattr (self : ref) (field : string) (a : attr) :
  local (setattr self field a).
Proof.
  intros s. apply local_at_bind; [apply local_get_obj|].
  intros ob s1 t W H. apply get_obj_inv in H as (-> & _ & L).
  apply local_at_put_obj. eauto.
Qed.

Lemma local_conn_of (self : ref) (field : string) : local (conn_of self field).
Proof. unfold conn_of. local_auto. Qed.

Lemma local_obj_of (self : ref) (field : string) : local (obj_of self field).
Proof. unfold obj_of. local_auto. Qed.

Lemma local_value_of (c : ref) : local (value_of c).
Proof. unfold value_of. local_auto. Qed.

#[local] Hint Resolve local_setattr local_conn_of local_obj_of
  local_value_of local_update_conn : local_db.

Lemma local_new_Connector (own : ref) (nm : string) (act mon : Z) :
  local (new_Connector own nm act mon).
Proof. unfold new_Connector. local_auto. Qed.

Lemma local_connect (self : ref) (inputs : connect_arg) :
  local (connect self inputs).
Proof.
  unfold connect. apply local_for_each. intros x.
  apply (local_update_conn self
           (fun con => mkConnector (value con) (owner con) (name con)
                         (monitor con) (connects con ++ [x]) (activates con))).
Qed.

Lemma local_conn_path (path : list string) (self : ref) :
  local (conn_path self path).
Proof.
  revert self. induction path as [|f rest IH]; intros self; simpl.
  - auto with local_db.
  - destruct rest; [auto with local_db|]. local_auto.
Qed.

#[local] Hint Resolve local_new_Connector local_connect local_conn_path
  : local_db.

Lemma local_wire (self : ref) (src : list string) (dsts : list (list string)) :
  local (wire self src dsts).
Proof.
  unfold wire. local_auto.
  induction dsts; local_auto.
Qed.

Lemma local_sub (self : ref) (field : string) (mk : pyname -> M ref)
  (nm : string) :
  (forall n, local (mk n)) -> local (sub self field mk nm).
Proof. intros H. unfold sub. local_auto. Qed.

Lemma local_Not (nm : pyname) : local (Not nm).
Proof. unfold Not, LC_init. local_auto. Qed.

Lemma local_Gate2 (cls : pyclass) (nm : pyname) : local (Gate2 cls nm).
Proof. unfold Gate2, LC_init. local_auto. Qed.

Lemma local_And (nm : pyname) : local (And nm).
Proof. apply local_Gate2. Qed.

Lemma local_Or (nm : pyname) : local (Or nm).
Proof. apply local_Gate2. Qed.

#[local] Hint Resolve local_wire local_Not local_Gate2 local_And local_Or
  : local_db.

Lemma local_Xor (nm : pyname) : local (Xor nm).
Proof. unfold Xor. local_auto; apply local_sub; auto with local_db. Qed.

#[local] Hint Resolve local_Xor : local_db.

Lemma local_HalfAdder (nm : pyname) : local (HalfAdder nm).
Proof.
  unfold HalfAdder, LC_init. local_auto; apply local_sub; auto with local_db.
Qed.

#[local] Hint Resolve local_HalfAdder : local_db.

Lemma local_FullAdder (nm : pyname) : local (FullAdder nm).
Proof.
  unfold FullAdder, LC_init. local_auto; apply local_sub; auto with local_db.
Qed.

#[local] Hint Resolve local_FullAdder : local_db.

Lemma local_evaluate (set' : ref -> pyval -> M unit) (self : ref) :
  (forall c v, local (set' c v)) -> local (evaluate set' self).
Proof. intros H. unfold evaluate. local_auto. Qed.

Lemma local_set (depth : nat) (self : ref) (v : pyval) :
  local (set depth self v).
Proof.
  revert self v. induction depth as [|d IH]; intros self v; simpl.
  - auto with local_db.
  - intros s. apply local_at_bind; [apply local_get_conn|].
    intros con s1 t W H. apply get_conn_inv in H as (-> & _ & L).
    destruct (py_eq (value con) v); [apply local_ret|].
    apply local_at_bind; [apply local_at_put_conn; eauto|].
    intros _ s2 _ _ _. revert s2.
    change (local
      (let* _ := (if negb (Z.eqb (activates con) 0)
                  then evaluate (set d) (owner con) else ret tt) in
       let* _ := (if negb (Z.eqb (monitor con) 0)
                  then let* own := get_obj (owner con) in
                       let* now := get_conn self in
                       tell [Monitor (lc_name own) (name now) (value now)]
                  else ret tt) in
       let* now := get_conn self in
       for_each (connects now) (fun con' => set d con' v))).
    local_auto; try (apply local_evaluate; apply IH).
    apply local_for_each. intros. apply IH.
Qed.

#[local] Hint Resolve local_evaluate local_set : local_db.

Lemma local_set_at (depth : nat) (o : ref) (field : string) (v : pyval) :
  local (set_at depth o field v).
Proof. unfold set_at. local_auto. Qed.

Lemma local_set_bit (depth : nat) (o : ref) (field : string) (x : pyseq)
  (i : nat) : local (set_bit depth o field x i).
Proof. unfold set_bit. local_auto. Qed.

Lemma local_value_at (o : ref) (field : string) : local (value_at o field).
Proof. unfold value_at. local_auto. Qed.

Lemma local_connect_at (src : ref) (f : string) (dst : ref) (g : string) :
  local (connect_at src f dst g).
Proof. unfold connect_at. local_auto. Qed.

Lemma local_FullAdder_And (nm : string) : local (FullAdder_And nm).
Proof. unfold FullAdder_And. local_auto. Qed.

Lemma local_Not_Not (nm : string) : local (Not_Not nm).
Proof. unfold Not_Not. local_auto. Qed.

#[local] Hint Resolve local_set_at local_set_bit local_value_at
  local_connect_at local_FullAdder_And local_Not_Not : local_db.

(** *** Static routines *)

Create HintDb static_db discriminated.

Lemma static_ret {A} (a : A) : static (ret a).
Proof. intros h a' h' t H. inversion H; subst. auto. Qed.

Lemma static_raise {A} (e : exn) : static (@raise A e).
Proof. intros h a h' t H. discriminate. Qed.

Lemma static_tell (t : trace) : static (tell t).
Proof. intros h a' h' t' H. inversion H; subst. auto. Qed.

Lemma static_lift {A} (r : result A) : static (lift r).
Proof.
  intros h a' h' t' H. unfold lift in H. destruct r; inversion H; subst. auto.
Qed.

Lemma static_get_conn (c : ref) : static (get_conn c).
Proof. intros h a h' t H. apply get_conn_inv in H as (-> & _). auto. Qed.

Lemma static_get_obj (o : ref) : static (get_obj o).
Proof. intros h a h' t H. apply get_obj_inv in H as (-> & _). auto. Qed.

Lemma static_put_conn (c : ref) (con : Connector) : static (put_conn c con).
Proof. intros h a h' t H. inversion H; subst. auto. Qed.

Lemma static_bind {A B} (m : M A) (k : A -> M B) :
  static m -> (forall a, static (k a)) -> static (bind m k).
Proof.
  intros Hm Hk h b h2 t H. unfold bind in H.
  destruct (m h) as [[[a h1] t1]|] eqn:E1; [|discriminate].
  destruct (k a h1) as [[[b' h2'] t2]|] eqn:E2; [|discriminate].
  inversion H; subst; clear H.
  destruct (Hm _ _ _ _ E1) as (A1 & A2 & A3).
  destruct (Hk _ _ _ _ _ E2) as (B1 & B2 & B3).
  repeat split; congruence.
Qed.

#[local] Hint Resolve static_ret static_raise static_tell static_lift
  static_get_conn static_get_obj static_put_conn : static_db.

Ltac static_step :=
  first [ solve [ auto with static_db ]
        | apply static_bind; [ | intros ? ]
        | match goal with
          | |- static (match ?x with _ => _ end) => destruct x
          | |- static (if ?x then _ else _) => destruct x
          end ].

Ltac static_auto := repeat static_step.

Lemma static_for_each {A} (l : list A) (body : A -> M unit) :
  (forall x, static (body x)) -> static (for_each l body).
Proof. intros H. induction l; simpl; static_auto. Qed.

Lemma static_conn_of (self : ref) (field : string) :
  static (conn_of self field).
Proof. unfold conn_of. static_auto. Qed.

Lemma static_value_of (c : ref) : static (value_of c).
Proof. unfold value_of. static_auto. Qed.

#[local] Hint Resolve static_conn_of static_value_of : static_db.

Lemma static_evaluate (set' : ref -> pyval -> M unit) (self : ref) :
  (forall c v, static (set' c v)) -> static (evaluate set' self).
Proof. intros H. unfold evaluate. static_auto. Qed.

Lemma static_set (depth : nat) (self : ref) (v : pyval) :
  static (set depth self v).
Proof.
  revert self v. induction depth as [|d IH]; intros self v; simpl.
  - auto with static_db.
  - static_auto; try (apply static_evaluate; apply IH).
    apply static_for_each. intros. apply IH.
Qed.

#[local] Hint Resolve static_evaluate static_set : static_db.

Lemma static_set_at (depth : nat) (o : ref) (field : string) (v : pyval) :
  static (set_at depth o field v).
Proof. unfold set_at. static_auto. Qed.

Lemma static_value_at (o : ref) (field : string) :
  static (value_at o field).
Proof. unfold value_at. static_auto. Qed.

#[local] Hint Resolve static_set_at static_value_at : static_db.

(** *** More depth never changes a result *)

Create HintDb below_db discriminated.

Lemma below_refl {A} (m : M A) : below m m.
Proof. intros h r H. exact H. Qed.

Lemma below_bind {A B} (m m' : M A) (k k' : A -> M B) :
  below m m' -> (forall a, below (k a) (k' a)) ->
  below (bind m k) (bind m' k').
Proof.
  intros Hm Hk h r H. unfold bind in *.
  destruct (m h) as [[[a h1] t1]|] eqn:E1; [|discriminate].
  rewrite (Hm _ _ E1).
  destruct (k a h1) as [[[b h2] t2]|] eqn:E2; [|discriminate].
  rewrite (Hk _ _ _ E2). exact H.
Qed.

Lemma below_for_each {A} (l : list A) (f g : A -> M unit) :
  (forall x, below (f x) (g x)) -> below (for_each l f) (for_each l g).
Proof.
  intros H. induction l; simpl; [apply below_refl|].
  apply below_bind; auto.
Qed.


Ltac below_step :=
  match goal with
  | |- below ?m ?m => apply below_refl
  | |- below (bind _ _) (bind _ _) => apply below_bind; [ | intros ? ]
  | |- below (match ?x with _ => _ end) _ => destruct x
  | |- below (if ?x then _ else _) _ => destruct x
  | |- _ => solve [ auto with below_db ]
  end.

Ltac below_auto := repeat below_step.

Lemma below_evaluate (s s' : ref -> pyval -> M unit) (self : ref) :
  (forall c v, below (s c v) (s' c v)) ->
  below (evaluate s self) (evaluate s' self).
Proof. intros H. unfold evaluate. below_auto. Qed.

Lemma below_set (d d' : nat) :
  (d <= d')%nat -> forall self v, below (set d self v) (set d' self v).
Proof.
  revert d'. induction d as [|d IH]; intros d' Hle self v.
  - intros h r H. discriminate.
  - destruct d' as [|d']; [lia|]. assert (Hd : (d <= d')%nat) by lia.
    simpl. below_auto; try (apply below_evaluate; apply IH; assumption).
    apply below_for_each. intros. apply IH. assumption.
Qed.

Lemma below_set_at (d d' : nat) (o : ref) (field : string) (v : pyval) :
  (d <= d')%nat -> below (set_at d o field v) (set_at d' o field v).
Proof. intros H. unfold set_at. below_auto. apply below_set. assumption. Qed.

Lemma below_set_bit (d d' : nat) (o : ref) (field : string) (x : pyseq)
  (i : nat) :
  (d <= d')%nat -> below (set_bit d o field x i) (set_bit d' o field x i).
Proof. intros H. unfold set_bit. below_auto. apply below_set. assumption. Qed.

Lemma below_evaluate_set (d d' : nat) (self : ref) :
  (d <= d')%nat -> below (evaluate (set d) self) (evaluate (set d') self).
Proof. intros H. apply below_evaluate. apply below_set. assumption. Qed.

#[local] Hint Resolve below_set below_set_at below_set_bit
  below_evaluate_set : below_db.

(** *** Postconditions *)

Lemma wp_ret {A} (a : A) (Q : A -> heap -> Prop) (h : heap) :
  Q a h -> wp (ret a) Q h.
Proof. intros H. exists a, h, []. auto. Qed.

Lemma wp_bind {A B} (m : M A) (k : A -> M B) (Q : B -> heap -> Prop)
  (h : heap) :
  wp m (fun a h' => wp (k a) Q h') h -> wp (bind m k) Q h.
Proof.
  intros (a & h1 & t1 & E1 & b & h2 & t2 & E2 & HQ).
  exists b, h2, (t1 ++ t2)%list. unfold bind. rewrite E1, E2. auto.
Qed.

Lemma wp_below {A} (m m' : M A) (Q : A -> heap -> Prop) (h : heap) :
  below m m' -> wp m Q h -> wp m' Q h.
Proof. intros Hb (a & h1 & t1 & E1 & HQ). exists a, h1, t1. auto. Qed.

Lemma wp_weaken {A} (m : M A) (Q Q' : A -> heap -> Prop) (h : heap) :
  (forall a h', Q a h' -> Q' a h') -> wp m Q h -> wp m Q' h.
Proof. intros HQ (a & h1 & t1 & E1 & H). exists a, h1, t1. auto. Qed.

Lemma wf_blank (nc no : positive) : wf (blank nc no).
Proof. split; intros; apply lookup_empty. Qed.

Lemma wf_empty_heap : wf empty_heap.
Proof. apply (wf_blank 1 1). Qed.

Lemma ext_refl (h : heap) : wf h -> ext h h.
Proof. intros W. repeat split; auto; apply W. Qed.

Lemma ext_blank (h : heap) : wf h -> ext (blank (next_conn h) (next_obj h)) h.
Proof.
  intros W. repeat split; simpl; auto; try apply W; apply map_empty_subseteq.
Qed.

(** A routine checked on the part [s] behaves the same on the whole [h]. *)
Lemma sim_step {A B} (m m' : M A) (k : A -> M B) (K : A -> heap -> bool)
  (Q : B -> heap -> Prop) (s h : heap) :
  local m -> below m m' -> wf s -> ext s h ->
  wpb m K s = true ->
  (forall a s' h', wf s' -> ext s' h' -> K a s' = true -> wp (k a) Q h') ->
  wp (bind m' k) Q h.
Proof.
  intros Hl Hb W E Hc Hk. unfold wpb in Hc.
  destruct (m s) as [[[a s'] t]|] eqn:E1; [|discriminate].
  destruct (Hl _ _ _ _ W E1) as (W' & G & F).
  apply wp_bind. exists a, (ov s' h), t. split.
  - apply Hb. apply F. assumption.
  - apply (Hk a s'); auto. eapply ext_ov; eassumption.
Qed.

Lemma allb_elim (K : bool -> heap -> bool) (s : heap) (x : bool) :
  allb K s = true -> K x s = true.
Proof.
  unfold allb. intros H. apply andb_true_iff in H as [H1 H2].
  destruct x; assumption.
Qed.

Lemma below_bit (d d' : nat) (o : ref) (f : string) (a : pyseq) (i : nat)
  (x : bool) :
  (d <= d')%nat -> bit a i = Ok x ->
  below (set_at d o f (VBool x)) (set_bit d' o f a i).
Proof.
  intros Hd Hb h r H. unfold set_at, set_bit, bind in *.
  destruct (conn_of o f h) as [[[c h1] t1]|]; [|discriminate].
  rewrite Hb. simpl.
  destruct (set d c (VBool x) h1) as [[[u h2] t2]|] eqn:E; [|discriminate].
  rewrite (below_set d d' Hd _ _ _ _ E). exact H.
Qed.

(** Reading connectors. *)
Lemma peek_value_at (h : heap) (o : ref) (f : string) (v : pyval) :
  peek h o f = Some v -> value_at o f h = Ok (v, h, []).
Proof.
  unfold peek, field_conn, value_at, conn_of, value_of, bind, get_obj,
    get_conn, ret.
  destruct (objs h !! o) as [ob|]; [|discriminate].
  destruct (assoc f (lc_attrs ob)) as [[c|]|]; try discriminate.
  simpl. destruct (conns h !! c) as [con|]; [|discriminate].
  intros H. inversion H. reflexivity.
Qed.

Lemma wp_value_at {B} (o : ref) (f : string) (v : pyval) (k : pyval -> M B)
  (Q : B -> heap -> Prop) (h : heap) :
  peek h o f = Some v -> wp (k v) Q h -> wp (bind (value_at o f) k) Q h.
Proof.
  intros Hp Hk. apply wp_bind. exists v, h, []. split; [|assumption].
  apply peek_value_at. assumption.
Qed.

Lemma field_conn_weaken (s h : heap) (o : ref) (f : string) (r : ref) :
  objs s ⊆ objs h -> field_conn s o f = Some r -> field_conn h o f = Some r.
Proof.
  unfold field_conn. intros Hs.
  destruct (objs s !! o) as [ob|] eqn:E; [|discriminate].
  rewrite (lookup_weaken _ _ _ _ E Hs). auto.
Qed.

Lemma peek_weaken (s h : heap) (o : ref) (f : string) (v : pyval) :
  conns s ⊆ conns h -> objs s ⊆ objs h ->
  peek s o f = Some v -> peek h o f = Some v.
Proof.
  unfold peek. intros Hc Ho.
  destruct (field_conn s o f) as [r|] eqn:E; [|discriminate].
  rewrite (field_conn_weaken _ _ _ _ _ Ho E).
  destruct (conns s !! r) as [con|] eqn:E2; [|discriminate].
  rewrite (lookup_weaken _ _ _ _ E2 Hc). auto.
Qed.

(** The restriction of a heap. *)
Lemma restrict_sub (b : positive) (s : heap) : conns (restrict b s) ⊆ conns s.
Proof. apply map_filter_subseteq. Qed.

Lemma restrict_None (b : positive) (s : heap) (r : positive) :
  conns s !! r = None -> conns (restrict b s) !! r = None.
Proof.
  intros H. simpl. apply map_lookup_filter_None. left. assumption.
Qed.

Lemma wf_restrict (b : positive) (s : heap) : wf s -> wf (restrict b s).
Proof.
  intros [W1 W2]. split; simpl; [|assumption].
  intros r Hr. apply (restrict_None b s). auto.
Qed.

(** *** Soundness of the stage-by-stage check *)

Lemma local_stage (ev : bool) (d : nat) (F : ref) (x y : bool) :
  local (stage ev d F x y).
Proof. unfold stage. local_auto. Qed.

Lemma static_stage (ev : bool) (d : nat) (F : ref) (x y : bool) :
  static (stage ev d F x y).
Proof. unfold stage. static_auto. Qed.

Lemma In_bools (x : bool) : In x bools.
Proof. destruct x; simpl; auto. Qed.

Lemma stage_chain {A} (ev : bool) (d0 d : nat) (a b : pyseq) (F : ref)
  (i : nat) (x y : bool) (K : M A) (Q : A -> heap -> Prop) (h h1 : heap)
  (u : unit) (t : trace) :
  (d0 <= d)%nat -> bit a i = Ok x -> bit b i = Ok y ->
  stage ev d0 F x y h = Ok (u, h1, t) ->
  wp K Q h1 ->
  wp (let* _ := set_bit d F "A" a i in
      let* _ := set_bit d F "B" b i in
      after ev d F K) Q h.
Proof.
  intros Hd Ha Hb H HK. unfold stage, bind in H.
  destruct (set_at d0 F "A" (VBool x) h) as [[[u1 h2] t1]|] eqn:E1;
    [|discriminate].
  destruct (set_at d0 F "B" (VBool y) h2) as [[[u2 h3] t2]|] eqn:E2;
    [|discriminate].
  apply wp_bind. exists u1, h2, t1. split.
  { apply (below_bit d0 d _ _ _ _ _ Hd Ha). assumption. }
  apply wp_bind. exists u2, h3, t2. split.
  { apply (below_bit d0 d _ _ _ _ _ Hd Hb). assumption. }
  unfold after. destruct ev.
  - destruct (evaluate (set d0) F h3) as [[[u3 h4] t3]|] eqn:E3;
      [|discriminate].
    inversion H; subst. apply wp_bind. do 3 eexists. split; [|eassumption].
    apply (below_evaluate_set d0 d F Hd). eassumption.
  - inversion H; subst. assumption.
Qed.

Lemma frame_ok_refl (s h : heap) : wf h -> frame_ok s h h.
Proof. intros W. repeat split; auto; apply W. Qed.

Lemma out_ok_peek (s' t h1 h' : heap) (F : ref) (f : string) (v : pyval) :
  out_ok s' t F f v = true ->
  conns s' ⊆ conns h1 -> objs s' ⊆ objs h1 ->
  frame_ok t h1 h' ->
  peek h' F f = Some v.
Proof.
  unfold out_ok. intros H Hc Ho (F1 & _ & _ & _ & F5).
  destruct (field_conn s' F f) as [r|] eqn:E; [|discriminate].
  apply andb_true_iff in H as [H1 H2].
  destruct (conns s' !! r) as [con|] eqn:E1; [|discriminate].
  apply bool_decide_eq_true in H1.
  destruct (conns t !! r) eqn:E2; [discriminate|].
  unfold peek, field_conn. rewrite F1.
  pose proof (field_conn_weaken _ _ _ _ _ Ho E) as E'.
  unfold field_conn in E'. 
  destruct (objs h1 !! F) as [ob|]; [|discriminate].
  destruct (assoc f (lc_attrs ob)) as [[c|]|]; try discriminate.
  inversion E'; subst c.
  rewrite (F5 r E2). rewrite (lookup_weaken _ _ _ _ E1 Hc). congruence.
Qed.

Lemma dp_sound (ev : bool) (d0 d : nat) (a b : pyseq) :
  (d0 <= d)%nat ->
  forall Fs R Rs xs ys c s h,
    dp_check ev d0 Fs (R :: Rs) = true ->
    In s R -> wf s -> ext s h -> cin_is s Fs c = true ->
    bits_of a b (map snd Fs) xs ys ->
    forall A (k : M A) (Q : A -> heap -> Prop),
      (forall h', outputs_ok Fs xs ys c h' -> frame_ok s h h' -> wp k Q h') ->
      wp (stages ev d a b Fs k) Q h.
Proof.
  intros Hd Fs. induction Fs as [|[F i] Fs' IH];
    intros R Rs xs ys c s h Hdp Hin W E Hcin Hbits A k Q Hk.
  - simpl. apply Hk; [destruct xs, ys; exact I|].
    apply frame_ok_refl. apply E.
  - destruct xs as [|x xs']; [destruct ys; contradiction|].
    destruct ys as [|y ys']; [contradiction|].
    destruct Hbits as (Ha & Hb & Hbits).
    simpl in Hdp. destruct Rs as [|R' Rs']; [discriminate|].
    apply andb_true_iff in Hdp as [Hst Hdp].
    unfold stage_ok in Hst. rewrite forallb_forall in Hst.
    specialize (Hst s Hin).
    simpl in Hcin.
    destruct (peek s F "Cin") as [cv|] eqn:Ecin; [|discriminate].
    apply bool_decide_eq_true in Hcin.
    rewrite forallb_forall in Hst. specialize (Hst x (In_bools x)).
    rewrite forallb_forall in Hst. specialize (Hst y (In_bools y)).
    destruct (stage ev d0 F x y s) as [[[u s'] t0]|] eqn:Est; [|discriminate].
    rewrite Hcin in Hst.
    apply andb_true_iff in Hst as [Hst Hc'].
    apply andb_true_iff in Hst as [Hst Hmem].
    apply andb_true_iff in Hst as [HS HC].
    apply existsb_exists in Hmem as (t' & Hin' & Heq).
    apply bool_decide_eq_true in Heq. subst t'.
    set (tt' := restrict (bound_of s' Fs') s') in *.
    destruct (local_stage ev d0 F x y s _ _ _ W Est) as (W' & G & Fr).
    destruct (static_stage ev d0 F x y _ _ _ _ Est) as (So & Sc & Sn).
    pose proof (ext_ov _ _ _ W' G E) as E1.
    assert (Et : ext tt' (ov s' h)).
    { destruct E1 as (X1 & X2 & X3 & X4 & X5).
      repeat split; try assumption; try apply X5.
      etrans; [apply restrict_sub|assumption]. }
    simpl. eapply stage_chain; try eassumption.
    { apply Fr. assumption. }
    eapply (IH R' Rs' xs' ys' _ tt' (ov s' h) Hdp Hin'
              (wf_restrict _ _ W') Et Hc' Hbits).
    intros h' Hout Hfr. apply Hk.
    + simpl. split; [|split; [|assumption]].
      * eapply out_ok_peek; try eassumption; apply E1.
      * eapply out_ok_peek; try eassumption; apply E1.
    + destruct Hfr as (F1 & F2 & F3 & F4 & F5).
      destruct E as (X1 & X2 & X3 & X4 & X5).
      repeat split; try apply F4.
      * rewrite F1. simpl. rewrite So. apply map_subseteq_union. assumption.
      * rewrite F2. simpl. congruence.
      * rewrite F3. simpl. congruence.
      * intros r Hr.
        assert (Hs' : conns s' !! r = None).
        { destruct (Pos.ltb_spec r (next_conn s)) as [Hlt|Hge].
          - apply G; assumption.
          - apply W'. rewrite Sc. assumption. }
        rewrite F5 by (apply restrict_None; assumption).
        simpl. rewrite lookup_union_r by assumption. reflexivity.
Qed.

(** *** The two adders *)

Lemma explore_head (ev : bool) (d : nat) (Fs : list (ref * nat))
  (R : list heap) :
  exists Rs, explore ev d Fs R = R :: Rs.
Proof. destruct Fs as [|[F i] Fs']; simpl; eauto. Qed.

Lemma bits_of_length (a b : pyseq) (idx : list nat) (xs ys : list bool) :
  bits_of a b idx xs ys ->
  length xs = length idx /\ length ys = length idx.
Proof.
  revert xs ys. induction idx as [|i idx IH]; intros [|x xs] [|y ys] H;
    try contradiction; simpl; auto.
  destruct H as (_ & _ & H). destruct (IH _ _ H). auto.
Qed.

Ltac sim :=
  match goal with
  | H : wpb ?m ?K ?s = true, W : wf ?s, E : ext ?s ?h
    |- wp (bind ?m' ?k) ?Q ?h =>
      apply (sim_step m m' k K Q s h);
      [ auto with local_db | solve [ below_step ] | exact W | exact E
      | exact H | clear H W E; intros ? ? ? W E H ]
  end.

Lemma read_sums_ok (F0 F1 F2 F3 F4 F5 F6 F7 : ref)
  (x0 x1 x2 x3 x4 x5 x6 x7 y0 y1 y2 y3 y4 y5 y6 y7 : bool) (h : heap) :
  outputs_ok
    [(F0, 7); (F1, 6); (F2, 5); (F3, 4); (F4, 3); (F5, 2); (F6, 1); (F7, 0)]%nat
    [x0; x1; x2; x3; x4; x5; x6; x7] [y0; y1; y2; y3; y4; y5; y6; y7]
    false h ->
  wf h ->
  wp (read_sums F0 F1 F2 F3 F4 F5 F6 F7)
     (fun r h' => r = adder_result [x0; x1; x2; x3; x4; x5; x6; x7]
                                   [y0; y1; y2; y3; y4; y5; y6; y7]
                  /\ h' = h) h.
Proof.
  simpl. intros (S0 & C0 & S1 & C1 & S2 & C2 & S3 & C3 & S4 & C4 & S5 & C5
                 & S6 & C6 & S7 & C7 & _) W.
  unfold read_sums.
  repeat (eapply wp_value_at; [eassumption|]).
  apply wp_ret. split; reflexivity.
Qed.

Lemma chain_sound (ev : bool) (d0 d : nat) (a b : pyseq)
  (F0 F1 F2 F3 F4 F5 F6 F7 : ref) (xs ys : list bool) (s h : heap) :
  (d0 <= d)%nat ->
  chain_ok ev d0
    [(F0, 7); (F1, 6); (F2, 5); (F3, 4); (F4, 3); (F5, 2); (F6, 1); (F7, 0)]%nat
    s = true ->
  wf s -> ext s h -> bits_of a b idx8 xs ys ->
  wp (stages ev d a b
        [(F0, 7); (F1, 6); (F2, 5); (F3, 4); (F4, 3); (F5, 2); (F6, 1);
         (F7, 0)]%nat
        (read_sums F0 F1 F2 F3 F4 F5 F6 F7))
     (fun r h' => r = adder_result xs ys /\ wf h' /\
                  next_conn h' = next_conn h /\ next_obj h' = next_obj h) h.
Proof.
  intros Hd Hc W E Hb. unfold chain_ok in Hc.
  apply andb_true_iff in Hc as [Hcin Hdp].
  destruct (explore_head ev d0
    [(F0, 7); (F1, 6); (F2, 5); (F3, 4); (F4, 3); (F5, 2); (F6, 1); (F7, 0)]%nat
    [s]) as [Rs HRs].
  rewrite HRs in Hdp.
  eapply (dp_sound ev d0 d a b Hd _ [s] Rs xs ys false s h Hdp);
    try assumption; [left; reflexivity|].
  intros h' Hout (Z1 & Z2 & Z3 & Z4 & Z5).
  destruct (bits_of_length _ _ _ _ _ Hb) as [Lx Ly].
  destruct xs as [|x0 [|x1 [|x2 [|x3 [|x4 [|x5 [|x6 [|x7 [|? ?]]]]]]]]];
    try discriminate Lx.
  destruct ys as [|y0 [|y1 [|y2 [|y3 [|y4 [|y5 [|y6 [|y7 [|? ?]]]]]]]]];
    try discriminate Ly.
  eapply wp_weaken; [|apply read_sums_ok; eassumption].
  simpl. intros r h2 [-> ->]. auto.
Qed.

Lemma addcarry_sound (d0 d : nat) (base h : heap) (a b : pyseq)
  (xs ys : list bool) :
  addcarry_check d0 base = true ->
  wf base -> ext base h -> (d0 <= d)%nat -> bits_of a b idx8 xs ys ->
  wp (addcarry d a b) (fun r h' => r = adder_result xs ys /\ wf h') h.
Proof.
  intros H W E Hd Hb. unfold addcarry_check in H. unfold addcarry.
  do 16 sim.
  eapply wp_weaken; [|eapply (chain_sound false d0 d a b); eassumption].
  simpl. intros r h2 (-> & ? & _). auto.
Qed.

Lemma increment_sound (d0 d : nat) (base h : heap) (a b : pyseq)
  (xs ys : list bool) :
  increment_check d0 base = true ->
  wf base -> ext base h -> (d0 <= d)%nat -> bits_of a b idx8 xs ys ->
  wp (increment d a b) (fun r h' => r = adder_result xs ys /\ wf h') h.
Proof.
  intros H W E Hd Hb. unfold increment_check in H. unfold increment.
  do 16 sim.
  eapply wp_weaken; [|eapply (chain_sound true d0 d a b); eassumption].
  simpl. intros r h2 (-> & ? & _). auto.
Qed.

(** *** Bits and numbers *)

Lemma fa_value (x y c : bool) :
  Z.b2z (fa_sum x y c) + 2 * Z.b2z (fa_carry x y c)
  = Z.b2z x + Z.b2z y + Z.b2z c.
Proof. destruct x, y, c; reflexivity. Qed.

Lemma val_lsb_bounds (l : list bool) :
  0 <= val_lsb l < 2 ^ Z.of_nat (length l).
Proof.
  induction l as [|x l IH]; simpl; [lia|].
  rewrite Nat2Z.inj_succ, Z.pow_succ_r by lia.
  destruct x; simpl Z.b2z; lia.
Qed.

Lemma ripple_value (xs : list bool) :
  forall ys c ss co,
    length xs = length ys -> ripple c xs ys = (ss, co) ->
    length ss = length xs /\
    val_lsb ss + 2 ^ Z.of_nat (length xs) * Z.b2z co
    = val_lsb xs + val_lsb ys + Z.b2z c.
Proof.
  induction xs as [|x xs IH]; intros [|y ys] c ss co Hl H;
    try discriminate; simpl in *.
  - inversion H; subst. simpl. split; [reflexivity|]. lia.
  - destruct (ripple (fa_carry x y c) xs ys) as [ss' co'] eqn:E.
    inversion H; subst; clear H.
    destruct (IH ys _ _ _ (eq_add_S _ _ Hl) E) as [L V].
    split; [simpl; congruence|].
    simpl val_lsb. rewrite Nat2Z.inj_succ, Z.pow_succ_r by lia.
    pose proof (fa_value x y c). lia.
Qed.

Lemma testbit_val_lsb (l : list bool) (i : nat) :
  Z.testbit (val_lsb l) (Z.of_nat i) = nth i l false.
Proof.
  revert i. induction l as [|x l IH]; intros i; simpl.
  - rewrite Z.testbit_0_l. destruct i; reflexivity.
  - destruct i as [|i].
    + apply Z.testbit_0_r.
    + rewrite Nat2Z.inj_succ. rewrite Z.testbit_succ_r by lia. apply IH.
Qed.

Lemma to_bits8_val (l : list bool) :
  length l = 8%nat -> to_bits8 (val_lsb l) = rev l.
Proof.
  intros H.
  destruct l as [|s0 [|s1 [|s2 [|s3 [|s4 [|s5 [|s6 [|s7 [|? ?]]]]]]]]];
    try discriminate H.
  unfold to_bits8. cbn [map rev app].
  change 7 with (Z.of_nat 7). change 6 with (Z.of_nat 6).
  change 5 with (Z.of_nat 5). change 4 with (Z.of_nat 4).
  change 3 with (Z.of_nat 3). change 2 with (Z.of_nat 2).
  change 1 with (Z.of_nat 1). change 0 with (Z.of_nat 0).
  rewrite !testbit_val_lsb. reflexivity.
Qed.

(** The adders' result, as arithmetic on the operands' values. *)
Lemma adder_result_value (xs ys : list bool) :
  length xs = 8%nat -> length ys = 8%nat ->
  adder_result xs ys
  = VBool (256 <=? val_lsb xs + val_lsb ys)%Z
    :: map VBool (to_bits8 ((val_lsb xs + val_lsb ys) mod 256)).
Proof.
  intros Lx Ly. unfold adder_result.
  destruct (ripple false xs ys) as [ss co] eqn:E.
  destruct (ripple_value xs ys false ss co ltac:(congruence) E) as [L V].
  rewrite Lx in *. change (2 ^ Z.of_nat 8) with 256 in V.
  pose proof (val_lsb_bounds ss) as B. rewrite L in B.
  change (2 ^ Z.of_nat 8) with 256 in B. simpl Z.b2z in V.
  assert (Hm : (val_lsb xs + val_lsb ys) mod 256 = val_lsb ss).
  { symmetry. apply (Z.mod_unique _ _ (Z.b2z co)); [lia|].
    lia. }
  rewrite Hm, (to_bits8_val ss L). f_equal. f_equal.
  destruct co; simpl Z.b2z in V; symmetry.
  - apply Z.leb_le. lia.
  - apply Z.leb_gt. lia.
Qed.

Lemma bin_value_lsb (s : string) : bin_value s = val_lsb (lsb_bits s).
Proof.
  unfold bin_value, val_lsb, lsb_bits.
  rewrite fold_left_rev_right. reflexivity.
Qed.

Lemma val_lsb_negb (l : list bool) :
  val_lsb (map negb l) = 2 ^ Z.of_nat (length l) - 1 - val_lsb l.
Proof.
  induction l as [|x l IH]; simpl; [reflexivity|].
  rewrite IH, Nat2Z.inj_succ, Z.pow_succ_r by lia.
  destruct x; simpl Z.b2z; lia.
Qed.

(** *** Strings of eight characters *)

Lemma string8_inv (s : string) :
  String.length s = 8%nat ->
  exists c0 c1 c2 c3 c4 c5 c6 c7,
    s = String c0 (String c1 (String c2 (String c3 (String c4 (String c5
          (String c6 (String c7 EmptyString))))))).
Proof.
  intros H.
  destruct s as [|c0 [|c1 [|c2 [|c3 [|c4 [|c5 [|c6 [|c7 [|? ?]]]]]]]]];
    try discriminate H.
  repeat eexists.
Qed.

Lemma is_bitstring8_length (s : string) :
  is_bitstring8 s = true -> String.length s = 8%nat.
Proof.
  unfold is_bitstring8. intros H. apply andb_true_iff in H as [H _].
  apply Nat.eqb_eq. assumption.
Qed.

Lemma lsb_bits_length (s : string) :
  String.length s = 8%nat -> length (lsb_bits s) = 8%nat.
Proof.
  intros H. destruct (string8_inv s H) as (c0&c1&c2&c3&c4&c5&c6&c7&->).
  reflexivity.
Qed.

Lemma bits_at_string (s : string) :
  String.length s = 8%nat -> bits_at (SStr s) idx8 (lsb_bits s).
Proof.
  intros H. destruct (string8_inv s H) as (c0&c1&c2&c3&c4&c5&c6&c7&->).
  simpl. repeat split; reflexivity.
Qed.

Lemma bits_of_pair (a b : pyseq) (idx : list nat) (xs ys : list bool) :
  bits_at a idx xs -> bits_at b idx ys -> bits_of a b idx xs ys.
Proof.
  revert xs ys. induction idx as [|i idx IH]; intros [|x xs] [|y ys];
    simpl; try tauto.
  intros [Ha Ha'] [Hb Hb']. auto.
Qed.

Lemma bit_char_eqb (x : bool) : Ascii.eqb (bit_char x) "1"%char = x.
Proof. destruct x; reflexivity. Qed.

Lemma msb_bits_bit_string (l : list bool) : msb_bits (bit_string l) = l.
Proof.
  unfold msb_bits, bit_string. rewrite list_ascii_of_string_of_list_ascii.
  rewrite map_map. induction l as [|x l IH]; simpl; [reflexivity|].
  rewrite bit_char_eqb, IH. reflexivity.
Qed.

Lemma bit_string_length (l : list bool) :
  String.length (bit_string l) = length l.
Proof.
  unfold bit_string. induction l as [|x l IH]; simpl; congruence.
Qed.

(** A bit string is the string of its bits. *)
Lemma bit_string_msb_bits (s : string) :
  is_bitstring8 s = true -> bit_string (msb_bits s) = s.
Proof.
  unfold is_bitstring8, bit_string, msb_bits. intros H.
  apply andb_true_iff in H as [_ H].
  induction s as [|c s IH]; simpl in *; [reflexivity|].
  apply andb_true_iff in H as [Hc H]. rewrite (IH H). f_equal.
  apply orb_true_iff in Hc as [Hc|Hc]; apply Ascii.eqb_eq in Hc; subst;
    reflexivity.
Qed.

(** Results of whole programs. *)
Lemma wp_returns {A} (m : M A) (v : A) (Q : heap -> Prop) :
  wp m (fun r h => r = v /\ Q h) empty_heap -> returns m = Ok v.
Proof.
  intros (a & h & t & E & -> & _). unfold returns. rewrite E. reflexivity.
Qed.

Lemma returns_below {A} (m m' : M A) (v : A) :
  below m m' -> returns m = Ok v -> returns m' = Ok v.
Proof.
  intros Hb. unfold returns.
  destruct (m empty_heap) as [[[a h] t]|] eqn:E; [|discriminate].
  rewrite (Hb _ _ E). auto.
Qed.

Lemma run_below {A} (m m' : M A) (r : A * trace) :
  below m m' -> run m = Ok r -> run m' = Ok r.
Proof.
  intros Hb. unfold run.
  destruct (m empty_heap) as [[[a h] t]|] eqn:E; [|discriminate].
  rewrite (Hb _ _ E). auto.
Qed.

(** *** The bank of inverters *)

#[local] Hint Resolve below_bit : below_db.

Lemma holds_peek (s h : heap) (o : ref) (f : string) (v : pyval) :
  ext s h -> holds o f v s = true -> peek h o f = Some v.
Proof.
  intros (Hc & Ho & _) H. unfold holds in H.
  destruct (peek s o f) as [w|] eqn:E; [|discriminate].
  apply bool_decide_eq_true in H. subst w.
  eapply peek_weaken; eassumption.
Qed.

Lemma local_mkNot (nm : string) : local (mkNot nm).
Proof. unfold mkNot. auto with local_db. Qed.

Lemma inverters_sound {A} (mk : string -> M ref) (d0 d : nat)
  (nc no : positive) (base h : heap) (a : pyseq) (xs : list bool)
  (fin : list pyval -> M A) (Q : A -> heap -> Prop) :
  inverters_check mk d0 nc no base = true ->
  (forall n, local (mk n)) ->
  wf base -> ext base h -> (d0 <= d)%nat -> bits_at a idx8 xs ->
  (forall h', wf h' -> next_conn h' = nc -> next_obj h' = no ->
              wp (fin (map VBool (map negb (rev xs)))) Q h') ->
  wp (inverters mk d a fin) Q h.
Proof.
  intros H Hmk W E Hd Hb Hfin.
  destruct xs as [|x0 [|x1 [|x2 [|x3 [|x4 [|x5 [|x6 [|x7 [|? ?]]]]]]]]];
    try (simpl in Hb; tauto).
  simpl in Hb.
  destruct Hb as (B0 & B1 & B2 & B3 & B4 & B5 & B6 & B7 & _).
  unfold inverters_check in H. unfold inverters.
  do 8 sim.
  apply (allb_elim _ _ x0) in H; cbv beta in H. do 2 sim.
  apply (allb_elim _ _ x1) in H; cbv beta in H. do 2 sim.
  apply (allb_elim _ _ x2) in H; cbv beta in H. do 2 sim.
  apply (allb_elim _ _ x3) in H; cbv beta in H. do 2 sim.
  apply (allb_elim _ _ x4) in H; cbv beta in H. do 2 sim.
  apply (allb_elim _ _ x5) in H; cbv beta in H. do 2 sim.
  apply (allb_elim _ _ x6) in H; cbv beta in H. do 2 sim.
  apply (allb_elim _ _ x7) in H; cbv beta in H. do 2 sim.
  repeat (apply andb_true_iff in H as [H ?]).
  repeat match goal with
         | P : holds _ _ _ _ = true |- _ => apply (holds_peek _ _ _ _ _ E) in P
         | P : bool_decide _ = true |- _ => apply bool_decide_eq_true in P
         end.
  repeat (eapply wp_value_at; [eassumption|]).
  destruct E as (_ & _ & N1 & N2 & Wh).
  apply Hfin; [assumption|congruence|congruence].
Qed.

(** *** The results of the routines *)

Lemma addcarry_check_ok : addcarry_check adder_depth empty_heap = true.
Proof. vm_compute. reflexivity. Qed.

Lemma increment_check_ok : increment_check adder_depth empty_heap = true.
Proof. vm_compute. reflexivity. Qed.

Lemma increment_check_after_bank :
  increment_check adder_depth (blank 17 9) = true.
Proof. vm_compute. reflexivity. Qed.

Lemma inverters_check_Not :
  inverters_check mkNot inverter_depth 17 9 empty_heap = true.
Proof. vm_compute. reflexivity. Qed.

Lemma inverters_check_Not_after_bank :
  inverters_check mkNot inverter_depth 33 17 (blank 17 9) = true.
Proof. vm_compute. reflexivity. Qed.

Lemma inverters_check_Not_Not :
  inverters_check Not_Not inverter_depth 33 17 empty_heap = true.
Proof. vm_compute. reflexivity. Qed.

Lemma addcarry_returns (d : nat) (a b : string) :
  (adder_depth <= d)%nat ->
  String.length a = 8%nat -> String.length b = 8%nat ->
  returns (addcarry d (SStr a) (SStr b))
  = Ok (adder_result (lsb_bits a) (lsb_bits b)).
Proof.
  intros Hd La Lb. apply (wp_returns _ _ wf).
  apply (addcarry_sound adder_depth d empty_heap empty_heap);
    auto using addcarry_check_ok, wf_empty_heap, ext_refl,
      bits_of_pair, bits_at_string.
Qed.

Lemma increment_returns (d : nat) (a b : string) :
  (adder_depth <= d)%nat ->
  String.length a = 8%nat -> String.length b = 8%nat ->
  returns (increment d (SStr a) (SStr b))
  = Ok (adder_result (lsb_bits a) (lsb_bits b)).
Proof.
  intros Hd La Lb. apply (wp_returns _ _ wf).
  apply (increment_sound adder_depth d empty_heap empty_heap);
    auto using increment_check_ok, wf_empty_heap, ext_refl,
      bits_of_pair, bits_at_string.
Qed.

Lemma rev_lsb_bits (s : string) : rev (lsb_bits s) = msb_bits s.
Proof. unfold lsb_bits. apply rev_involutive. Qed.

(** [complementOne] from the empty heap: the negated bits, and a heap
    whose next addresses are 17 and 9. *)
Lemma complementOne_wp (d : nat) (a : string) :
  (inverter_depth <= d)%nat -> String.length a = 8%nat ->
  wp (complementOne d (SStr a))
     (fun r h => r = map VBool (map negb (msb_bits a)) /\
                 wf h /\ next_conn h = 17%positive /\ next_obj h = 9%positive)
     empty_heap.
Proof.
  intros Hd La.
  change (complementOne d (SStr a)) with (inverters mkNot d (SStr a) ret).
  eapply (inverters_sound mkNot inverter_depth d 17 9 empty_heap empty_heap);
    eauto using inverters_check_Not, local_mkNot, wf_empty_heap, ext_refl,
      bits_at_string.
  intros h' W N1 N2. apply wp_ret. rewrite rev_lsb_bits. auto.
Qed.

Lemma complementOne_returns (d : nat) (a : string) :
  (inverter_depth <= d)%nat -> String.length a = 8%nat ->
  returns (complementOne d (SStr a)) = Ok (map VBool (map negb (msb_bits a))).
Proof.
  intros Hd La.
  apply (wp_returns _ _
           (fun h => wf h /\ next_conn h = 17%positive /\
                     next_obj h = 9%positive)).
  apply complementOne_wp; assumption.
Qed.

Lemma append_empty (s : string) : (s ++ "")%string = s.
Proof.
  induction s as [|c s IH]; [reflexivity|].
  change (String c (s ++ "") = String c s). rewrite IH. reflexivity.
Qed.

Lemma append_char (s : string) (c : ascii) (r : string) :
  ((s ++ String c EmptyString) ++ r)%string = (s ++ String c r)%string.
Proof.
  induction s as [|c' s IH]; [reflexivity|].
  change (String c' ((s ++ String c EmptyString) ++ r)
          = String c' (s ++ String c r)).
  rewrite IH. reflexivity.
Qed.

(** [toString] of a list of booleans. *)
Lemma toString_bools_acc (l : list bool) (acc : string) :
  fold_left (fun s bit =>
               match s with
               | Raise e => Raise e
               | Ok s => match py_int bit with
                         | Raise e => Raise e
                         | Ok n => Ok (s ++ py_str n)
                         end
               end) (map VBool l) (Ok acc)
  = Ok (acc ++ bit_string l).
Proof.
  revert acc. induction l as [|x l IH]; intros acc; simpl.
  - unfold bit_string. simpl. rewrite append_empty. reflexivity.
  - rewrite IH. f_equal.
    replace (py_str (num_of_bool x)) with (String (bit_char x) EmptyString)
      by (destruct x; reflexivity).
    unfold bit_string. simpl. apply append_char.
Qed.

Lemma toString_bools (l : list bool) :
  toString (map VBool l) = Ok (bit_string l).
Proof. unfold toString. apply (toString_bools_acc l ""). Qed.

Lemma reencode_bools (l : list bool) : reencode (map VBool l) = bit_string l.
Proof.
  unfold reencode, bit_string.
  induction l as [|x l IH]; simpl; [reflexivity|].
  destruct l as [|y l].
  - destruct x; reflexivity.
  - simpl in *. rewrite IH. destruct x; reflexivity.
Qed.

Lemma PassTrough_returns (d : nat) (a : string) :
  (inverter_depth <= d)%nat -> String.length a = 8%nat ->
  returns (PassTrough d (SStr a)) = Ok (bit_string (map negb (msb_bits a))).
Proof.
  intros Hd La. apply (wp_returns _ _ wf).
  change (PassTrough d (SStr a))
    with (inverters Not_Not d (SStr a) (fun l => lift (toString l))).
  eapply (inverters_sound Not_Not inverter_depth d 33 17
            empty_heap empty_heap);
    eauto using inverters_check_Not_Not, wf_empty_heap, ext_refl,
      bits_at_string with local_db.
  intros h' W N1 N2. rewrite rev_lsb_bits, toString_bools.
  exists (bit_string (map negb (msb_bits a))), h', []. auto.
Qed.

Lemma ext_blank_at (h : heap) (nc no : positive) :
  wf h -> next_conn h = nc -> next_obj h = no -> ext (blank nc no) h.
Proof. intros W <- <-. apply ext_blank. assumption. Qed.

Lemma msb_bits_length (s : string) :
  length (msb_bits s) = String.length s.
Proof.
  unfold msb_bits. rewrite length_map.
  induction s; simpl; congruence.
Qed.

Lemma negateNumber_returns (d : nat) (a : string) :
  (adder_depth <= d)%nat -> String.length a = 8%nat ->
  returns (negateNumber d (SStr a))
  = Ok (adder_result (map negb (lsb_bits a)) (lsb_bits "00000001")).
Proof.
  intros Hd La. apply (wp_returns _ _ wf).
  unfold negateNumber. apply wp_bind.
  eapply wp_weaken;
    [|apply complementOne_wp;
      [unfold inverter_depth, adder_depth in *; lia|assumption]].
  simpl. intros r h (-> & W & N1 & N2).
  fold (reencode (map VBool (map negb (msb_bits a)))).
  rewrite reencode_bools.
  assert (L : String.length (bit_string (map negb (msb_bits a))) = 8%nat).
  { rewrite bit_string_length, length_map, msb_bits_length. assumption. }
  replace (map negb (lsb_bits a))
    with (lsb_bits (bit_string (map negb (msb_bits a)))).
  2:{ unfold lsb_bits. rewrite msb_bits_bit_string, map_rev. reflexivity. }
  apply (increment_sound adder_depth d (blank 17 9) h);
    auto using increment_check_after_bank, wf_blank, ext_blank_at,
      bits_of_pair, bits_at_string.
Qed.

(** ** The connector's change guard *)

(** Setting a connector to a value equal ([==]) to the one it holds
    returns at once: the heap is the same and nothing is emitted. *)
Lemma set_same (d : nat) (h : heap) (c : ref) (con : Connector) (v : pyval) :
  conns h !! c = Some con -> py_eq (value con) v = true ->
  set (S d) c v h = Ok (tt, h, []).
Proof.
  intros L E. simpl. unfold bind, get_conn. rewrite L, E. reflexivity.
Qed.

Lemma inverter_heap_A :
  conns inverter_heap !! 1%positive
  = Some (mkConnector (VBool true) 1 "A" 0 [] 1).
Proof. vm_compute. reflexivity. Qed.

(** C7: for every connector and every value [v], [set(v)] on a connector
    whose stored value already equals [v] is a complete no-op: no call of
    the owner's [evaluate], no monitor line, nothing propagated (the trace
    is empty) and the heap, hence the stored value, is unchanged. *)
Theorem set_equal_is_noop (d : nat) (h : heap) (c : ref) (con : Connector)
  (v : pyval) :
  conns h !! c = Some con -> py_eq (value con) v = true ->
  set (S d) c v h = Ok (tt, h, []) /\
  conns h !! c = Some con.
Proof. intros L E. split; [apply (set_same d h c con v L E)|exact L]. Qed.

Lemma set_equal_is_noop_witness :
  set 1 1%positive (VBool true) inverter_heap = Ok (tt, inverter_heap, []) /\
  conns inverter_heap !! 1%positive
  = Some (mkConnector (VBool true) 1 "A" 0 [] 1).
Proof.
  apply (set_equal_is_noop 0 inverter_heap 1%positive
           (mkConnector (VBool true) 1 "A" 0 [] 1) (VBool true)).
  - vm_compute. reflexivity.
  - reflexivity.
Defined.

(** C9: the guard compares with [==], so [False] and [0] (and [True] and
    [1]) are the same stored value: setting a connector that holds the
    boolean to the integer, or one that holds the integer to the boolean,
    returns at once with no event, and the stored value keeps its
    representation. *)
Theorem set_int_bool_is_noop (d : nat) (h : heap) (c : ref)
  (con : Connector) (b : bool) (v : pyval) :
  conns h !! c = Some con ->
  (value con = VBool b /\ v = VInt (num_of_bool b)) \/
  (value con = VInt (num_of_bool b) /\ v = VBool b) ->
  set (S d) c v h = Ok (tt, h, []) /\
  (value <$> conns h !! c) = Some (value con).
Proof.
  intros L E. split; [|rewrite L; reflexivity].
  apply (set_same d h c con _ L).
  destruct E as [[-> ->]|[-> ->]]; destruct b; reflexivity.
Qed.

Lemma set_int_bool_is_noop_witness :
  set 1 1%positive (VInt 1) inverter_heap = Ok (tt, inverter_heap, []) /\
  (value <$> conns inverter_heap !! 1%positive) = Some (VBool true).
Proof.
  apply (set_int_bool_is_noop 0 inverter_heap 1%positive
           (mkConnector (VBool true) 1 "A" 0 [] 1) true (VInt 1)).
  - vm_compute. reflexivity.
  - left. split; reflexivity.
Defined.

(** ** Gates *)

Lemma below_drive2 (mk : pyname -> M ref) (d d' : nat) (a b : pyval) :
  (d <= d')%nat -> below (drive2 mk d a b) (drive2 mk d' a b).
Proof. intros H. unfold drive2. below_auto. Qed.

Lemma below_drive2_rev (mk : pyname -> M ref) (d d' : nat) (a b : pyval) :
  (d <= d')%nat -> below (drive2_rev mk d a b) (drive2_rev mk d' a b).
Proof. intros H. unfold drive2_rev. below_auto. Qed.

Lemma below_drive1 (d d' : nat) (a : pyval) :
  (d <= d')%nat -> below (drive1 d a) (drive1 d' a).
Proof. intros H. unfold drive1. below_auto. Qed.

Lemma below_drive_only (mk : pyname -> M ref) (d d' : nat) (f : string)
  (v : pyval) :
  (d <= d')%nat -> below (drive_only mk d f v) (drive_only mk d' f v).
Proof. intros H. unfold drive_only. below_auto. Qed.

Lemma truthy_cases (v : pyval) :
  truthy v = true ->
  v = VBool true \/ (exists p, v = VInt (Z.pos p)) \/
  (exists p, v = VInt (Z.neg p)).
Proof.
  destruct v as [|[|]|[|p|p]]; simpl; try discriminate; eauto.
Qed.

(** C6: for all boolean inputs, once both inputs of a fresh gate have
    been set (in either order) its output shows the truth table: [And]
    gives [A and B], [Or] gives [A or B], [Not] gives [not A], and [Xor],
    which owns 2 inverters, 2 And gates and 1 Or gate, gives
    [(A and not B) or (not A and B)], that is [A xor B]. *)
Theorem gates_truth_tables (d : nat) (a b : bool) :
  returns (drive2 And (gate_depth + d) (VBool a) (VBool b))
    = Ok (VBool (a && b)) /\
  returns (drive2_rev And (gate_depth + d) (VBool a) (VBool b))
    = Ok (VBool (a && b)) /\
  returns (drive2 Or (gate_depth + d) (VBool a) (VBool b))
    = Ok (VBool (a || b)) /\
  returns (drive2_rev Or (gate_depth + d) (VBool a) (VBool b))
    = Ok (VBool (a || b)) /\
  returns (drive1 (gate_depth + d) (VBool a)) = Ok (VBool (negb a)) /\
  returns (drive2 Xor (gate_depth + d) (VBool a) (VBool b))
    = Ok (VBool ((a && negb b) || (negb a && b))) /\
  returns (drive2_rev Xor (gate_depth + d) (VBool a) (VBool b))
    = Ok (VBool ((a && negb b) || (negb a && b))) /\
  (a && negb b) || (negb a && b) = xorb a b /\
  count_built CNot (Xor (NameStr "G")) = Ok 2%nat /\
  count_built CAnd (Xor (NameStr "G")) = Ok 2%nat /\
  count_built COr (Xor (NameStr "G")) = Ok 1%nat.
Proof.
  assert (Hd : (gate_depth <= gate_depth + d)%nat) by lia.
  repeat split;
    try (eapply returns_below;
         [first [ apply below_drive2 | apply below_drive2_rev
                | apply below_drive1 ]; exact Hd
         | destruct a, b; vm_compute; reflexivity ]);
    try (destruct a, b; reflexivity);
    try (vm_compute; reflexivity).
Qed.

(** C10: gate evaluation is not guarded on both inputs being set.  On a
    fresh And gate, setting one input to a truthy value while the other is
    still [None] calls [evaluate], which computes [A and B] with Python's
    short-circuit rule and leaves [None] on the output; setting an input to
    the integer [0] puts that raw [0] on the output.  On a fresh Or gate
    [A or B] likewise yields [None] for a falsy [A] and an unset [B], and
    the raw [0] for an unset [A] and [B = 0]. *)
Theorem gate_evaluation_unguarded (d : nat) (v : pyval) :
  truthy v = true ->
  py_and v VNone = VNone /\ py_and VNone v = VNone /\
  run (drive_only And (2 + d) "A" v) = Ok (VNone, [Evaluated 1%positive]) /\
  run (drive_only And (2 + d) "B" v) = Ok (VNone, [Evaluated 1%positive]) /\
  run (drive_only And (2 + d) "A" (VInt 0))
    = Ok (VInt 0, [Evaluated 1%positive]) /\
  run (drive_only Or (2 + d) "A" (VInt 0))
    = Ok (VNone, [Evaluated 1%positive]) /\
  run (drive_only Or (2 + d) "B" (VInt 0))
    = Ok (VInt 0, [Evaluated 1%positive]).
Proof.
  intros H. assert (Hd : (2 <= 2 + d)%nat) by lia.
  split; [unfold py_and; rewrite H; reflexivity|].
  split; [reflexivity|].
  repeat split;
    (eapply run_below; [apply below_drive_only; exact Hd|]);
    try (vm_compute; reflexivity);
    destruct (truthy_cases v H) as [->|[[p ->]|[p ->]]];
    vm_compute; reflexivity.
Qed.

Lemma gate_evaluation_unguarded_witness :
  py_and (VBool true) VNone = VNone /\ py_and VNone (VBool true) = VNone /\
  run (drive_only And 2 "A" (VBool true))
    = Ok (VNone, [Evaluated 1%positive]) /\
  run (drive_only And 2 "B" (VBool true))
    = Ok (VNone, [Evaluated 1%positive]) /\
  run (drive_only And 2 "A" (VInt 0))
    = Ok (VInt 0, [Evaluated 1%positive]) /\
  run (drive_only Or 2 "A" (VInt 0))
    = Ok (VNone, [Evaluated 1%positive]) /\
  run (drive_only Or 2 "B" (VInt 0))
    = Ok (VInt 0, [Evaluated 1%positive]).
Proof. apply (gate_evaluation_unguarded 0 (VBool true)). reflexivity. Defined.

(** ** The 8-bit routines *)

Lemma below_addcarry (d d' : nat) (a b : pyseq) :
  (d <= d')%nat -> below (addcarry d a b) (addcarry d' a b).
Proof. intros H. unfold addcarry. below_auto. Qed.

Lemma below_increment (d d' : nat) (a b : pyseq) :
  (d <= d')%nat -> below (increment d a b) (increment d' a b).
Proof. intros H. unfold increment. below_auto. Qed.

Lemma below_complementOne (d d' : nat) (a : pyseq) :
  (d <= d')%nat -> below (complementOne d a) (complementOne d' a).
Proof. intros H. unfold complementOne. below_auto. Qed.

#[local] Hint Resolve below_addcarry below_increment below_complementOne
  : below_db.

Lemma below_negateNumber (d d' : nat) (a : pyseq) :
  (d <= d')%nat -> below (negateNumber d a) (negateNumber d' a).
Proof. intros H. unfold negateNumber. below_auto. Qed.

#[local] Hint Resolve below_negateNumber : below_db.

Lemma below_Substraction (d d' : nat) (a b : pyseq) :
  (d <= d')%nat -> below (Substraction d a b) (Substraction d' a b).
Proof. intros H. unfold Substraction. below_auto. Qed.

Lemma below_complementOne_twice (d d' : nat) (x : string) :
  (d <= d')%nat -> below (complementOne_twice d x) (complementOne_twice d' x).
Proof. intros H. unfold complementOne_twice. below_auto. Qed.

Lemma printed_below {A} (m m' : M A) (r : A * list string) :
  below m m' -> printed m = Ok r -> printed m' = Ok r.
Proof.
  intros Hb. unfold printed.
  destruct (m empty_heap) as [[[a h] t]|] eqn:E; [|discriminate].
  rewrite (Hb _ _ E). auto.
Qed.

Lemma adder_result_strings (a b : string) :
  String.length a = 8%nat -> String.length b = 8%nat ->
  adder_result (lsb_bits a) (lsb_bits b)
  = VBool (256 <=? bin_value a + bin_value b)%Z
    :: map VBool (to_bits8 ((bin_value a + bin_value b) mod 256)).
Proof.
  intros La Lb. rewrite !bin_value_lsb.
  apply adder_result_value; apply lsb_bits_length; assumption.
Qed.

Lemma bin_value_bounds (a : string) :
  String.length a = 8%nat -> 0 <= bin_value a < 256.
Proof.
  intros La. rewrite bin_value_lsb.
  pose proof (val_lsb_bounds (lsb_bits a)) as B.
  rewrite (lsb_bits_length a La) in B. exact B.
Qed.

Lemma negate_result_value (a : string) :
  String.length a = 8%nat ->
  adder_result (map negb (lsb_bits a)) (lsb_bits "00000001")
  = VBool (bin_value a =? 0)%Z
    :: map VBool (to_bits8 ((256 - bin_value a) mod 256)).
Proof.
  intros La. pose proof (bin_value_bounds a La) as B.
  rewrite adder_result_value;
    [|rewrite length_map; apply lsb_bits_length; assumption|reflexivity].
  rewrite val_lsb_negb, (lsb_bits_length a La), <- bin_value_lsb.
  change (val_lsb (lsb_bits "00000001")) with 1.
  change (2 ^ Z.of_nat 8) with 256.
  replace (256 - 1 - bin_value a + 1) with (256 - bin_value a) by lia.
  f_equal. f_equal.
  destruct (Z.eqb_spec (bin_value a) 0) as [E|E].
  - apply Z.leb_le. lia.
  - apply Z.leb_gt. lia.
Qed.

(** C1: for all 8-character bit strings [a] and [b], [addcarry(a, b)]
    returns 9 values: the last stage's carry-out, which tells whether the
    binary sum overflows 8 bits, then the 8 bits of the sum modulo 256, most
    significant first.  In particular 1 + 1 gives carry [False] and the
    bits 00000010, and 255 + 1 gives carry [True] and the bits 00000000. *)
Theorem addcarry_binary_sum (d : nat) (a b : string) :
  (adder_depth <= d)%nat ->
  is_bitstring8 a = true -> is_bitstring8 b = true ->
  returns (addcarry d (SStr a) (SStr b))
  = Ok (VBool (256 <=? bin_value a + bin_value b)%Z
        :: map VBool (to_bits8 ((bin_value a + bin_value b) mod 256))) /\
  returns (addcarry d (SStr "00000001") (SStr "00000001"))
  = Ok (VBool false :: map VBool (msb_bits "00000010")) /\
  returns (addcarry d (SStr "11111111") (SStr "00000001"))
  = Ok (VBool true :: map VBool (msb_bits "00000000")).
Proof.
  intros Hd Ha Hb.
  apply is_bitstring8_length in Ha. apply is_bitstring8_length in Hb.
  repeat split.
  - rewrite addcarry_returns by assumption.
    rewrite adder_result_strings by assumption. reflexivity.
  - rewrite addcarry_returns by (assumption || reflexivity). reflexivity.
  - rewrite addcarry_returns by (assumption || reflexivity). reflexivity.
Qed.

Lemma addcarry_binary_sum_witness :
  returns (addcarry 28 (SStr "10010101") (SStr "11000110"))
  = Ok (VBool (256 <=? bin_value "10010101" + bin_value "11000110")%Z
        :: map VBool
             (to_bits8 ((bin_value "10010101" + bin_value "11000110")
                        mod 256))) /\
  returns (addcarry 28 (SStr "00000001") (SStr "00000001"))
  = Ok (VBool false :: map VBool (msb_bits "00000010")) /\
  returns (addcarry 28 (SStr "11111111") (SStr "00000001"))
  = Ok (VBool true :: map VBool (msb_bits "00000000")).
Proof.
  apply (addcarry_binary_sum 28 "10010101" "11000110").
  - unfold adder_depth. lia.
  - reflexivity.
  - reflexivity.
Defined.

(** C8: for all 8-character bit strings [a] and [b], [increment(a, b)]
    returns the same 9 values as [addcarry(a, b)]: the And gate passed as
    each stage's name and the calls of [evaluate()] after each stage change
    nothing in the result. *)
Theorem increment_equals_addcarry (d : nat) (a b : string) :
  (adder_depth <= d)%nat ->
  is_bitstring8 a = true -> is_bitstring8 b = true ->
  exists r, length r = 9%nat /\
    returns (increment d (SStr a) (SStr b)) = Ok r /\
    returns (addcarry d (SStr a) (SStr b)) = Ok r.
Proof.
  intros Hd Ha Hb.
  apply is_bitstring8_length in Ha. apply is_bitstring8_length in Hb.
  exists (adder_result (lsb_bits a) (lsb_bits b)). split; [|split].
  - rewrite adder_result_strings by assumption. reflexivity.
  - apply increment_returns; assumption.
  - apply addcarry_returns; assumption.
Qed.

Lemma increment_equals_addcarry_witness :
  exists r, length r = 9%nat /\
    returns (increment 28 (SStr "10010101") (SStr "00000001")) = Ok r /\
    returns (addcarry 28 (SStr "10010101") (SStr "00000001")) = Ok r.
Proof.
  apply (increment_equals_addcarry 28 "10010101" "00000001").
  - unfold adder_depth. lia.
  - reflexivity.
  - reflexivity.
Defined.

(** C3: for every 8-character bit string [a], [negateNumber(a)] takes
    [complementOne(a)], re-encodes it as a bit string, adds ["00000001"] to
    it with the ripple-carry adder (carry-in 0) and returns the adder's 9
    values; the 8 bits after the carry are the two's complement of [a],
    the number (256 - value(a)) mod 256. *)
Theorem negateNumber_twos_complement (d : nat) (a : string) :
  (adder_depth <= d)%nat -> is_bitstring8 a = true ->
  exists c,
    returns (complementOne d (SStr a)) = Ok c /\
    is_bitstring8 (reencode c) = true /\
    bin_value (reencode c) = 255 - bin_value a /\
    returns (negateNumber d (SStr a))
    = Ok (adder_result (lsb_bits (reencode c)) (lsb_bits "00000001")) /\
    returns (negateNumber d (SStr a))
    = Ok (VBool (bin_value a =? 0)%Z
          :: map VBool (to_bits8 ((256 - bin_value a) mod 256))).
Proof.
  intros Hd Ha. apply is_bitstring8_length in Ha.
  assert (Hd' : (inverter_depth <= d)%nat)
    by (unfold inverter_depth, adder_depth in *; lia).
  exists (map VBool (map negb (msb_bits a))).
  rewrite reencode_bools.
  assert (E : lsb_bits (bit_string (map negb (msb_bits a)))
              = map negb (lsb_bits a)).
  { unfold lsb_bits. rewrite msb_bits_bit_string, map_rev. reflexivity. }
  repeat split.
  - apply complementOne_returns; assumption.
  - destruct (string8_inv a Ha) as (c0&c1&c2&c3&c4&c5&c6&c7&->).
    unfold is_bitstring8, bit_string, msb_bits. simpl.
    destruct (Ascii.eqb c0 "1"), (Ascii.eqb c1 "1"), (Ascii.eqb c2 "1"),
      (Ascii.eqb c3 "1"), (Ascii.eqb c4 "1"), (Ascii.eqb c5 "1"),
      (Ascii.eqb c6 "1"), (Ascii.eqb c7 "1"); reflexivity.
  - rewrite bin_value_lsb, E, val_lsb_negb, (lsb_bits_length a Ha),
      <- bin_value_lsb.
    change (2 ^ Z.of_nat 8) with 256. lia.
  - rewrite E. apply negateNumber_returns; assumption.
  - rewrite negateNumber_returns by assumption.
    rewrite negate_result_value by assumption. reflexivity.
Qed.

Lemma negateNumber_twos_complement_witness :
  exists c,
    returns (complementOne 28 (SStr "11000110")) = Ok c /\
    is_bitstring8 (reencode c) = true /\
    bin_value (reencode c) = 255 - bin_value "11000110" /\
    returns (negateNumber 28 (SStr "11000110"))
    = Ok (adder_result (lsb_bits (reencode c)) (lsb_bits "00000001")) /\
    returns (negateNumber 28 (SStr "11000110"))
    = Ok (VBool (bin_value "11000110" =? 0)%Z
          :: map VBool (to_bits8 ((256 - bin_value "11000110") mod 256))).
Proof.
  apply (negateNumber_twos_complement 28 "11000110").
  - unfold adder_depth. lia.
  - reflexivity.
Defined.

(** The literal double application at x = "00000000": the second
    [complementOne] receives a list, in which no element equals ['1'], so
    every bit reads as [False] and every output is [True]; the result
    encodes "11111111", not x. *)
Lemma complementOne_twice_not_identity :
  returns (complementOne_twice inverter_depth "00000000")
  = Ok (map VBool (msb_bits "11111111")) /\
  returns (complementOne_twice inverter_depth "00000000")
  <> Ok (map VBool (msb_bits "00000000")).
Proof. split; [vm_compute; reflexivity|vm_compute; discriminate]. Qed.

Lemma map_negb_negb (l : list bool) : map negb (map negb l) = l.
Proof.
  induction l as [|b l IH]; simpl; [reflexivity|].
  rewrite negb_involutive, IH. reflexivity.
Qed.

(** C5 (amended): for every 8-character bit string [x], [complementOne(x)]
    returns the 8 inverted bits of [x] as booleans, most significant first;
    re-encoding that list as a bit string (as [negateNumber] does) and
    applying [complementOne] again returns the bits of [x], whose string
    is [x]. *)
Theorem complementOne_involution_reencoded (d : nat) (x : string) :
  (inverter_depth <= d)%nat -> is_bitstring8 x = true ->
  returns (complementOne d (SStr x)) = Ok (map VBool (map negb (msb_bits x))) /\
  returns (complementOne_reencoded d x) = Ok (map VBool (msb_bits x)) /\
  toString (map VBool (msb_bits x)) = Ok x.
Proof.
  intros Hd Hx. pose proof (is_bitstring8_length x Hx) as Lx.
  split; [apply complementOne_returns; assumption|]. split.
  - apply (wp_returns _ _ wf). unfold complementOne_reencoded.
    apply wp_bind.
    eapply wp_weaken; [|apply complementOne_wp; assumption].
    simpl. intros r h (-> & W & N1 & N2).
    rewrite reencode_bools.
    change (complementOne d (SStr (bit_string (map negb (msb_bits x)))))
      with (inverters mkNot d
              (SStr (bit_string (map negb (msb_bits x)))) ret).
    eapply (inverters_sound mkNot inverter_depth d 33 17 (blank 17 9) h);
      eauto using inverters_check_Not_after_bank, local_mkNot, wf_blank,
        ext_blank_at.
    + apply bits_at_string.
      rewrite bit_string_length, length_map, msb_bits_length. assumption.
    + intros h' W' _ _. apply wp_ret. split; [|assumption].
      rewrite rev_lsb_bits, msb_bits_bit_string, map_negb_negb.
      reflexivity.
  - rewrite toString_bools. f_equal. apply bit_string_msb_bits. assumption.
Qed.

Lemma complementOne_involution_reencoded_witness :
  returns (complementOne 2 (SStr "11000110"))
  = Ok (map VBool (map negb (msb_bits "11000110"))) /\
  returns (complementOne_reencoded 2 "11000110")
  = Ok (map VBool (msb_bits "11000110")) /\
  toString (map VBool (msb_bits "11000110")) = Ok "11000110".
Proof.
  apply (complementOne_involution_reencoded 2 "11000110").
  - unfold inverter_depth. lia.
  - reflexivity.
Defined.

(** C4: [PassTrough("11000110")] returns "00111001": the inner [Not] of
    [Not(Not("F0"))] is only the outer inverter's name, so each bit goes
    through one inverter and comes out inverted. *)
Theorem PassTrough_inverts (d : nat) :
  returns (PassTrough (inverter_depth + d) (SStr "11000110")) = Ok "00111001".
Proof.
  rewrite PassTrough_returns; [reflexivity|lia|reflexivity].
Qed.

(** C2: [Substraction("10010101", "11000110")] (149 - 198) returns [None]
    and prints "010110010": the 9 values of [negateNumber(b)] are turned
    into a 9-character string whose first 8 characters (the carry and the
    7 high bits of -b) are added to [a], giving 149 + 29 = 178, while the
    difference modulo 256 is 207 ("11001111"); adding [b] back to 178 gives
    120, not 149. *)
Theorem Substraction_failing_input (d : nat) :
  printed (Substraction (adder_depth + d) (SStr "10010101") (SStr "11000110"))
  = Ok (VNone, ["010110010"]) /\
  bin_value "10110010" = 178 /\
  (bin_value "10110010" + bin_value "11000110") mod 256 = 120 /\
  bin_value "10010101" = 149.
Proof.
  split; [|repeat split].
  eapply printed_below.
  - apply below_Substraction. apply Nat.le_add_r.
  - vm_compute. reflexivity.
Qed.

(** ** Further properties of the routines *)

Lemma ripple_result (xs ys : list bool) :
  exists ss co, ripple false xs ys = (ss, co) /\
    adder_result xs ys = VBool co :: map VBool (rev ss).
Proof.
  unfold adder_result. destruct (ripple false xs ys) as [ss co]. eauto.
Qed.

Lemma val_lsb_bit_string (l : list bool) :
  bin_value (bit_string l) = val_lsb (rev l).
Proof.
  rewrite bin_value_lsb. unfold lsb_bits. rewrite msb_bits_bit_string.
  reflexivity.
Qed.

Lemma is_bitstring8_bit_string (l : list bool) :
  length l = 8%nat -> is_bitstring8 (bit_string l) = true.
Proof.
  intros H.
  destruct l as [|s0 [|s1 [|s2 [|s3 [|s4 [|s5 [|s6 [|s7 [|? ?]]]]]]]]];
    try discriminate H.
  destruct s0, s1, s2, s3, s4, s5, s6, s7; reflexivity.
Qed.

Lemma to_bits8_bin_value (x : string) :
  String.length x = 8%nat -> to_bits8 (bin_value x) = msb_bits x.
Proof.
  intros L. rewrite bin_value_lsb, to_bits8_val by (apply lsb_bits_length; assumption).
  apply rev_lsb_bits.
Qed.

Lemma to_bits8_length (n : Z) : length (to_bits8 n) = 8%nat.
Proof. reflexivity. Qed.

(** The value of the 8 low bits of a number. *)
Lemma val_to_bits8 (n : Z) :
  0 <= n < 256 -> val_lsb (rev (to_bits8 n)) = n.
Proof.
  intros H. apply Z.bits_inj'. intros i Hi.
  destruct (Z_lt_le_dec i 8) as [Hlt|Hge].
  - rewrite <- (Z2Nat.id i) by assumption. rewrite testbit_val_lsb.
    assert (Hn : (Z.to_nat i < 8)%nat) by lia.
    destruct (Z.to_nat i) as [|[|[|[|[|[|[|[|k]]]]]]]] eqn:E;
      try reflexivity; lia.
  - rewrite (Z.bits_above_log2 n i); [|lia|].
    + pose proof (val_lsb_bounds (rev (to_bits8 n))) as B.
      rewrite length_rev, to_bits8_length in B.
      change (2 ^ Z.of_nat 8) with 256 in B.
      destruct (Z.eq_dec (val_lsb (rev (to_bits8 n))) 0) as [E0|E0].
      * rewrite E0. apply Z.testbit_0_l.
      * apply Z.bits_above_log2; [lia|].
        apply Z.log2_lt_pow2; [lia|].
        apply Z.lt_le_trans with (2 ^ 8); [exact (proj2 B)|].
        apply Z.pow_le_mono_r; lia.
    + destruct (Z.eq_dec n 0) as [E0|E0]; [subst; simpl; lia|].
      apply Z.log2_lt_pow2; [lia|].
      apply Z.lt_le_trans with (2 ^ 8); [exact (proj2 H)|].
      apply Z.pow_le_mono_r; lia.
Qed.

Lemma sum_bits_adder (xs ys : list bool) :
  length xs = 8%nat -> length ys = 8%nat ->
  sum_bits (adder_result xs ys)
  = map VBool (to_bits8 ((val_lsb xs + val_lsb ys) mod 256)).
Proof. intros Lx Ly. rewrite adder_result_value by assumption. reflexivity. Qed.

Lemma reencode_to_bits8 (n : Z) :
  0 <= n < 256 ->
  is_bitstring8 (reencode (map VBool (to_bits8 n))) = true /\
  String.length (reencode (map VBool (to_bits8 n))) = 8%nat /\
  bin_value (reencode (map VBool (to_bits8 n))) = n.
Proof.
  intros H. rewrite reencode_bools. split; [|split].
  - apply is_bitstring8_bit_string. reflexivity.
  - rewrite bit_string_length. reflexivity.
  - rewrite val_lsb_bit_string. apply val_to_bits8. assumption.
Qed.

(** X1: negating twice gives the number back.  For every 8-character bit
    string [x], the 8 bits after the carry of [negateNumber(x)], re-encoded
    as a bit string and negated again, are the bits of [x]. *)
Theorem negateNumber_twice (d : nat) (x : string) :
  (adder_depth <= d)%nat -> is_bitstring8 x = true ->
  exists r r',
    returns (negateNumber d (SStr x)) = Ok r /\
    is_bitstring8 (reencode (sum_bits r)) = true /\
    returns (negateNumber d (SStr (reencode (sum_bits r)))) = Ok r' /\
    sum_bits r' = map VBool (msb_bits x) /\
    reencode (sum_bits r') = x.
Proof.
  intros Hd Hx. pose proof (is_bitstring8_length x Hx) as Lx.
  pose proof (bin_value_bounds x Lx) as Bx.
  set (n := (256 - bin_value x) mod 256).
  assert (Bn : 0 <= n < 256) by (apply Z.mod_pos_bound; lia).
  destruct (reencode_to_bits8 n Bn) as (B1 & B2 & B3).
  exists (VBool (bin_value x =? 0)%Z :: map VBool (to_bits8 n)).
  exists (VBool (n =? 0)%Z :: map VBool (to_bits8 ((256 - n) mod 256))).
  split; [|split; [|split; [|split]]].
  - rewrite negateNumber_returns, negate_result_value by assumption.
    reflexivity.
  - exact B1.
  - cbv [sum_bits tl]. rewrite negateNumber_returns by assumption.
    rewrite negate_result_value by assumption. rewrite B3. reflexivity.
  - cbv [sum_bits tl]. f_equal.
    replace ((256 - n) mod 256) with (bin_value x).
    + apply to_bits8_bin_value. assumption.
    + unfold n. destruct (Z.eq_dec (bin_value x) 0) as [E|E].
      * rewrite E. reflexivity.
      * rewrite (Z.mod_small (256 - bin_value x)) by lia.
        rewrite Z.mod_small; lia.
  - cbv [sum_bits tl].
    replace ((256 - n) mod 256) with (bin_value x).
    + rewrite to_bits8_bin_value, reencode_bools by assumption.
      apply bit_string_msb_bits. assumption.
    + unfold n. destruct (Z.eq_dec (bin_value x) 0) as [E|E].
      * rewrite E. reflexivity.
      * rewrite (Z.mod_small (256 - bin_value x)) by lia.
        rewrite Z.mod_small; lia.
Qed.

Lemma negateNumber_twice_witness :
  exists r r',
    returns (negateNumber 28 (SStr "11000110")) = Ok r /\
    is_bitstring8 (reencode (sum_bits r)) = true /\
    returns (negateNumber 28 (SStr (reencode (sum_bits r)))) = Ok r' /\
    sum_bits r' = map VBool (msb_bits "11000110") /\
    reencode (sum_bits r') = "11000110".
Proof.
  apply (negateNumber_twice 28 "11000110").
  - unfold adder_depth. lia.
  - reflexivity.
Defined.

(** X2: the building blocks do subtract.  For all 8-character bit strings
    [a] and [b], adding to [a] the 8 bits after the carry of
    [negateNumber(b)] gives the bits of (a - b) mod 256, and the carry-out
    tells that no borrow was needed (b = 0 or a >= b, b > 0). *)
Theorem add_negated_is_difference (d : nat) (a b : string) :
  (adder_depth <= d)%nat ->
  is_bitstring8 a = true -> is_bitstring8 b = true ->
  exists r,
    returns (negateNumber d (SStr b)) = Ok r /\
    returns (addcarry d (SStr a) (SStr (reencode (sum_bits r))))
    = Ok (VBool (negb (bin_value b =? 0)%Z && (bin_value b <=? bin_value a)%Z)
          :: map VBool (to_bits8 ((bin_value a - bin_value b) mod 256))).
Proof.
  intros Hd Ha Hb.
  pose proof (is_bitstring8_length a Ha) as La.
  pose proof (is_bitstring8_length b Hb) as Lb.
  pose proof (bin_value_bounds a La) as Ba.
  pose proof (bin_value_bounds b Lb) as Bb.
  set (n := (256 - bin_value b) mod 256).
  assert (Bn : 0 <= n < 256) by (apply Z.mod_pos_bound; lia).
  destruct (reencode_to_bits8 n Bn) as (B1 & B2 & B3).
  exists (VBool (bin_value b =? 0)%Z :: map VBool (to_bits8 n)).
  split.
  - rewrite negateNumber_returns, negate_result_value by assumption.
    reflexivity.
  - cbv [sum_bits tl]. rewrite addcarry_returns by assumption.
    rewrite adder_result_strings by assumption. rewrite B3.
    assert (En : n = if (bin_value b =? 0)%Z then 0 else 256 - bin_value b).
    { unfold n. destruct (Z.eqb_spec (bin_value b) 0) as [E|E].
      - rewrite E. reflexivity.
      - apply Z.mod_small. lia. }
    assert (Ec : (256 <=? bin_value a + n)%Z
                 = negb (bin_value b =? 0)%Z
                   && (bin_value b <=? bin_value a)%Z).
    { rewrite En. destruct (Z.eqb_spec (bin_value b) 0) as [E|E]; simpl.
      - apply Z.leb_gt. lia.
      - destruct (Z.leb_spec (bin_value b) (bin_value a)).
        + apply Z.leb_le. lia.
        + apply Z.leb_gt. lia. }
    assert (Es : (bin_value a + n) mod 256
                 = (bin_value a - bin_value b) mod 256).
    { rewrite En. destruct (Z.eqb_spec (bin_value b) 0) as [E|E].
      - rewrite E.
        replace (bin_value a + 0) with (bin_value a - 0) by lia. reflexivity.
      - replace (bin_value a + (256 - bin_value b))
          with (bin_value a - bin_value b + 1 * 256) by lia.
        apply Z.mod_add. lia. }
    rewrite Ec, Es. reflexivity.
Qed.

Lemma add_negated_is_difference_witness :
  exists r,
    returns (negateNumber 28 (SStr "11000110")) = Ok r /\
    returns (addcarry 28 (SStr "10010101") (SStr (reencode (sum_bits r))))
    = Ok (VBool (negb (bin_value "11000110" =? 0)%Z
                 && (bin_value "11000110" <=? bin_value "10010101")%Z)
          :: map VBool
               (to_bits8 ((bin_value "10010101" - bin_value "11000110")
                          mod 256))).
Proof.
  apply (add_negated_is_difference 28 "10010101" "11000110").
  - unfold adder_depth. lia.
  - reflexivity.
  - reflexivity.
Defined.

Lemma bits_at_prefix (a r : string) :
  String.length a = 8%nat -> bits_at (SStr (a ++ r)) idx8 (lsb_bits a).
Proof.
  intros H. destruct (string8_inv a H) as (c0&c1&c2&c3&c4&c5&c6&c7&->).
  repeat split; reflexivity.
Qed.

(** X3: the operands are not validated.  [addcarry] reads the first 8
    characters of each operand, any character other than ['1'] as a zero
    bit, and ignores what follows: for operands of any characters it
    returns the carry and the bits of the sum of the numbers so read. *)
Theorem addcarry_reads_first_eight (d : nat) (a b ra rb : string) :
  (adder_depth <= d)%nat ->
  String.length a = 8%nat -> String.length b = 8%nat ->
  returns (addcarry d (SStr (a ++ ra)) (SStr (b ++ rb)))
  = Ok (VBool (256 <=? bin_value a + bin_value b)%Z
        :: map VBool (to_bits8 ((bin_value a + bin_value b) mod 256))) /\
  returns (addcarry d (SStr (a ++ ra)) (SStr (b ++ rb)))
  = returns (addcarry d (SStr a) (SStr b)).
Proof.
  intros Hd La Lb.
  assert (E : returns (addcarry d (SStr (a ++ ra)) (SStr (b ++ rb)))
              = Ok (adder_result (lsb_bits a) (lsb_bits b))).
  { apply (wp_returns _ _ wf).
    apply (addcarry_sound adder_depth d empty_heap empty_heap);
      auto using addcarry_check_ok, wf_empty_heap, ext_refl,
        bits_of_pair, bits_at_prefix. }
  split.
  - rewrite E, adder_result_strings by assumption. reflexivity.
  - rewrite E. symmetry. apply addcarry_returns; assumption.
Qed.

Lemma addcarry_reads_first_eight_witness :
  returns (addcarry 28 (SStr ("0000x0y1" ++ "101")) (SStr ("00000011" ++ "")))
  = Ok (VBool (256 <=? bin_value "0000x0y1" + bin_value "00000011")%Z
        :: map VBool
             (to_bits8 ((bin_value "0000x0y1" + bin_value "00000011")
                        mod 256))) /\
  returns (addcarry 28 (SStr ("0000x0y1" ++ "101")) (SStr ("00000011" ++ "")))
  = returns (addcarry 28 (SStr "0000x0y1") (SStr "00000011")).
Proof.
  apply (addcarry_reads_first_eight 28 "0000x0y1" "00000011" "101" "").
  - unfold adder_depth. lia.
  - reflexivity.
  - reflexivity.
Defined.

Lemma toString_acc_raise (l : list pyval) (e : exn) :
  fold_left (fun s bit =>
               match s with
               | Raise e => Raise e
               | Ok s => match py_int bit with
                         | Raise e => Raise e
                         | Ok n => Ok (s ++ py_str n)
                         end
               end) l (Raise e)
  = Raise e.
Proof. induction l; simpl; auto. Qed.

Lemma toString_acc (l : list pyval) (acc : string) :
  fold_left (fun s bit =>
               match s with
               | Raise e => Raise e
               | Ok s => match py_int bit with
                         | Raise e => Raise e
                         | Ok n => Ok (s ++ py_str n)
                         end
               end) l (Ok acc)
  = if forallb convertible l
    then fold_left (fun s bit =>
               match s with
               | Raise e => Raise e
               | Ok s => match py_int bit with
                         | Raise e => Raise e
                         | Ok n => Ok (s ++ py_str n)
                         end
               end) l (Ok acc)
    else Raise TypeError.
Proof.
  revert acc. induction l as [|v l IH]; intros acc; simpl; [reflexivity|].
  destruct v as [|b|n]; simpl.
  - apply toString_acc_raise.
  - apply IH.
  - apply IH.
Qed.

Lemma toString_acc_ok (l : list pyval) (acc : string) :
  forallb convertible l = true ->
  exists s,
    fold_left (fun s bit =>
               match s with
               | Raise e => Raise e
               | Ok s => match py_int bit with
                         | Raise e => Raise e
                         | Ok n => Ok (s ++ py_str n)
                         end
               end) l (Ok acc) = Ok s.
Proof.
  revert acc. induction l as [|v l IH]; intros acc H; simpl in *;
    [eauto|].
  apply andb_true_iff in H as [Hv Hl].
  destruct v as [|b|n]; try discriminate; simpl; apply IH; assumption.
Qed.

(** X4: [toString] fails exactly on [None].  It raises [TypeError] (from
    [int(None)]) if and only if some element of the list is [None], a
    connector that was never set; otherwise it returns a string. *)
Theorem toString_fails_on_None (l : list pyval) :
  (toString l = Raise TypeError <-> In VNone l) /\
  (In VNone l \/ exists s, toString l = Ok s).
Proof.
  assert (H : forallb convertible l = true <-> ~ In VNone l).
  { rewrite forallb_forall. split.
    - intros H Hin. specialize (H _ Hin). discriminate.
    - intros H v Hv. destruct v; try reflexivity. contradiction. }
  unfold toString. rewrite toString_acc.
  destruct (forallb convertible l) eqn:E.
  - destruct (toString_acc_ok l "" E) as [s Hs]. split.
    + rewrite Hs. split; [discriminate|]. intros Hin.
      exfalso. apply (proj1 H); auto.
    + right. eauto.
  - assert (Hin : In VNone l).
    { destruct (in_dec pyval_eq_dec VNone l) as [Hin|Hn]; [assumption|].
      apply H in Hn. discriminate. }
    split; [tauto|]. left. assumption.
Qed.

Lemma inverters_check_Not_Not_after_bank :
  inverters_check Not_Not inverter_depth 65 33 (blank 33 17) = true.
Proof. vm_compute. reflexivity. Qed.

Lemma below_PassTrough (d d' : nat) (a : pyseq) :
  (d <= d')%nat -> below (PassTrough d a) (PassTrough d' a).
Proof. intros H. unfold PassTrough. below_auto. Qed.

(** X5: [PassTrough] is the bitwise complement, and twice is the
    identity.  For every 8-character bit string [a], [PassTrough(a)]
    returns the string of the inverted bits of [a], and
    [PassTrough(PassTrough(a))] returns [a]. *)
Theorem PassTrough_complements (d : nat) (a : string) :
  (inverter_depth <= d)%nat -> is_bitstring8 a = true ->
  returns (PassTrough d (SStr a)) = Ok (bit_string (map negb (msb_bits a))) /\
  bin_value (bit_string (map negb (msb_bits a))) = 255 - bin_value a /\
  returns (PassTrough_twice d a) = Ok a.
Proof.
  intros Hd Ha. pose proof (is_bitstring8_length a Ha) as La.
  split; [apply PassTrough_returns; assumption|]. split.
  - rewrite val_lsb_bit_string, <- map_rev, val_lsb_negb.
    fold (lsb_bits a). rewrite (lsb_bits_length a La), <- bin_value_lsb.
    change (2 ^ Z.of_nat 8) with 256. lia.
  - apply (wp_returns _ _ wf). unfold PassTrough_twice. apply wp_bind.
    change (PassTrough d (SStr a))
      with (inverters Not_Not d (SStr a) (fun l => lift (toString l))).
    eapply (inverters_sound Not_Not inverter_depth d 33 17
              empty_heap empty_heap);
      eauto using inverters_check_Not_Not, wf_empty_heap, ext_refl,
        bits_at_string with local_db.
    intros h W N1 N2. rewrite rev_lsb_bits, toString_bools.
    exists (bit_string (map negb (msb_bits a))), h, []. split; [reflexivity|].
    change (PassTrough d (SStr (bit_string (map negb (msb_bits a)))))
      with (inverters Not_Not d (SStr (bit_string (map negb (msb_bits a))))
              (fun l => lift (toString l))).
    eapply (inverters_sound Not_Not inverter_depth d 65 33 (blank 33 17) h);
      eauto using inverters_check_Not_Not_after_bank, wf_blank,
        ext_blank_at with local_db.
    + apply bits_at_string.
      rewrite bit_string_length, length_map, msb_bits_length. assumption.
    + intros h' W' _ _.
      rewrite rev_lsb_bits, msb_bits_bit_string, map_negb_negb,
        toString_bools, (bit_string_msb_bits a Ha).
      exists a, h', []. auto.
Qed.

Lemma PassTrough_complements_witness :
  returns (PassTrough 2 (SStr "11000110"))
  = Ok (bit_string (map negb (msb_bits "11000110"))) /\
  bin_value (bit_string (map negb (msb_bits "11000110")))
  = 255 - bin_value "11000110" /\
  returns (PassTrough_twice 2 "11000110") = Ok "11000110".
Proof.
  apply (PassTrough_complements 2 "11000110").
  - unfold inverter_depth. lia.
  - reflexivity.
Defined.

(** ** Further properties of connectors *)

Lemma connect_list (l : list ref) :
  forall (h : heap) (c : ref) (con : Connector),
    conns h !! c = Some con ->
    exists h', connect c (Many l) h = Ok (tt, h', []) /\
      conns h' !! c = Some (connected con l) /\
      (forall r, r <> c -> conns h' !! r = conns h !! r) /\
      objs h' = objs h.
Proof.
  induction l as [|x l IH]; intros h c con L.
  - exists h. repeat split; auto.
    rewrite L. unfold connected. rewrite app_nil_r. destruct con; reflexivity.
  - set (h1 := mkHeap (<[c := connected con [x]]> (conns h)) (objs h)
                      (next_conn h) (next_obj h)).
    destruct (IH h1 c (connected con [x])) as (h' & E & Lc & Lo & Ob).
    { simpl. apply lookup_insert_eq. }
    exists h'. split; [|split; [|split]].
    + set (body := fun input : positive =>
                     let* con := get_conn c in
                     put_conn c (connected con [input])).
      change (connect c (Many l) h1) with (for_each l body h1) in E.
      change (connect c (Many (x :: l)) h)
        with (bind (body x) (fun _ => for_each l body) h).
      assert (E1 : body x h = Ok (tt, h1, [])).
      { unfold body, bind, get_conn. rewrite L. reflexivity. }
      unfold bind. rewrite E1, E. reflexivity.
    + rewrite Lc. unfold connected. simpl. rewrite <- app_assoc. reflexivity.
    + intros r Hr. rewrite (Lo r Hr). simpl.
      apply lookup_insert_ne. congruence.
    + rewrite Ob. reflexivity.
Qed.

(** X6: [connect] adds to the fan-out and replaces nothing.  On an
    existing connector, [connect] with one connector or with a list appends
    the targets, in order, after those already connected; the connector's
    value and every other connector and circuit stay as they were, and
    nothing is emitted. *)
Theorem connect_appends (h : heap) (c : ref) (con : Connector)
  (arg : connect_arg) :
  conns h !! c = Some con ->
  exists h', connect c arg h = Ok (tt, h', []) /\
    conns h' !! c = Some (connected con (targets arg)) /\
    (forall r, r <> c -> conns h' !! r = conns h !! r) /\
    objs h' = objs h.
Proof.
  intros L. destruct arg as [x|l].
  - apply (connect_list [x] h c con L).
  - apply (connect_list l h c con L).
Qed.

Lemma connect_appends_witness :
  exists h', connect 1%positive (Many [2; 2]%positive) inverter_heap
             = Ok (tt, h', []) /\
    conns h' !! 1%positive
    = Some (connected (mkConnector (VBool true) 1 "A" 0 [] 1)
              (targets (Many [2; 2]%positive))) /\
    (forall r, r <> 1%positive -> conns h' !! r = conns inverter_heap !! r) /\
    objs h' = objs inverter_heap.
Proof.
  apply (connect_appends inverter_heap 1%positive
           (mkConnector (VBool true) 1 "A" 0 [] 1) (Many [2; 2]%positive)).
  vm_compute. reflexivity.
Defined.

(** *** [set] changes values only *)

Lemma wiring_kept_refl (h : heap) : wiring_kept h h.
Proof.
  repeat split; auto. intros r. destruct (conns h !! r); [|exact I].
  repeat split.
Qed.

Lemma wiring_kept_trans (h1 h2 h3 : heap) :
  wiring_kept h1 h2 -> wiring_kept h2 h3 -> wiring_kept h1 h3.
Proof.
  intros (A1 & A2 & A3 & A4) (B1 & B2 & B3 & B4).
  repeat split; try congruence.
  intros r. specialize (A4 r). specialize (B4 r).
  destruct (conns h1 !! r), (conns h2 !! r), (conns h3 !! r);
    try contradiction; auto.
  destruct A4 as (?&?&?&?&?), B4 as (?&?&?&?&?).
  repeat split; congruence.
Qed.

Lemma keeps_ret {A} (a : A) : keeps_wiring (ret a).
Proof. intros h a' h' t H. inversion H; subst. apply wiring_kept_refl. Qed.

Lemma keeps_raise {A} (e : exn) : keeps_wiring (@raise A e).
Proof. intros h a h' t H. discriminate. Qed.

Lemma keeps_tell (t : trace) : keeps_wiring (tell t).
Proof. intros h a' h' t' H. inversion H; subst. apply wiring_kept_refl. Qed.

Lemma keeps_get_conn (c : ref) : keeps_wiring (get_conn c).
Proof.
  intros h a h' t H. apply get_conn_inv in H as (-> & _).
  apply wiring_kept_refl.
Qed.

Lemma keeps_get_obj (o : ref) : keeps_wiring (get_obj o).
Proof.
  intros h a h' t H. apply get_obj_inv in H as (-> & _).
  apply wiring_kept_refl.
Qed.

Lemma keeps_bind {A B} (m : M A) (k : A -> M B) :
  keeps_wiring m -> (forall a, keeps_wiring (k a)) -> keeps_wiring (bind m k).
Proof.
  intros Hm Hk h b h2 t H. unfold bind in H.
  destruct (m h) as [[[a h1] t1]|] eqn:E1; [|discriminate].
  destruct (k a h1) as [[[b' h2'] t2]|] eqn:E2; [|discriminate].
  inversion H; subst; clear H.
  eapply wiring_kept_trans; [eapply Hm|eapply Hk]; eassumption.
Qed.

Create HintDb keeps_db discriminated.

#[local] Hint Resolve keeps_ret keeps_raise keeps_tell keeps_get_conn
  keeps_get_obj : keeps_db.

Ltac keeps_step :=
  first [ solve [ auto with keeps_db ]
        | apply keeps_bind; [ | intros ? ]
        | match goal with
          | |- keeps_wiring (match ?x with _ => _ end) => destruct x
          | |- keeps_wiring (if ?x then _ else _) => destruct x
          end ].

Ltac keeps_auto := repeat keeps_step.

Lemma keeps_for_each {A} (l : list A) (body : A -> M unit) :
  (forall x, keeps_wiring (body x)) -> keeps_wiring (for_each l body).
Proof. intros H. induction l; simpl; keeps_auto. Qed.

Lemma keeps_conn_of (self : ref) (field : string) :
  keeps_wiring (conn_of self field).
Proof. unfold conn_of. keeps_auto. Qed.

Lemma keeps_value_of (c : ref) : keeps_wiring (value_of c).
Proof. unfold value_of. keeps_auto. Qed.

#[local] Hint Resolve keeps_conn_of keeps_value_of : keeps_db.

Lemma keeps_evaluate (set' : ref -> pyval -> M unit) (self : ref) :
  (forall c v, keeps_wiring (set' c v)) -> keeps_wiring (evaluate set' self).
Proof. intros H. unfold evaluate. keeps_auto. Qed.

Lemma keeps_at_bind {A B} (h : heap) (m : M A) (k : A -> M B) :
  (forall a h1 t, m h = Ok (a, h1, t) ->
     wiring_kept h h1 /\
     forall b h2 t', k a h1 = Ok (b, h2, t') -> wiring_kept h1 h2) ->
  forall b h2 t, bind m k h = Ok (b, h2, t) -> wiring_kept h h2.
Proof.
  intros Hm b h2 t H. unfold bind in H.
  destruct (m h) as [[[a h1] t1]|] eqn:E1; [|discriminate].
  destruct (k a h1) as [[[b' h2'] t2]|] eqn:E2; [|discriminate].
  inversion H; subst; clear H.
  destruct (Hm _ _ _ eq_refl) as [K1 K2].
  eapply wiring_kept_trans; [exact K1|eapply K2; eassumption].
Qed.

Lemma keeps_put_conn (h : heap) (c : ref) (con con' : Connector) :
  conns h !! c = Some con -> same_wiring con con' ->
  forall a h1 t, put_conn c con' h = Ok (a, h1, t) -> wiring_kept h h1.
Proof.
  intros L Hs a h1 t H. inversion H; subst; clear H.
  repeat split; auto. intros r. simpl.
  destruct (decide (r = c)) as [->|Hne].
  - rewrite L, lookup_insert_eq. exact Hs.
  - rewrite lookup_insert_ne by congruence.
    destruct (conns h !! r); [repeat split|exact I].
Qed.

Lemma keeps_set (depth : nat) (self : ref) (v : pyval) :
  keeps_wiring (set depth self v).
Proof.
  revert self v. induction depth as [|d IH]; intros self v; simpl.
  - auto with keeps_db.
  - intros h. apply keeps_at_bind. intros con h0 t0 E0.
    apply get_conn_inv in E0 as (-> & -> & L).
    split; [apply wiring_kept_refl|].
    destruct (py_eq (value con) v); [apply keeps_ret|].
    apply keeps_at_bind. intros u h2 t2 E2. split.
    + eapply (keeps_put_conn h self con _ L); [|exact E2]. repeat split.
    + revert h2 E2. intros h2 _. revert h2.
      change (keeps_wiring
        (let* _ := (if negb (Z.eqb (activates con) 0)
                    then evaluate (set d) (owner con) else ret tt) in
         let* _ := (if negb (Z.eqb (monitor con) 0)
                    then let* own := get_obj (owner con) in
                         let* now := get_conn self in
                         tell [Monitor (lc_name own) (name now) (value now)]
                    else ret tt) in
         let* now := get_conn self in
         for_each (connects now) (fun con' => set d con' v))).
      keeps_auto; try (apply keeps_evaluate; apply IH).
      apply keeps_for_each. intros. apply IH.
Qed.

(** X7: [set] changes values only.  Whatever it propagates, a successful
    [set] leaves every circuit object, the set of connectors and each
    connector's owner, name, monitor flag, fan-out and activation flag as
    they were, and allocates nothing. *)
Theorem set_keeps_wiring (d : nat) (c : ref) (v : pyval) (h h' : heap)
  (t : trace) :
  set d c v h = Ok (tt, h', t) -> wiring_kept h h'.
Proof. intros H. eapply keeps_set. eassumption. Qed.

Lemma set_keeps_wiring_witness :
  exists h' t,
    set 2 3%positive (VBool true) two_inverters = Ok (tt, h', t) /\
    wiring_kept two_inverters h'.
Proof.
  eexists. eexists. split.
  - vm_compute. reflexivity.
  - eapply (set_keeps_wiring 2 3%positive (VBool true) two_inverters).
    vm_compute. reflexivity.
Defined.

Lemma subseteq_self {A} (m : Pmap A) : m ⊆ m.
Proof. apply map_subseteq_spec. auto. Qed.

Lemma wf_two_inverters : wf two_inverters.
Proof.
  assert (L : local (let* g1 := Not (NameStr "G1") in Not (NameStr "G2")))
    by local_auto.
  unfold two_inverters.
  destruct ((let* g1 := Not (NameStr "G1") in Not (NameStr "G2")) empty_heap)
    as [[[g h] t]|] eqn:E.
  - destruct (L _ _ _ _ wf_empty_heap E) as (W & _). exact W.
  - vm_compute in E. discriminate.
Qed.

(** X8: [set] never looks outside what it reaches.  If [set] succeeds on
    a heap [s], then on every heap [h] that extends [s] with further
    connectors and circuits it succeeds with the same events, changes the
    connectors of [s] in the same way and leaves every other connector
    and every circuit of [h] untouched. *)
Theorem set_is_local (d : nat) (c : ref) (v : pyval) (s s' h : heap)
  (t : trace) :
  wf s -> ext s h -> set d c v s = Ok (tt, s', t) ->
  set d c v h = Ok (tt, ov s' h, t) /\
  objs (ov s' h) = objs h /\
  (forall r, conns s !! r = None -> conns (ov s' h) !! r = conns h !! r) /\
  (forall r con, conns s' !! r = Some con ->
                 conns (ov s' h) !! r = Some con).
Proof.
  intros W E H.
  destruct (local_set d c v s _ _ _ W H) as (W' & G & F).
  destruct (static_set d c v _ _ _ _ H) as (So & Sc & Sn).
  split; [apply F; assumption|]. split; [|split].
  - simpl. rewrite So. apply map_subseteq_union. apply E.
  - intros r Hr. simpl. apply lookup_union_r.
    destruct (Pos.ltb_spec r (next_conn s)) as [Hlt|Hge].
    + apply G; assumption.
    + apply W'. rewrite Sc. assumption.
  - intros r con Hr. simpl. apply lookup_union_Some_l. assumption.
Qed.

Lemma set_is_local_witness :
  exists s' t,
    set 2 3%positive (VBool true) second_inverter = Ok (tt, s', t) /\
    set 2 3%positive (VBool true) two_inverters
    = Ok (tt, ov s' two_inverters, t) /\
    objs (ov s' two_inverters) = objs two_inverters /\
    (forall r, conns second_inverter !! r = None ->
               conns (ov s' two_inverters) !! r = conns two_inverters !! r) /\
    (forall r con, conns s' !! r = Some con ->
                   conns (ov s' two_inverters) !! r = Some con).
Proof.
  eexists. eexists. split.
  - vm_compute. reflexivity.
  - eapply (set_is_local 2 3%positive (VBool true) second_inverter).
    + apply wf_restrict. apply wf_two_inverters.
    + split; [apply restrict_sub|].
      split; [apply (subseteq_self (objs two_inverters))|].
      split; [reflexivity|]. split; [reflexivity|apply wf_two_inverters].
    + vm_compute. reflexivity.
Defined.

(** *** A circular connection *)

Lemma set_unfold (d : nat) (self : ref) (v : pyval) :
  set (S d) self v
  = (let* con := get_conn self in
     if py_eq (value con) v then ret tt
     else
       let* _ := put_conn self (mkConnector v (owner con) (name con)
                    (monitor con) (connects con) (activates con)) in
       let* _ := (if negb (Z.eqb (activates con) 0)
                  then evaluate (set d) (owner con) else ret tt) in
       let* _ := (if negb (Z.eqb (monitor con) 0)
                  then let* own := get_obj (owner con) in
                       let* now := get_conn self in
                       tell [Monitor (lc_name own) (name now) (value now)]
                  else ret tt) in
       let* now := get_conn self in
       for_each (connects now) (fun con' => set d con' v)).
Proof. reflexivity. Qed.

Lemma loop_two_steps (d : nat) (x : bool) :
  set d 1%positive (VBool x) (loop_heap (negb x)) = Raise RecursionError ->
  set (S (S d)) 1%positive (VBool (negb x)) (loop_heap x)
  = Raise RecursionError.
Proof.
  intros H. rewrite set_unfold.
  destruct x; cbv -[set]; rewrite set_unfold; cbv -[set];
    match goal with
    | |- context [set d 1%positive ?v ?h] =>
        first [ change h with (loop_heap (negb true))
              | change h with (loop_heap (negb false)) ]
    end; rewrite H; reflexivity.
Qed.

Lemma loop_never_settles (d : nat) :
  forall x, set d 1%positive (VBool (negb x)) (loop_heap x)
            = Raise RecursionError.
Proof.
  induction d as [d IH] using lt_wf_ind. intros x.
  destruct d as [|[|d]].
  - reflexivity.
  - destruct x; vm_compute; reflexivity.
  - apply loop_two_steps.
    rewrite <- (negb_involutive x) at 1. apply IH. lia.
Qed.

(** X9: a circular connection never settles.  With an inverter's output
    connected back to its own input, setting the input to a boolean makes
    the change go round for ever: whatever the nesting depth allowed, the
    call ends in [RecursionError]. *)
Theorem feedback_recursion_error (d : nat) (b : bool) :
  returns (feedback d (VBool b)) = Raise RecursionError.
Proof.
  destruct d as [|[|d]].
  - destruct b; vm_compute; reflexivity.
  - destruct b; vm_compute; reflexivity.
  - unfold returns, feedback.
    destruct b; with_strategy transparent [Pmap_empty] (cbv -[set]);
      rewrite set_unfold;
      with_strategy transparent [Pmap_empty] (cbv -[set]);
      rewrite set_unfold;
      with_strategy transparent [Pmap_empty] (cbv -[set]);
      match goal with
      | |- context [set d 1%positive ?v ?h] =>
          first [ change h with (loop_heap true)
                | change h with (loop_heap false) ]
      end.
    + pose proof (loop_never_settles d true) as L. simpl negb in L.
      rewrite L. reflexivity.
    + pose proof (loop_never_settles d false) as L. simpl negb in L.
      rewrite L. reflexivity.
Qed.

(** ** Circuits under any sequence of input changes *)

Lemma peeks_read (fs : list string) (g : ref) (h : heap) (vs : list pyval) :
  peeks h g fs = Some vs -> read_fields g fs h = Ok (vs, h, []).
Proof.
  revert vs. induction fs as [|f fs IH]; intros vs H; simpl in *.
  - inversion H. reflexivity.
  - destruct (peek h g f) as [v|] eqn:E; [|discriminate].
    destruct (peeks h g fs) as [vs'|]; [|discriminate].
    inversion H; subst. unfold bind.
    rewrite (peek_value_at _ _ _ _ E), (IH _ eq_refl). reflexivity.
Qed.

Lemma peeks_app (h : heap) (g : ref) (fs fs' : list string)
  (vs vs' : list pyval) :
  peeks h g fs = Some vs -> peeks h g fs' = Some vs' ->
  peeks h g (fs ++ fs')%list = Some (vs ++ vs')%list.
Proof.
  revert vs. induction fs as [|f fs IH]; intros vs H H'; simpl in *.
  - inversion H. assumption.
  - destruct (peek h g f) as [v|]; [|discriminate].
    destruct (peeks h g fs) as [vs0|]; [|discriminate].
    inversion H; subst. rewrite (IH _ eq_refl H'). reflexivity.
Qed.

Lemma peeks_length (fs : list string) (g : ref) (h : heap)
  (vs : list pyval) :
  peeks h g fs = Some vs -> length vs = length fs.
Proof.
  revert vs. induction fs as [|f fs IH]; intros vs H; simpl in *.
  - inversion H. reflexivity.
  - destruct (peek h g f); [|discriminate].
    destruct (peeks h g fs) as [vs'|]; [|discriminate].
    inversion H; subst. simpl. f_equal. apply IH. reflexivity.
Qed.

Lemma all_bools_map (xs : list bool) : all_bools (map VBool xs) = Some xs.
Proof. induction xs as [|x xs IH]; simpl; [|rewrite IH]; reflexivity. Qed.

Lemma play_sound (d0 d : nat) (g : ref) (ins : list string) (R : list heap) :
  (d0 <= d)%nat -> closed_under d0 g ins R = true ->
  forall script h,
    Forall (fun p => In p.1 ins) script -> In h R ->
    wp (play d g script)
       (fun _ h' => In h' R /\
          forall q, In q ins -> peek h' g q = held script (peek h g q) q) h.
Proof.
  intros Hd Hc script.
  induction script as [|[f b] rest IH]; intros h Hs Hin.
  - apply wp_ret. split; [assumption|]. intros q _. reflexivity.
  - inversion Hs as [|? ? Hf Hrest]; subst. simpl in Hf.
    unfold closed_under in Hc. rewrite forallb_forall in Hc.
    pose proof (Hc h Hin) as Hh. rewrite forallb_forall in Hh.
    pose proof (Hh f Hf) as Hp. rewrite forallb_forall in Hp.
    pose proof (Hp b (In_bools b)) as Hb. clear Hh Hp.
    destruct (set_at d0 g f (VBool b) h) as [[[u h1] t1]|] eqn:E;
      [|discriminate].
    apply andb_true_iff in Hb as [Hmem Hpins].
    apply existsb_exists in Hmem as (r & Hr & Heq).
    apply bool_decide_eq_true in Heq. subst r.
    simpl. apply wp_bind. exists u, h1, t1. split.
    { apply (below_set_at d0 d g f (VBool b) Hd). assumption. }
    eapply wp_weaken; [|apply (IH h1 Hrest Hr)].
    simpl. intros _ h' [Hin' Hq]. split; [assumption|].
    intros q Hqin. rewrite (Hq q Hqin).
    unfold pins_ok in Hpins. rewrite forallb_forall in Hpins.
    pose proof (Hpins q Hqin) as Hpq. apply bool_decide_eq_true in Hpq.
    unfold held. simpl. destruct (last_set q rest); [reflexivity|].
    rewrite Hpq. destruct (String.eqb q f); reflexivity.
Qed.

Lemma peeks_held (ins' : list string) (g : ref) (h0 h' : heap)
  (script : list (string * bool)) :
  (forall q, In q ins' -> peek h0 g q = Some VNone) ->
  (forall q, In q ins' -> peek h' g q = held script (peek h0 g q) q) ->
  peeks h' g ins' = Some (map (input_value script) ins').
Proof.
  induction ins' as [|q qs IH]; intros H0 H; simpl; [reflexivity|].
  rewrite (H q (or_introl eq_refl)), (H0 q (or_introl eq_refl)).
  rewrite IH by (intros; first [apply H0 | apply H]; right; assumption).
  unfold held, input_value. destruct (last_set q script); reflexivity.
Qed.

Lemma sequence_sound (mk : pyname -> M ref) (d0 d n : nat)
  (ins outs : list string) (table : list bool -> list bool)
  (script : list (string * bool)) :
  sequence_check mk d0 n ins outs table = true ->
  (d0 <= d)%nat -> Forall (fun p => In p.1 ins) script ->
  exists vo,
    returns (drive_script mk d script (ins ++ outs)%list)
    = Ok (map (input_value script) ins ++ vo)%list /\
    length vo = length outs /\
    forall xs, map (input_value script) ins = map VBool xs ->
               vo = map VBool (table xs).
Proof.
  intros Hc Hd Hs. unfold sequence_check, wpb in Hc.
  destruct (mk (NameStr "G") empty_heap) as [[[g h0] t0]|] eqn:E0;
    [|discriminate].
  set (R := saturate n d0 g ins [h0]) in *.
  apply andb_true_iff in Hc as [Hc Hclosed].
  apply andb_true_iff in Hc as [Hc Hsettled].
  apply andb_true_iff in Hc as [Hmem Hfresh].
  apply existsb_exists in Hmem as (r & Hr & Heq).
  apply bool_decide_eq_true in Heq. subst r.
  destruct (play_sound d0 d g ins R Hd Hclosed script h0 Hs Hr)
    as (u & h' & t' & Ep & Hin' & Hq).
  rewrite forallb_forall in Hsettled. pose proof (Hsettled h' Hin') as Hst.
  unfold settled in Hst.
  assert (Hpi : peeks h' g ins = Some (map (input_value script) ins)).
  { apply (peeks_held ins g h0 h' script); [|assumption].
    intros q Hqin. rewrite forallb_forall in Hfresh.
    pose proof (Hfresh q Hqin) as Hh. unfold holds in Hh.
    destruct (peek h0 g q) as [w|]; [|discriminate].
    apply bool_decide_eq_true in Hh. congruence. }
  rewrite Hpi in Hst.
  destruct (peeks h' g outs) as [vo|] eqn:Eo; [|discriminate].
  exists vo. split; [|split].
  - unfold returns, drive_script, bind. rewrite E0, Ep.
    rewrite (peeks_read _ _ _ _ (peeks_app _ _ _ _ _ _ Hpi Eo)). reflexivity.
  - apply (peeks_length outs g h'). assumption.
  - intros xs Hxs. rewrite Hxs, all_bools_map in Hst.
    apply bool_decide_eq_true in Hst. assumption.
Qed.

Lemma sequence_check_And :
  sequence_check And circuit_depth 2 ["A"; "B"] ["C"] and_table = true.
Proof. vm_compute. reflexivity. Qed.

Lemma sequence_check_Or :
  sequence_check Or circuit_depth 2 ["A"; "B"] ["C"] or_table = true.
Proof. vm_compute. reflexivity. Qed.

Lemma sequence_check_Xor :
  sequence_check Xor circuit_depth 2 ["A"; "B"] ["C"] xor_table = true.
Proof. vm_compute. reflexivity. Qed.

Lemma sequence_check_Not :
  sequence_check Not circuit_depth 2 ["A"] ["B"] not_table = true.
Proof. vm_compute. reflexivity. Qed.

Lemma sequence_check_HalfAdder :
  sequence_check HalfAdder circuit_depth 2 ["A"; "B"] ["S"; "C"] half_table
  = true.
Proof. vm_compute. reflexivity. Qed.

Lemma sequence_check_FullAdder :
  sequence_check FullAdder circuit_depth 3 ["A"; "B"; "Cin"] ["S"; "Cout"]
    full_table = true.
Proof. vm_compute. reflexivity. Qed.

Lemma gate2_settles (mk : pyname -> M ref) (f : bool -> bool -> bool)
  (table : list bool -> list bool) (n d : nat)
  (script : list (string * bool)) :
  sequence_check mk circuit_depth n ["A"; "B"] ["C"] table = true ->
  (forall a b, table [a; b] = [f a b]) ->
  (circuit_depth <= d)%nat ->
  Forall (fun p => In p.1 ["A"; "B"]) script ->
  exists c,
    returns (drive_script mk d script ["A"; "B"; "C"])
    = Ok [input_value script "A"; input_value script "B"; c] /\
    forall a b, input_value script "A" = VBool a ->
                input_value script "B" = VBool b -> c = VBool (f a b).
Proof.
  intros Hc Ht Hd Hs.
  destruct (sequence_sound mk circuit_depth d n ["A"; "B"] ["C"] table
              script Hc Hd Hs) as (vo & E & L & P).
  destruct vo as [|c [|? ?]]; try discriminate L.
  exists c. split; [exact E|].
  intros a b Ha Hb. specialize (P [a; b]). rewrite Ht in P.
  simpl in P. rewrite Ha, Hb in P. specialize (P eq_refl).
  inversion P. reflexivity.
Qed.

(** X10: the gates settle on their truth table after any sequence of
    input changes.  Whatever booleans are set on the inputs of a fresh And,
    Or or Xor gate, in whatever order and however often, each input holds
    the value set last ([None] if never set) and, once both inputs hold a
    boolean, the output holds [A and B], [A or B], [A xor B]. *)
Theorem gates_settle (d : nat) (script : list (string * bool)) :
  (circuit_depth <= d)%nat ->
  Forall (fun p => In p.1 ["A"; "B"]) script ->
  exists c1 c2 c3,
    returns (drive_script And d script ["A"; "B"; "C"])
    = Ok [input_value script "A"; input_value script "B"; c1] /\
    returns (drive_script Or d script ["A"; "B"; "C"])
    = Ok [input_value script "A"; input_value script "B"; c2] /\
    returns (drive_script Xor d script ["A"; "B"; "C"])
    = Ok [input_value script "A"; input_value script "B"; c3] /\
    forall a b, input_value script "A" = VBool a ->
                input_value script "B" = VBool b ->
                c1 = VBool (a && b) /\ c2 = VBool (a || b) /\
                c3 = VBool (xorb a b).
Proof.
  intros Hd Hs.
  destruct (gate2_settles And andb and_table 2 d script sequence_check_And
              (fun a b => eq_refl) Hd Hs) as (c1 & E1 & P1).
  destruct (gate2_settles Or orb or_table 2 d script sequence_check_Or
              (fun a b => eq_refl) Hd Hs) as (c2 & E2 & P2).
  destruct (gate2_settles Xor xorb xor_table 2 d script sequence_check_Xor
              (fun a b => eq_refl) Hd Hs) as (c3 & E3 & P3).
  exists c1, c2, c3. repeat split; auto.
Qed.

Lemma gates_settle_witness :
  exists c1 c2 c3,
    returns (drive_script And 24
               [("A", true); ("B", true); ("A", false); ("B", true)]
               ["A"; "B"; "C"])
    = Ok [input_value [("A", true); ("B", true); ("A", false); ("B", true)]
            "A";
          input_value [("A", true); ("B", true); ("A", false); ("B", true)]
            "B"; c1] /\
    returns (drive_script Or 24
               [("A", true); ("B", true); ("A", false); ("B", true)]
               ["A"; "B"; "C"])
    = Ok [input_value [("A", true); ("B", true); ("A", false); ("B", true)]
            "A";
          input_value [("A", true); ("B", true); ("A", false); ("B", true)]
            "B"; c2] /\
    returns (drive_script Xor 24
               [("A", true); ("B", true); ("A", false); ("B", true)]
               ["A"; "B"; "C"])
    = Ok [input_value [("A", true); ("B", true); ("A", false); ("B", true)]
            "A";
          input_value [("A", true); ("B", true); ("A", false); ("B", true)]
            "B"; c3] /\
    forall a b,
      input_value [("A", true); ("B", true); ("A", false); ("B", true)] "A"
      = VBool a ->
      input_value [("A", true); ("B", true); ("A", false); ("B", true)] "B"
      = VBool b ->
      c1 = VBool (a && b) /\ c2 = VBool (a || b) /\ c3 = VBool (xorb a b).
Proof.
  apply (gates_settle 24
           [("A", true); ("B", true); ("A", false); ("B", true)]).
  - unfold circuit_depth. lia.
  - repeat (apply List.Forall_cons; [simpl; auto 10|]).
    apply List.Forall_nil.
Defined.

(** X11: the half adder settles after any sequence of input changes:
    once both inputs hold a boolean, [S] holds [A xor B] and [C] holds
    [A and B], whatever was set before. *)
Theorem HalfAdder_settles (d : nat) (script : list (string * bool)) :
  (circuit_depth <= d)%nat ->
  Forall (fun p => In p.1 ["A"; "B"]) script ->
  exists s c,
    returns (drive_script HalfAdder d script ["A"; "B"; "S"; "C"])
    = Ok [input_value script "A"; input_value script "B"; s; c] /\
    forall a b, input_value script "A" = VBool a ->
                input_value script "B" = VBool b ->
                s = VBool (xorb a b) /\ c = VBool (a && b).
Proof.
  intros Hd Hs.
  destruct (sequence_sound HalfAdder circuit_depth d 2 ["A"; "B"] ["S"; "C"]
              half_table script sequence_check_HalfAdder Hd Hs)
    as (vo & E & L & P).
  destruct vo as [|s [|c [|? ?]]]; try discriminate L.
  exists s, c. split; [exact E|].
  intros a b Ha Hb. specialize (P [a; b]). simpl in P.
  rewrite Ha, Hb in P. specialize (P eq_refl).
  inversion P. auto.
Qed.

Lemma HalfAdder_settles_witness :
  exists s c,
    returns (drive_script HalfAdder 24 [("B", true); ("A", true)]
               ["A"; "B"; "S"; "C"])
    = Ok [input_value [("B", true); ("A", true)] "A";
          input_value [("B", true); ("A", true)] "B"; s; c] /\
    forall a b, input_value [("B", true); ("A", true)] "A" = VBool a ->
                input_value [("B", true); ("A", true)] "B" = VBool b ->
                s = VBool (xorb a b) /\ c = VBool (a && b).
Proof.
  apply (HalfAdder_settles 24 [("B", true); ("A", true)]).
  - unfold circuit_depth. lia.
  - repeat (apply List.Forall_cons; [simpl; auto 10|]).
    apply List.Forall_nil.
Defined.

(** X12: the full adder settles after any sequence of input changes:
    once [A], [B] and [Cin] all hold a boolean, [S] holds the sum bit and
    [Cout] the carry of the three, whatever was set before and in whatever
    order. *)
Theorem FullAdder_settles (d : nat) (script : list (string * bool)) :
  (circuit_depth <= d)%nat ->
  Forall (fun p => In p.1 ["A"; "B"; "Cin"]) script ->
  exists s c,
    returns (drive_script FullAdder d script ["A"; "B"; "Cin"; "S"; "Cout"])
    = Ok [input_value script "A"; input_value script "B";
          input_value script "Cin"; s; c] /\
    forall a b ci, input_value script "A" = VBool a ->
                   input_value script "B" = VBool b ->
                   input_value script "Cin" = VBool ci ->
                   s = VBool (fa_sum a b ci) /\ c = VBool (fa_carry a b ci).
Proof.
  intros Hd Hs.
  destruct (sequence_sound FullAdder circuit_depth d 3 ["A"; "B"; "Cin"]
              ["S"; "Cout"] full_table script sequence_check_FullAdder Hd Hs)
    as (vo & E & L & P).
  destruct vo as [|s [|c [|? ?]]]; try discriminate L.
  exists s, c. split; [exact E|].
  intros a b ci Ha Hb Hc. specialize (P [a; b; ci]). simpl in P.
  rewrite Ha, Hb, Hc in P. specialize (P eq_refl).
  inversion P. auto.
Qed.

Lemma FullAdder_settles_witness :
  exists s c,
    returns (drive_script FullAdder 24
               [("A", true); ("Cin", true); ("B", false); ("A", false)]
               ["A"; "B"; "Cin"; "S"; "Cout"])
    = Ok [input_value
            [("A", true); ("Cin", true); ("B", false); ("A", false)] "A";
          input_value
            [("A", true); ("Cin", true); ("B", false); ("A", false)] "B";
          input_value
            [("A", true); ("Cin", true); ("B", false); ("A", false)] "Cin";
          s; c] /\
    forall a b ci,
      input_value [("A", true); ("Cin", true); ("B", false); ("A", false)] "A"
      = VBool a ->
      input_value [("A", true); ("Cin", true); ("B", false); ("A", false)] "B"
      = VBool b ->
      input_value [("A", true); ("Cin", true); ("B", false); ("A", false)]
        "Cin" = VBool ci ->
      s = VBool (fa_sum a b ci) /\ c = VBool (fa_carry a b ci).
Proof.
  apply (FullAdder_settles 24
           [("A", true); ("Cin", true); ("B", false); ("A", false)]).
  - unfold circuit_depth. lia.
  - repeat (apply List.Forall_cons; [simpl; auto 10|]).
    apply List.Forall_nil.
Defined.

(** X13: the inverter settles after any sequence of input changes: its
    input holds the boolean set last and its output the negation. *)
Theorem Not_settles (d : nat) (script : list (string * bool)) :
  (circuit_depth <= d)%nat ->
  Forall (fun p => In p.1 ["A"]) script ->
  exists b,
    returns (drive_script Not d script ["A"; "B"])
    = Ok [input_value script "A"; b] /\
    forall a, input_value script "A" = VBool a -> b = VBool (negb a).
Proof.
  intros Hd Hs.
  destruct (sequence_sound Not circuit_depth d 2 ["A"] ["B"]
              not_table script sequence_check_Not Hd Hs)
    as (vo & E & L & P).
  destruct vo as [|b [|? ?]]; try discriminate L.
  exists b. split; [exact E|].
  intros a Ha. specialize (P [a]). simpl in P.
  rewrite Ha in P. specialize (P eq_refl).
  inversion P. auto.
Qed.

Lemma Not_settles_witness :
  exists b,
    returns (drive_script Not 24 [("A", true); ("A", false)] ["A"; "B"])
    = Ok [input_value [("A", true); ("A", false)] "A"; b] /\
    forall a, input_value [("A", true); ("A", false)] "A" = VBool a ->
              b = VBool (negb a).
Proof.
  apply (Not_settles 24 [("A", true); ("A", false)]).
  - unfold circuit_depth. lia.
  - repeat (apply List.Forall_cons; [simpl; auto 10|]).
    apply List.Forall_nil.
Defined.

(** ** Operands that are too short *)

Lemma fail_step {A B} (m m' : M A) (k : A -> M B) (K : A -> heap -> bool)
  (e : exn) (s h : heap) :
  local m -> below m m' -> wf s -> ext s h ->
  wpb m K s = true ->
  (forall a s' h', wf s' -> ext s' h' -> K a s' = true -> k a h' = Raise e) ->
  bind m' k h = Raise e.
Proof.
  intros Hl Hb W E Hc Hk. unfold wpb in Hc.
  destruct (m s) as [[[a s'] t]|] eqn:E1; [|discriminate].
  destruct (Hl _ _ _ _ W E1) as (W' & G & F).
  unfold bind. rewrite (Hb _ _ (F h E)).
  rewrite (Hk a s' (ov s' h) W' (ext_ov _ _ _ W' G E) Hc). reflexivity.
Qed.

Ltac fail_sim :=
  match goal with
  | H : wpb ?m ?K ?s = true, W : wf ?s, E : ext ?s ?h
    |- bind ?m' ?k ?h = Raise ?e =>
      apply (fail_step m m' k K e s h);
      [ auto with local_db | solve [ below_step ] | exact W | exact E
      | exact H | clear H W E; intros ? ? ? W E H ]
  end.

Lemma conn_of_inv (o : ref) (f : string) (h h' : heap) (r : ref)
  (t : trace) :
  conn_of o f h = Ok (r, h', t) -> h' = h /\ t = [].
Proof.
  unfold conn_of, bind, get_obj. destruct (objs h !! o) as [ob|]; [|discriminate].
  destruct (assoc f (lc_attrs ob)) as [[c|]|]; try discriminate.
  unfold ret. intros H. inversion H. auto.
Qed.

(** If [o.<f>.set(v)] succeeds on a part of the heap, [o.<f>] is found in
    the whole heap. *)
Lemma set_at_conn (d : nat) (o : ref) (f : string) (v : pyval)
  (s s' h : heap) (u : unit) (t : trace) :
  wf s -> ext s h -> set_at d o f v s = Ok (u, s', t) ->
  exists r, conn_of o f h = Ok (r, h, []).
Proof.
  intros W E H. unfold set_at, bind in H.
  destruct (conn_of o f s) as [[[r s0] t0]|] eqn:Ec; [|discriminate].
  destruct (conn_of_inv _ _ _ _ _ _ Ec) as [-> ->].
  destruct (local_conn_of o f s _ _ _ W Ec) as (_ & _ & F).
  exists r. rewrite (F h E), (ov_self _ _ E). reflexivity.
Qed.

Lemma set_bit_index_error (d : nat) (o : ref) (f : string) (a : pyseq)
  (i : nat) (h : heap) (r : ref) :
  conn_of o f h = Ok (r, h, []) -> bit a i = Raise IndexError ->
  set_bit d o f a i h = Raise IndexError.
Proof.
  intros Hc Hb. unfold set_bit, bind. rewrite Hc, Hb. reflexivity.
Qed.

Lemma bit_short (a : string) :
  (String.length a < 8)%nat -> bit (SStr a) 7 = Raise IndexError.
Proof.
  intros H.
  destruct a as [|c0 [|c1 [|c2 [|c3 [|c4 [|c5 [|c6 [|c7 ?]]]]]]]];
    try reflexivity.
  simpl in H. lia.
Qed.

Lemma bit_long (a : string) :
  (8 <= String.length a)%nat -> exists x, bit (SStr a) 7 = Ok x.
Proof.
  intros H.
  destruct a as [|c0 [|c1 [|c2 [|c3 [|c4 [|c5 [|c6 [|c7 ?]]]]]]]];
    simpl in H; try lia.
  eexists. reflexivity.
Qed.

(** The first stage of a checked chain can be driven. *)
Lemma chain_first_stage (ev : bool) (d0 : nat) (F : ref) (i : nat)
  (Fs : list (ref * nat)) (s : heap) (x : bool) :
  chain_ok ev d0 ((F, i) :: Fs) s = true ->
  exists u1 s1 t1 u2 s2 t2,
    set_at d0 F "A" (VBool x) s = Ok (u1, s1, t1) /\
    set_at d0 F "B" (VBool false) s1 = Ok (u2, s2, t2).
Proof.
  intros H. unfold chain_ok in H. apply andb_true_iff in H as [_ H].
  cbn [explore] in H.
  destruct (explore_head ev d0 Fs (next_states ev d0 F Fs [s])) as [Rs HRs].
  rewrite HRs in H. cbn [dp_check] in H. apply andb_true_iff in H as [H _].
  unfold stage_ok in H. rewrite forallb_forall in H.
  specialize (H s (or_introl eq_refl)).
  destruct (peek s F "Cin"); [|discriminate].
  rewrite forallb_forall in H. specialize (H x (In_bools x)).
  rewrite forallb_forall in H. specialize (H false (In_bools false)).
  unfold stage, bind in H.
  destruct (set_at d0 F "A" (VBool x) s) as [[[u1 s1] t1]|];
    [|discriminate].
  destruct (set_at d0 F "B" (VBool false) s1) as [[[u2 s2] t2]|] eqn:E2;
    [|discriminate].
  exists u1, s1, t1, u2, s2, t2. split; [reflexivity|exact E2].
Qed.

Lemma chain_index_error (ev : bool) (d0 d : nat) (a b : string)
  (F0 F1 F2 F3 F4 F5 F6 F7 : ref) (s h : heap) :
  (d0 <= d)%nat ->
  chain_ok ev d0
    [(F0, 7); (F1, 6); (F2, 5); (F3, 4); (F4, 3); (F5, 2); (F6, 1); (F7, 0)]%nat
    s = true ->
  wf s -> ext s h ->
  (String.length a < 8)%nat \/
  ((8 <= String.length a)%nat /\ (String.length b < 8)%nat) ->
  stages ev d (SStr a) (SStr b)
    [(F0, 7); (F1, 6); (F2, 5); (F3, 4); (F4, 3); (F5, 2); (F6, 1); (F7, 0)]%nat
    (read_sums F0 F1 F2 F3 F4 F5 F6 F7) h = Raise IndexError.
Proof.
  intros Hd Hc W E Hlen. cbn [stages].
  destruct Hlen as [Ha|[Ha Hb]].
  - destruct (chain_first_stage ev d0 F0 7 _ s false Hc)
      as (u1 & s1 & t1 & _ & _ & _ & E1 & _).
    destruct (set_at_conn _ _ _ _ _ _ _ _ _ W E E1) as [r Hr].
    unfold bind at 1.
    rewrite (set_bit_index_error d F0 "A" (SStr a) 7 h r Hr (bit_short a Ha)).
    reflexivity.
  - destruct (bit_long a Ha) as [x Hx].
    destruct (chain_first_stage ev d0 F0 7 _ s x Hc)
      as (u1 & s1 & t1 & u2 & s2 & t2 & E1 & E2).
    destruct (local_set_at d0 F0 "A" (VBool x) s _ _ _ W E1) as (W1 & G1 & F).
    pose proof (below_bit d0 d F0 "A" (SStr a) 7 x Hd Hx _ _ (F h E)) as R1.
    unfold bind at 1. rewrite R1.
    destruct (set_at_conn _ _ _ _ _ _ _ _ _ W1 (ext_ov _ _ _ W1 G1 E) E2)
      as [r Hr].
    unfold bind at 1.
    rewrite (set_bit_index_error d F0 "B" (SStr b) 7 _ r Hr (bit_short b Hb)).
    reflexivity.
Qed.

(** X14: operands shorter than 8 characters raise [IndexError].
    [addcarry(a, b)] and [increment(a, b)] raise it when [a] has fewer than
    8 characters, and when [a] has at least 8 but [b] has fewer: the first
    bit read of each operand is its character 7. *)
Theorem adders_index_error (d : nat) (a b : string) :
  (adder_depth <= d)%nat ->
  (String.length a < 8)%nat \/
  ((8 <= String.length a)%nat /\ (String.length b < 8)%nat) ->
  returns (addcarry d (SStr a) (SStr b)) = Raise IndexError /\
  returns (increment d (SStr a) (SStr b)) = Raise IndexError.
Proof.
  intros Hd Hlen. split.
  - assert (H : addcarry d (SStr a) (SStr b) empty_heap = Raise IndexError).
    { pose proof addcarry_check_ok as H. pose proof wf_empty_heap as W.
      pose proof (ext_refl _ wf_empty_heap) as E.
      unfold addcarry_check in H. unfold addcarry.
      do 16 fail_sim.
      eapply (chain_index_error false adder_depth d a b); eassumption. }
    unfold returns. rewrite H. reflexivity.
  - assert (H : increment d (SStr a) (SStr b) empty_heap = Raise IndexError).
    { pose proof increment_check_ok as H. pose proof wf_empty_heap as W.
      pose proof (ext_refl _ wf_empty_heap) as E.
      unfold increment_check in H. unfold increment.
      do 16 fail_sim.
      eapply (chain_index_error true adder_depth d a b); eassumption. }
    unfold returns. rewrite H. reflexivity.
Qed.

Lemma adders_index_error_witness :
  returns (addcarry 28 (SStr "00000001") (SStr "1")) = Raise IndexError /\
  returns (increment 28 (SStr "00000001") (SStr "1")) = Raise IndexError.
Proof.
  apply (adders_index_error 28 "00000001" "1").
  - unfold adder_depth. lia.
  - right. simpl. lia.
Defined.

Lemma inverters_short {A} (mk : string -> M ref) (d0 d : nat)
  (nc no : positive) (base h : heap) (a : string)
  (fin : list pyval -> M A) :
  inverters_check mk d0 nc no base = true ->
  (forall n, local (mk n)) ->
  wf base -> ext base h -> (String.length a < 8)%nat ->
  inverters mk d (SStr a) fin h = Raise IndexError.
Proof.
  intros H Hmk W E Ha.
  unfold inverters_check in H. unfold inverters.
  do 8 fail_sim.
  apply (allb_elim _ _ false) in H; cbv beta in H.
  unfold wpb in H.
  match type of H with
  | match set_at ?d0 ?F "A" (VBool false) ?s with _ => _ end = true =>
      destruct (set_at d0 F "A" (VBool false) s) as [[[u1 s1] t1]|] eqn:E1;
        [|discriminate];
      destruct (set_at_conn _ _ _ _ _ _ _ _ _ W E E1) as [r Hr];
      unfold bind at 1;
      rewrite (set_bit_index_error d F "A" (SStr a) 7 _ r Hr (bit_short a Ha))
  end.
  reflexivity.
Qed.

Lemma returns_bind_raise {A B} (m : M A) (k : A -> M B) (e : exn) :
  returns m = Raise e -> returns (bind m k) = Raise e.
Proof.
  unfold returns, bind. destruct (m empty_heap) as [[[x h] t]|]; [discriminate|].
  intros H. inversion H. reflexivity.
Qed.

(** X15: the inverter routines raise [IndexError] on an operand shorter
    than 8 characters.  [complementOne], [negateNumber] and [PassTrough]
    read character 7 of their operand first; [Substraction] negates its
    second operand before it looks at the first. *)
Theorem inverters_index_error_short (d : nat) (a b : string) :
  (inverter_depth <= d)%nat -> (String.length b < 8)%nat ->
  returns (complementOne d (SStr b)) = Raise IndexError /\
  returns (negateNumber d (SStr b)) = Raise IndexError /\
  returns (PassTrough d (SStr b)) = Raise IndexError /\
  returns (Substraction d (SStr a) (SStr b)) = Raise IndexError.
Proof.
  intros Hd Hb.
  assert (C : returns (complementOne d (SStr b)) = Raise IndexError).
  { unfold returns.
    change (complementOne d (SStr b)) with (inverters mkNot d (SStr b) ret).
    rewrite (inverters_short mkNot inverter_depth d 17 9
               empty_heap empty_heap b ret inverters_check_Not local_mkNot
               wf_empty_heap (ext_refl _ wf_empty_heap) Hb).
    reflexivity. }
  assert (N : returns (negateNumber d (SStr b)) = Raise IndexError).
  { unfold negateNumber. apply returns_bind_raise. exact C. }
  split; [exact C|]. split; [exact N|]. split.
  - unfold returns.
    change (PassTrough d (SStr b))
      with (inverters Not_Not d (SStr b) (fun l => lift (toString l))).
    rewrite (inverters_short Not_Not inverter_depth d 33 17
               empty_heap empty_heap b _ inverters_check_Not_Not local_Not_Not
               wf_empty_heap (ext_refl _ wf_empty_heap) Hb).
    reflexivity.
  - unfold Substraction. apply returns_bind_raise. exact N.
Qed.

Lemma inverters_index_error_short_witness :
  returns (complementOne 2 (SStr "1011")) = Raise IndexError /\
  returns (negateNumber 2 (SStr "1011")) = Raise IndexError /\
  returns (PassTrough 2 (SStr "1011")) = Raise IndexError /\
  returns (Substraction 2 (SStr "00000001") (SStr "1011")) = Raise IndexError.
Proof.
  apply (inverters_index_error_short 2 "00000001" "1011").
  - unfold inverter_depth. lia.
  - simpl. lia.
Defined.

(** ** What [Substraction] prints *)

Lemma stdout_lines_app (t1 t2 : trace) :
  stdout_lines (t1 ++ t2)%list
  = (stdout_lines t1 ++ stdout_lines t2)%list.
Proof.
  induction t1 as [|e t1 IH]; [reflexivity|].
  destruct e; simpl; rewrite IH; reflexivity.
Qed.

Create HintDb quiet_db discriminated.

Lemma quiet_ret {A} (a : A) : quiet (ret a).
Proof. intros h a' h' t H. inversion H; subst. reflexivity. Qed.

Lemma quiet_raise {A} (e : exn) : quiet (@raise A e).
Proof. intros h a h' t H. discriminate. Qed.

Lemma quiet_tell_evaluated (o : ref) : quiet (tell [Evaluated o]).
Proof. intros h a' h' t' H. inversion H; subst. reflexivity. Qed.

Lemma quiet_tell_monitor (o : pyname) (n : string) (v : pyval) :
  quiet (tell [Monitor o n v]).
Proof. intros h a' h' t' H. inversion H; subst. reflexivity. Qed.

Lemma quiet_lift {A} (r : result A) : quiet (lift r).
Proof.
  intros h a' h' t' H. unfold lift in H.
  destruct r; inversion H; subst. reflexivity.
Qed.

Lemma quiet_get_conn (c : ref) : quiet (get_conn c).
Proof.
  intros h a h' t H. unfold get_conn in H.
  destruct (conns h !! c); inversion H; subst. reflexivity.
Qed.

Lemma quiet_get_obj (o : ref) : quiet (get_obj o).
Proof.
  intros h a h' t H. unfold get_obj in H.
  destruct (objs h !! o); inversion H; subst. reflexivity.
Qed.

Lemma quiet_put_conn (c : ref) (con : Connector) : quiet (put_conn c con).
Proof. intros h a h' t H. inversion H; subst. reflexivity. Qed.

Lemma quiet_put_obj (o : ref) (ob : LC) : quiet (put_obj o ob).
Proof. intros h a h' t H. inversion H; subst. reflexivity. Qed.

Lemma quiet_alloc_conn (con : Connector) : quiet (alloc_conn con).
Proof. intros h a h' t H. inversion H; subst. reflexivity. Qed.

Lemma quiet_alloc_obj (ob : LC) : quiet (alloc_obj ob).
Proof. intros h a h' t H. inversion H; subst. reflexivity. Qed.

Lemma quiet_bind {A B} (m : M A) (k : A -> M B) :
  quiet m -> (forall a, quiet (k a)) -> quiet (bind m k).
Proof.
  intros Hm Hk h b h2 t H. unfold bind in H.
  destruct (m h) as [[[a h1] t1]|] eqn:E1; [|discriminate].
  destruct (k a h1) as [[[b' h2'] t2]|] eqn:E2; [|discriminate].
  inversion H; subst; clear H.
  rewrite stdout_lines_app, (Hm _ _ _ _ E1), (Hk _ _ _ _ _ E2). reflexivity.
Qed.

#[local] Hint Resolve quiet_ret quiet_raise quiet_tell_evaluated
  quiet_tell_monitor quiet_lift quiet_get_conn quiet_get_obj quiet_put_conn
  quiet_put_obj quiet_alloc_conn quiet_alloc_obj : quiet_db.

Ltac quiet_step :=
  first [ solve [ auto with quiet_db ]
        | apply quiet_bind; [ | intros ? ]
        | match goal with
          | |- quiet (match ?x with _ => _ end) => destruct x
          | |- quiet (if ?x then _ else _) => destruct x
          end ].

Ltac quiet_auto := repeat quiet_step.

Lemma quiet_for_each {A} (l : list A) (body : A -> M unit) :
  (forall x, quiet (body x)) -> quiet (for_each l body).
Proof. intros H. induction l; simpl; quiet_auto. Qed.

Lemma quiet_setattr (self : ref) (field : string) (a : attr) :
  quiet (setattr self field a).
Proof. unfold setattr. quiet_auto. Qed.

Lemma quiet_conn_of (self : ref) (field : string) :
  quiet (conn_of self field).
Proof. unfold conn_of. quiet_auto. Qed.

Lemma quiet_obj_of (self : ref) (field : string) : quiet (obj_of self field).
Proof. unfold obj_of. quiet_auto. Qed.

Lemma quiet_value_of (c : ref) : quiet (value_of c).
Proof. unfold value_of. quiet_auto. Qed.

#[local] Hint Resolve quiet_setattr quiet_conn_of quiet_obj_of
  quiet_value_of : quiet_db.

Lemma quiet_new_Connector (own : ref) (nm : string) (act mon : Z) :
  quiet (new_Connector own nm act mon).
Proof. unfold new_Connector. quiet_auto. Qed.

Lemma quiet_connect (self : ref) (inputs : connect_arg) :
  quiet (connect self inputs).
Proof. unfold connect. apply quiet_for_each. intros x. quiet_auto. Qed.

Lemma quiet_conn_path (path : list string) (self : ref) :
  quiet (conn_path self path).
Proof.
  revert self. induction path as [|f rest IH]; intros self; simpl.
  - auto with quiet_db.
  - destruct rest; [auto with quiet_db|]. quiet_auto.
Qed.

#[local] Hint Resolve quiet_new_Connector quiet_connect quiet_conn_path
  : quiet_db.

Lemma quiet_wire (self : ref) (src : list string) (dsts : list (list string)) :
  quiet (wire self src dsts).
Proof.
  unfold wire. quiet_auto.
  induction dsts; quiet_auto.
Qed.

Lemma quiet_sub (self : ref) (field : string) (mk : pyname -> M ref)
  (nm : string) :
  (forall n, quiet (mk n)) -> quiet (sub self field mk nm).
Proof. intros H. unfold sub. quiet_auto. Qed.

Lemma quiet_Not (nm : pyname) : quiet (Not nm).
Proof. unfold Not, LC_init. quiet_auto. Qed.

Lemma quiet_Gate2 (cls : pyclass) (nm : pyname) : quiet (Gate2 cls nm).
Proof. unfold Gate2, LC_init. quiet_auto. Qed.

Lemma quiet_And (nm : pyname) : quiet (And nm).
Proof. apply quiet_Gate2. Qed.

Lemma quiet_Or (nm : pyname) : quiet (Or nm).
Proof. apply quiet_Gate2. Qed.

#[local] Hint Resolve quiet_wire quiet_Not quiet_Gate2 quiet_And quiet_Or
  : quiet_db.

Lemma quiet_Xor (nm : pyname) : quiet (Xor nm).
Proof. unfold Xor. quiet_auto; apply quiet_sub; auto with quiet_db. Qed.

#[local] Hint Resolve quiet_Xor : quiet_db.

Lemma quiet_HalfAdder (nm : pyname) : quiet (HalfAdder nm).
Proof.
  unfold HalfAdder, LC_init. quiet_auto; apply quiet_sub; auto with quiet_db.
Qed.

#[local] Hint Resolve quiet_HalfAdder : quiet_db.

Lemma quiet_FullAdder (nm : pyname) : quiet (FullAdder nm).
Proof.
  unfold FullAdder, LC_init. quiet_auto; apply quiet_sub; auto with quiet_db.
Qed.

#[local] Hint Resolve quiet_FullAdder : quiet_db.

Lemma quiet_evaluate (set' : ref -> pyval -> M unit) (self : ref) :
  (forall c v, quiet (set' c v)) -> quiet (evaluate set' self).
Proof. intros H. unfold evaluate. quiet_auto. Qed.

Lemma quiet_set (depth : nat) (self : ref) (v : pyval) :
  quiet (set depth self v).
Proof.
  revert self v. induction depth as [|d IH]; intros self v; simpl.
  - auto with quiet_db.
  - quiet_auto; try (apply quiet_evaluate; apply IH).
    apply quiet_for_each. intros. apply IH.
Qed.

#[local] Hint Resolve quiet_evaluate quiet_set : quiet_db.

Lemma quiet_set_at (depth : nat) (o : ref) (field : string) (v : pyval) :
  quiet (set_at depth o field v).
Proof. unfold set_at. quiet_auto. Qed.

Lemma quiet_set_bit (depth : nat) (o : ref) (field : string) (x : pyseq)
  (i : nat) : quiet (set_bit depth o field x i).
Proof. unfold set_bit. quiet_auto. Qed.

Lemma quiet_value_at (o : ref) (field : string) : quiet (value_at o field).
Proof. unfold value_at. quiet_auto. Qed.

Lemma quiet_connect_at (src : ref) (f : string) (dst : ref) (g : string) :
  quiet (connect_at src f dst g).
Proof. unfold connect_at. quiet_auto. Qed.

Lemma quiet_FullAdder_And (nm : string) : quiet (FullAdder_And nm).
Proof. unfold FullAdder_And. quiet_auto. Qed.

#[local] Hint Resolve quiet_set_at quiet_set_bit quiet_value_at
  quiet_connect_at quiet_FullAdder_And : quiet_db.

Lemma quiet_addcarry (d : nat) (a b : pyseq) : quiet (addcarry d a b).
Proof. unfold addcarry. quiet_auto. Qed.

Lemma quiet_increment (d : nat) (a b : pyseq) : quiet (increment d a b).
Proof. unfold increment. quiet_auto. Qed.

Lemma quiet_complementOne (d : nat) (a : pyseq) : quiet (complementOne d a).
Proof. unfold complementOne. quiet_auto. Qed.

Lemma quiet_negateNumber (d : nat) (a : pyseq) : quiet (negateNumber d a).
Proof.
  unfold negateNumber. apply quiet_bind; [apply quiet_complementOne|].
  intros r. apply quiet_increment.
Qed.

(** Two checks of the same routine carried along together. *)
Lemma sim_step2 {A B} (m m' : M A) (k : A -> M B) (K1 K2 : A -> heap -> bool)
  (Q : B -> heap -> Prop) (s h : heap) :
  local m -> below m m' -> wf s -> ext s h ->
  wpb m K1 s = true -> wpb m K2 s = true ->
  (forall a s' h', wf s' -> ext s' h' -> K1 a s' = true -> K2 a s' = true ->
                   wp (k a) Q h') ->
  wp (bind m' k) Q h.
Proof.
  intros Hl Hb W E Hc1 Hc2 Hk. unfold wpb in Hc1, Hc2.
  destruct (m s) as [[[a s'] t]|] eqn:E1; [|discriminate].
  destruct (Hl _ _ _ _ W E1) as (W' & G & F).
  apply wp_bind. exists a, (ov s' h), t. split.
  - apply Hb. apply F. assumption.
  - apply (Hk a s'); auto. eapply ext_ov; eassumption.
Qed.

Ltac sim2 H1 H2 :=
  match goal with
  | W : wf ?s, E : ext ?s ?h |- wp (bind ?m' ?k) ?Q ?h =>
      match type of H1 with
      | wpb ?m ?K1 s = true =>
          match type of H2 with
          | wpb m ?K2 s = true =>
              apply (sim_step2 m m' k K1 K2 Q s h);
              [ auto with local_db | solve [ below_step ] | exact W | exact E
              | exact H1 | exact H2
              | clear H1 H2 W E; intros ? ? ? W E H1 H2 ]
          end
      end
  end.

Lemma increment_counters_after_bank :
  increment_counters adder_depth 473 161 (blank 17 9) = true.
Proof. vm_compute. reflexivity. Qed.

Lemma addcarry_check_after_negate :
  addcarry_check adder_depth (blank 473 161) = true.
Proof. vm_compute. reflexivity. Qed.

Lemma increment_sound_counters (d0 d : nat) (nc no : positive)
  (base h : heap) (a b : pyseq) (xs ys : list bool) :
  increment_check d0 base = true ->
  increment_counters d0 nc no base = true ->
  wf base -> ext base h -> (d0 <= d)%nat -> bits_of a b idx8 xs ys ->
  wp (increment d a b)
     (fun r h' => r = adder_result xs ys /\ wf h' /\
                  next_conn h' = nc /\ next_obj h' = no) h.
Proof.
  intros H H' W E Hd Hb.
  unfold increment_check in H. unfold increment_counters in H'.
  unfold increment.
  do 16 sim2 H H'.
  apply andb_true_iff in H' as [N1 N2].
  apply bool_decide_eq_true in N1, N2.
  eapply wp_weaken; [|eapply (chain_sound true d0 d a b); eassumption].
  simpl. intros r h2 (-> & ? & M1 & M2).
  destruct E as (_ & _ & E1 & E2 & _).
  split; [reflexivity|]. split; [assumption|]. split; congruence.
Qed.

Lemma negateNumber_wp (d : nat) (b : string) :
  (adder_depth <= d)%nat -> String.length b = 8%nat ->
  wp (negateNumber d (SStr b))
     (fun r h =>
        r = map VBool ((bin_value b =? 0)%Z
                       :: to_bits8 ((256 - bin_value b) mod 256)) /\
        wf h /\ next_conn h = 473%positive /\ next_obj h = 161%positive)
     empty_heap.
Proof.
  intros Hd La.
  unfold negateNumber. apply wp_bind.
  eapply wp_weaken;
    [|apply complementOne_wp;
      [unfold inverter_depth, adder_depth in *; lia|assumption]].
  cbv beta zeta. intros r h (-> & W & N1 & N2).
  fold (reencode (map VBool (map negb (msb_bits b)))).
  rewrite reencode_bools.
  assert (L : String.length (bit_string (map negb (msb_bits b))) = 8%nat).
  { rewrite bit_string_length, length_map, msb_bits_length. assumption. }
  change (map VBool ((bin_value b =? 0)%Z
                     :: to_bits8 ((256 - bin_value b) mod 256)))
    with (VBool (bin_value b =? 0)%Z
          :: map VBool (to_bits8 ((256 - bin_value b) mod 256))).
  rewrite <- (negate_result_value b La).
  replace (map negb (lsb_bits b))
    with (lsb_bits (bit_string (map negb (msb_bits b)))).
  2:{ unfold lsb_bits. rewrite msb_bits_bit_string, map_rev. reflexivity. }
  apply (increment_sound_counters adder_depth d 473 161 (blank 17 9) h _ _
           _ _ increment_check_after_bank increment_counters_after_bank);
    auto using wf_blank, ext_blank_at, bits_of_pair, bits_at_string.
Qed.

(** The bits [addcarry] reads of the 9-character string. *)
Lemma bits_at_shifted (c : bool) (n : Z) :
  bits_at (SStr (bit_string (c :: to_bits8 n))) idx8 (shifted_bits c n).
Proof.
  unfold to_bits8, shifted_bits, idx8, bit_string.
  cbn [map app string_of_list_ascii bits_at bit String.get].
  rewrite !bit_char_eqb. repeat split; reflexivity.
Qed.

Lemma shifted_bits_length (c : bool) (n : Z) :
  length (shifted_bits c n) = 8%nat.
Proof. reflexivity. Qed.

Lemma shifted_bits_value (c : bool) (n : Z) :
  0 <= n < 256 -> val_lsb (shifted_bits c n) = n / 2 + 128 * Z.b2z c.
Proof.
  intros H. pose proof (val_to_bits8 n H) as V.
  unfold to_bits8, shifted_bits, val_lsb in *.
  cbn [map rev app fold_right] in *. revert V.
  destruct (Z.testbit n 0), (Z.testbit n 1), (Z.testbit n 2), (Z.testbit n 3),
    (Z.testbit n 4), (Z.testbit n 5), (Z.testbit n 6), (Z.testbit n 7), c;
    cbn [Z.b2z]; intros V; rewrite <- V; reflexivity.
Qed.

Lemma val_lsb_app (l : list bool) (c : bool) :
  val_lsb (l ++ [c]) = val_lsb l + 2 ^ Z.of_nat (length l) * Z.b2z c.
Proof.
  induction l as [|x l IH]; cbn [app val_lsb fold_right length].
  - change (2 ^ Z.of_nat 0) with 1. lia.
  - fold (val_lsb (l ++ [c])). fold (val_lsb l).
    rewrite IH, Nat2Z.inj_succ, Z.pow_succ_r by lia. lia.
Qed.

Lemma bind_ok {A B} (m : M A) (k : A -> M B) (h h1 h2 : heap) (a : A)
  (b : B) (t1 t2 : trace) :
  m h = Ok (a, h1, t1) -> k a h1 = Ok (b, h2, t2) ->
  bind m k h = Ok (b, h2, (t1 ++ t2)%list).
Proof. intros E1 E2. unfold bind. rewrite E1, E2. reflexivity. Qed.

Lemma lift_ok {A} (r : result A) (x : A) (h : heap) :
  r = Ok x -> lift r h = Ok (x, h, []).
Proof. intros ->. reflexivity. Qed.

(** X16: what [Substraction] computes.  For 8-character operands it
    returns [None] and its [print] writes one line of 9 binary digits, the
    carry and sum of [a] and the first 8 of the 9 digits of
    [negateNumber(b)]: as a number, [a + 128] when [b] is zero and
    [a + (256 - b) / 2] otherwise. *)
Theorem Substraction_prints (d : nat) (a b : string) :
  (adder_depth <= d)%nat ->
  String.length a = 8%nat -> String.length b = 8%nat ->
  exists l,
    length l = 9%nat /\
    printed (Substraction d (SStr a) (SStr b)) = Ok (VNone, [bit_string l]) /\
    bin_value (bit_string l)
    = (bin_value a
       + (if bin_value b =? 0 then 128 else (256 - bin_value b) / 2))%Z.
Proof.
  intros Hd La Lb.
  pose proof (bin_value_bounds a La) as Ba.
  pose proof (bin_value_bounds b Lb) as Bb.
  set (c1 := (bin_value b =? 0)%Z).
  set (n := ((256 - bin_value b) mod 256)%Z).
  assert (Bn : 0 <= n < 256) by (apply Z.mod_pos_bound; lia).
  pose proof (shifted_bits_value c1 n Bn) as V.
  set (S := (bin_value a + val_lsb (shifted_bits c1 n))%Z).
  exists ((256 <=? S)%Z :: to_bits8 (S mod 256)).
  split; [reflexivity|]. split.
  - destruct (negateNumber_wp d b Hd Lb)
      as (r1 & h1 & t1 & E1 & -> & W1 & N1 & N2).
    fold c1 n in E1.
    pose proof (quiet_negateNumber _ _ _ _ _ _ E1) as Q1.
    destruct (addcarry_sound adder_depth d (blank 473 161) h1 (SStr a)
                (SStr (bit_string (c1 :: to_bits8 n)))
                (lsb_bits a) (shifted_bits c1 n)
                addcarry_check_after_negate (wf_blank _ _)
                (ext_blank_at h1 _ _ W1 N1 N2) Hd
                (bits_of_pair _ _ _ _ _ (bits_at_string a La)
                   (bits_at_shifted c1 n)))
      as (r3 & h3 & t3 & E3 & -> & W3).
    pose proof (quiet_addcarry _ _ _ _ _ _ _ E3) as Q3.
    rewrite adder_result_value in E3
      by (try apply lsb_bits_length; try apply shifted_bits_length;
          assumption).
    rewrite <- bin_value_lsb in E3. fold S in E3.
    assert (R : Substraction d (SStr a) (SStr b) empty_heap
                = Ok (VNone, h3,
                      (t1 ++ [] ++ t3 ++ [] ++
                       [Stdout (bit_string ((256 <=? S)%Z
                                            :: to_bits8 (S mod 256)))]
                       ++ [])%list)).
    { unfold Substraction.
      eapply bind_ok; [exact E1|]. cbv beta.
      eapply bind_ok; [apply lift_ok; apply toString_bools|]. cbv beta.
      eapply bind_ok; [exact E3|]. cbv beta.
      eapply bind_ok;
        [apply lift_ok;
         apply (toString_bools ((256 <=? S)%Z :: to_bits8 (S mod 256)))|].
      reflexivity. }
    unfold printed. rewrite R.
    rewrite !stdout_lines_app, Q1, Q3. reflexivity.
  - rewrite val_lsb_bit_string. cbn [rev].
    rewrite val_lsb_app, length_rev, to_bits8_length.
    change (2 ^ Z.of_nat 8) with 256.
    assert (Hn : 0 <= n / 2 < 128).
    { split; [apply Z.div_pos; lia|apply Z.div_lt_upper_bound; lia]. }
    assert (BS : (0 <= S < 512)%Z).
    { unfold S. rewrite V. destruct c1; cbn [Z.b2z]; lia. }
    rewrite val_to_bits8 by (apply Z.mod_pos_bound; lia).
    assert (ES : (S mod 256 + 256 * Z.b2z (256 <=? S) = S)%Z).
    { destruct (Z.leb_spec 256 S); cbn [Z.b2z].
      - rewrite <- (Z.mod_unique_pos S 256 1 (S - 256)); lia.
      - rewrite Z.mod_small by lia. lia. }
    rewrite ES. unfold S. rewrite V. f_equal.
    unfold c1, n. destruct (Z.eqb_spec (bin_value b) 0) as [E0|E0];
      cbn [Z.b2z].
    + rewrite E0. reflexivity.
    + rewrite Z.mod_small by lia. lia.
Qed.

Lemma Substraction_prints_witness :
  exists l,
    length l = 9%nat /\
    printed (Substraction 28 (SStr "00000101") (SStr "00000011"))
    = Ok (VNone, [bit_string l]) /\
    bin_value (bit_string l)
    = (bin_value "00000101"
       + (if bin_value "00000011" =? 0 then 128
          else (256 - bin_value "00000011") / 2))%Z.
Proof.
  apply (Substraction_prints 28 "00000101" "00000011").
  - unfold adder_depth. lia.
  - reflexivity.
  - reflexivity.
Defined.

(** ** Operands given as lists *)

Lemma bit_list (l : list pyval) (i : nat) :
  (i < length l)%nat -> bit (SList l) i = Ok false.
Proof.
  intros H. unfold bit.
  destruct (nth_error l i) eqn:E; [reflexivity|].
  apply nth_error_None in E. lia.
Qed.

Lemma bits_at_list (l : list pyval) :
  (8 <= length l)%nat -> bits_at (SList l) idx8 (repeat false 8).
Proof.
  intros H. unfold idx8. cbn [repeat bits_at].
  repeat split; apply bit_list; lia.
Qed.

(** X17: an operand given as a list is read as zero.  [bit] compares each
    element with the character ['1'], which no connector value ([None], a
    boolean or an integer) equals, so for lists of at least 8 such values
    the adders return nine [False], [complementOne] returns eight [True]
    and [PassTrough] returns "11111111". *)
Theorem list_operands_read_as_zero (d : nat) (l1 l2 : list pyval) :
  (adder_depth <= d)%nat ->
  (8 <= length l1)%nat -> (8 <= length l2)%nat ->
  returns (addcarry d (SList l1) (SList l2)) = Ok (repeat (VBool false) 9) /\
  returns (increment d (SList l1) (SList l2)) = Ok (repeat (VBool false) 9) /\
  returns (complementOne d (SList l1)) = Ok (repeat (VBool true) 8) /\
  returns (PassTrough d (SList l1)) = Ok "11111111".
Proof.
  intros Hd L1 L2.
  assert (Hi : (inverter_depth <= d)%nat)
    by (unfold inverter_depth, adder_depth in *; lia).
  pose proof (bits_of_pair _ _ _ _ _ (bits_at_list l1 L1) (bits_at_list l2 L2))
    as Hb.
  split; [|split; [|split]].
  - apply (wp_returns _ _ wf).
    apply (addcarry_sound adder_depth d empty_heap empty_heap _ _ _ _
             addcarry_check_ok wf_empty_heap (ext_refl _ wf_empty_heap)
             Hd Hb).
  - apply (wp_returns _ _ wf).
    apply (increment_sound adder_depth d empty_heap empty_heap _ _ _ _
             increment_check_ok wf_empty_heap (ext_refl _ wf_empty_heap)
             Hd Hb).
  - apply (wp_returns _ _ wf).
    change (complementOne d (SList l1)) with (inverters mkNot d (SList l1) ret).
    apply (inverters_sound mkNot inverter_depth d 17 9 empty_heap empty_heap
             (SList l1) (repeat false 8) ret _ inverters_check_Not local_mkNot
             wf_empty_heap (ext_refl _ wf_empty_heap) Hi (bits_at_list l1 L1)).
    intros h' W N1 N2. apply wp_ret. auto.
  - apply (wp_returns _ _ wf).
    change (PassTrough d (SList l1))
      with (inverters Not_Not d (SList l1) (fun l => lift (toString l))).
    apply (inverters_sound Not_Not inverter_depth d 33 17 empty_heap
             empty_heap (SList l1) (repeat false 8) _ _
             inverters_check_Not_Not local_Not_Not
             wf_empty_heap (ext_refl _ wf_empty_heap) Hi (bits_at_list l1 L1)).
    intros h' W N1 N2. exists "11111111", h', []. auto.
Qed.

Lemma list_operands_read_as_zero_witness :
  returns (addcarry 28 (SList (repeat (VBool true) 8))
             (SList (repeat (VInt 1) 8)))
  = Ok (repeat (VBool false) 9) /\
  returns (increment 28 (SList (repeat (VBool true) 8))
             (SList (repeat (VInt 1) 8)))
  = Ok (repeat (VBool false) 9) /\
  returns (complementOne 28 (SList (repeat (VBool true) 8)))
  = Ok (repeat (VBool true) 8) /\
  returns (PassTrough 28 (SList (repeat (VBool true) 8))) = Ok "11111111".
Proof.
  apply (list_operands_read_as_zero 28 (repeat (VBool true) 8)
           (repeat (VInt 1) 8)).
  - unfold adder_depth. lia.
  - simpl. lia.
  - simpl. lia.
Defined.

(** ** Monitored connectors *)

Lemma output_lines_app (t1 t2 : trace) :
  output_lines (t1 ++ t2)%list = (output_lines t1 ++ output_lines t2)%list.
Proof.
  induction t1 as [|e t1 IH]; [reflexivity|].
  destruct e; simpl; rewrite IH; reflexivity.
Qed.

Lemma unmonitored_wiring (h h' : heap) :
  wiring_kept h h' -> unmonitored h -> unmonitored h'.
Proof.
  intros (_ & _ & _ & K) U r con' L. specialize (K r). rewrite L in K.
  destruct (conns h !! r) as [con|] eqn:E; [|contradiction].
  destruct K as (_ & _ & Km & _). simpl. rewrite Km. exact (U r con E).
Qed.

Create HintDb silent_db discriminated.

Lemma silent_ret {A} (a : A) : silent (ret a).
Proof. intros h a' h' t U H. inversion H; subst. auto. Qed.

Lemma silent_raise {A} (e : exn) : silent (@raise A e).
Proof. intros h a h' t U H. discriminate. Qed.

Lemma silent_tell_evaluated (o : ref) : silent (tell [Evaluated o]).
Proof. intros h a' h' t' U H. inversion H; subst. auto. Qed.

Lemma silent_lift {A} (r : result A) : silent (lift r).
Proof.
  intros h a' h' t' U H. unfold lift in H.
  destruct r; inversion H; subst. auto.
Qed.

Lemma silent_get_conn (c : ref) : silent (get_conn c).
Proof. intros h a h' t U H. apply get_conn_inv in H as (-> & -> & _). auto. Qed.

Lemma silent_get_obj (o : ref) : silent (get_obj o).
Proof. intros h a h' t U H. apply get_obj_inv in H as (-> & -> & _). auto. Qed.

Lemma silent_put_obj (o : ref) (ob : LC) : silent (put_obj o ob).
Proof. intros h a h' t U H. inversion H; subst. auto. Qed.

Lemma silent_alloc_obj (ob : LC) : silent (alloc_obj ob).
Proof. intros h a h' t U H. inversion H; subst. auto. Qed.

Lemma silent_put_conn (c : ref) (con : Connector) :
  monitor con = 0 -> silent (put_conn c con).
Proof.
  intros Hm h a h' t U H. inversion H; subst. split; [|reflexivity].
  apply map_Forall_insert_2; assumption.
Qed.

Lemma silent_alloc_conn (con : Connector) :
  monitor con = 0 -> silent (alloc_conn con).
Proof.
  intros Hm h a h' t U H. inversion H; subst. split; [|reflexivity].
  apply map_Forall_insert_2; assumption.
Qed.

Lemma silent_bind {A B} (m : M A) (k : A -> M B) :
  silent m -> (forall a, silent (k a)) -> silent (bind m k).
Proof.
  intros Hm Hk h b h2 t U H. unfold bind in H.
  destruct (m h) as [[[a h1] t1]|] eqn:E1; [|discriminate].
  destruct (k a h1) as [[[b' h2'] t2]|] eqn:E2; [|discriminate].
  inversion H; subst; clear H.
  destruct (Hm _ _ _ _ U E1) as [U1 O1].
  destruct (Hk _ _ _ _ _ U1 E2) as [U2 O2].
  rewrite output_lines_app, O1, O2. auto.
Qed.

(** What [get_conn] reads on such a heap is not monitored. *)
Lemma silent_bind_get {B} (c : ref) (k : Connector -> M B) :
  (forall con, monitor con = 0 -> silent (k con)) ->
  silent (bind (get_conn c) k).
Proof.
  intros Hk h b h2 t U H. unfold bind in H.
  destruct (get_conn c h) as [[[con h1] t1]|] eqn:E1; [|discriminate].
  apply get_conn_inv in E1 as (-> & -> & L).
  destruct (k con h) as [[[b' h2'] t2]|] eqn:E2; [|discriminate].
  inversion H; subst; clear H.
  exact (Hk con (U c con L) _ _ _ _ U E2).
Qed.

#[local] Hint Resolve silent_ret silent_raise silent_tell_evaluated
  silent_lift silent_get_conn silent_get_obj silent_put_obj silent_alloc_obj
  : silent_db.

Ltac silent_step :=
  first [ solve [ auto with silent_db ]
        | apply silent_bind; [ | intros ? ]
        | match goal with
          | |- silent (match ?x with _ => _ end) => destruct x
          | |- silent (if ?x then _ else _) => destruct x
          end ].

Ltac silent_auto := repeat silent_step.

Lemma silent_for_each {A} (l : list A) (body : A -> M unit) :
  (forall x, silent (body x)) -> silent (for_each l body).
Proof. intros H. induction l; simpl; silent_auto. Qed.

Lemma silent_setattr (self : ref) (field : string) (a : attr) :
  silent (setattr self field a).
Proof. unfold setattr. silent_auto. Qed.

Lemma silent_conn_of (self : ref) (field : string) :
  silent (conn_of self field).
Proof. unfold conn_of. silent_auto. Qed.

Lemma silent_obj_of (self : ref) (field : string) :
  silent (obj_of self field).
Proof. unfold obj_of. silent_auto. Qed.

Lemma silent_value_of (c : ref) : silent (value_of c).
Proof. unfold value_of. silent_auto. Qed.

#[local] Hint Resolve silent_setattr silent_conn_of silent_obj_of
  silent_value_of : silent_db.

Lemma silent_new_Connector (own : ref) (nm : string) (act : Z) :
  silent (new_Connector own nm act 0).
Proof.
  unfold new_Connector.
  apply silent_bind; [apply silent_alloc_conn; reflexivity|].
  intros c. silent_auto.
Qed.

Lemma silent_connect (self : ref) (inputs : connect_arg) :
  silent (connect self inputs).
Proof.
  unfold connect. apply silent_for_each. intros x.
  apply silent_bind_get. intros con Hm.
  apply silent_put_conn. exact Hm.
Qed.

Lemma silent_conn_path (path : list string) (self : ref) :
  silent (conn_path self path).
Proof.
  revert self. induction path as [|f rest IH]; intros self; simpl.
  - auto with silent_db.
  - destruct rest; [auto with silent_db|]. silent_auto.
Qed.

#[local] Hint Resolve silent_new_Connector silent_connect silent_conn_path
  : silent_db.

Lemma silent_wire (self : ref) (src : list string)
  (dsts : list (list string)) :
  silent (wire self src dsts).
Proof.
  unfold wire. silent_auto.
  induction dsts; silent_auto.
Qed.

Lemma silent_sub (self : ref) (field : string) (mk : pyname -> M ref)
  (nm : string) :
  (forall n, silent (mk n)) -> silent (sub self field mk nm).
Proof. intros H. unfold sub. silent_auto. Qed.

Lemma silent_Not (nm : pyname) : silent (Not nm).
Proof. unfold Not, LC_init. silent_auto. Qed.

Lemma silent_Gate2 (cls : pyclass) (nm : pyname) : silent (Gate2 cls nm).
Proof. unfold Gate2, LC_init. silent_auto. Qed.

Lemma silent_And (nm : pyname) : silent (And nm).
Proof. apply silent_Gate2. Qed.

Lemma silent_Or (nm : pyname) : silent (Or nm).
Proof. apply silent_Gate2. Qed.

#[local] Hint Resolve silent_wire silent_Not silent_Gate2 silent_And
  silent_Or : silent_db.

Lemma silent_Xor (nm : pyname) : silent (Xor nm).
Proof. unfold Xor. silent_auto; apply silent_sub; auto with silent_db. Qed.

#[local] Hint Resolve silent_Xor : silent_db.

Lemma silent_HalfAdder (nm : pyname) : silent (HalfAdder nm).
Proof.
  unfold HalfAdder, LC_init.
  silent_auto; apply silent_sub; auto with silent_db.
Qed.

Lemma silent_evaluate (set' : ref -> pyval -> M unit) (self : ref) :
  (forall c v, silent (set' c v)) -> silent (evaluate set' self).
Proof. intros H. unfold evaluate. silent_auto. Qed.

Lemma silent_set (depth : nat) (self : ref) (v : pyval) :
  silent (set depth self v).
Proof.
  revert self v. induction depth as [|d IH]; intros self v.
  - apply silent_raise.
  - rewrite set_unfold. apply silent_bind_get. intros con Hm.
    destruct (py_eq (value con) v); [apply silent_ret|].
    apply silent_bind; [apply silent_put_conn; exact Hm|]. intros _.
    rewrite Hm. change (negb (0 =? 0)%Z) with false. cbv iota.
    silent_auto; try (apply silent_evaluate; apply IH).
    apply silent_for_each. intros. apply IH.
Qed.

#[local] Hint Resolve silent_HalfAdder silent_evaluate silent_set
  : silent_db.

Lemma silent_set_at (depth : nat) (o : ref) (field : string) (v : pyval) :
  silent (set_at depth o field v).
Proof. unfold set_at. silent_auto. Qed.

Lemma silent_set_bit (depth : nat) (o : ref) (field : string) (x : pyseq)
  (i : nat) : silent (set_bit depth o field x i).
Proof. unfold set_bit. silent_auto. Qed.

Lemma silent_value_at (o : ref) (field : string) :
  silent (value_at o field).
Proof. unfold value_at. silent_auto. Qed.

Lemma silent_Not_Not (nm : string) : silent (Not_Not nm).
Proof. unfold Not_Not. silent_auto. Qed.

#[local] Hint Resolve silent_set_at silent_set_bit silent_value_at
  silent_Not_Not : silent_db.

Lemma silent_play (d : nat) (g : ref) (script : list (string * bool)) :
  silent (play d g script).
Proof.
  induction script as [|[f b] rest IH]; simpl; silent_auto.
Qed.

Lemma silent_read_fields (g : ref) (fs : list string) :
  silent (read_fields g fs).
Proof. induction fs as [|f fs IH]; simpl; silent_auto. Qed.

Lemma silent_drive_script (mk : pyname -> M ref) (d : nat)
  (script : list (string * bool)) (fs : list string) :
  (forall n, silent (mk n)) -> silent (drive_script mk d script fs).
Proof.
  intros H. unfold drive_script.
  apply silent_bind; [apply H|]. intros g.
  apply silent_bind; [apply silent_play|]. intros _.
  apply silent_read_fields.
Qed.

Lemma silent_complementOne (d : nat) (a : pyseq) :
  silent (complementOne d a).
Proof. unfold complementOne. silent_auto. Qed.

Lemma silent_PassTrough (d : nat) (a : pyseq) : silent (PassTrough d a).
Proof. unfold PassTrough. silent_auto. Qed.

Lemma unmonitored_empty : unmonitored empty_heap.
Proof. apply map_Forall_empty. Qed.

Lemma silent_prints_nothing {A} (m : M A) : silent m -> prints_nothing m.
Proof.
  intros H. unfold prints_nothing, run.
  destruct (m empty_heap) as [[[a h] t]|] eqn:E; [|exact I].
  exact (proj2 (H _ _ _ _ unmonitored_empty E)).
Qed.

(** X18: a [set] on a heap without monitored connectors writes nothing,
    however far the change propagates, and leaves the heap without
    monitored connectors. *)
Theorem unmonitored_set_prints_nothing (d : nat) (c : ref) (v : pyval)
  (h h' : heap) (t : trace) :
  unmonitored h -> set d c v h = Ok (tt, h', t) ->
  unmonitored h' /\ output_lines t = [].
Proof. intros U H. exact (silent_set d c v h tt h' t U H). Qed.

Lemma unmonitored_set_prints_nothing_witness :
  exists h' t,
    set 2 3%positive (VBool true) two_inverters = Ok (tt, h', t) /\
    t <> [] /\ unmonitored h' /\ output_lines t = [].
Proof.
  eexists. eexists. split; [vm_compute; reflexivity|].
  split; [discriminate|].
  apply (unmonitored_set_prints_nothing 2 3%positive (VBool true)
           two_inverters).
  - apply (bool_decide_unpack _). vm_compute. exact I.
  - vm_compute. reflexivity.
Defined.

(** X19: the circuits without monitored connectors write nothing.
    Whatever the operand and the nesting depth, a run of [complementOne] or
    [PassTrough] that returns has written no line, and neither has any
    sequence of input changes played on a fresh Not, And, Or, Xor or
    HalfAdder. *)
Theorem unmonitored_circuits_print_nothing (d : nat) (a : pyseq)
  (script : list (string * bool)) (fs : list string) :
  prints_nothing (complementOne d a) /\
  prints_nothing (PassTrough d a) /\
  prints_nothing (drive_script Not d script fs) /\
  prints_nothing (drive_script And d script fs) /\
  prints_nothing (drive_script Or d script fs) /\
  prints_nothing (drive_script Xor d script fs) /\
  prints_nothing (drive_script HalfAdder d script fs).
Proof.
  refine (conj _ (conj _ (conj _ (conj _ (conj _ (conj _ _))))));
    apply silent_prints_nothing.
  - apply silent_complementOne.
  - apply silent_PassTrough.
  - apply silent_drive_script, silent_Not.
  - apply silent_drive_script, silent_And.
  - apply silent_drive_script, silent_Or.
  - apply silent_drive_script, silent_Xor.
  - apply silent_drive_script, silent_HalfAdder.
Qed.

Lemma bind_inv {A B} (m : M A) (k : A -> M B) (h h2 : heap) (b : B)
  (t : trace) :
  bind m k h = Ok (b, h2, t) ->
  exists a h1 t1 t2,
    m h = Ok (a, h1, t1) /\ k a h1 = Ok (b, h2, t2) /\ t = (t1 ++ t2)%list.
Proof.
  unfold bind. intros H.
  destruct (m h) as [[[a h1] t1]|]; [|discriminate].
  destruct (k a h1) as [[[b' h2'] t2]|] eqn:E2; [|discriminate].
  inversion H; subst. exists a, h1, t1, t2. auto.
Qed.

(** X20: a change of a monitored connector is always reported.  When
    [set] changes the value of a connector whose [monitor] flag is set and
    returns, the output has a line naming the connector and its owner. *)
Theorem monitored_change_is_reported (d : nat) (c : ref) (v : pyval)
  (h h' : heap) (t : trace) (con : Connector) (own : LC) :
  conns h !! c = Some con -> objs h !! owner con = Some own ->
  py_eq (value con) v = false -> monitor con <> 0 ->
  set d c v h = Ok (tt, h', t) ->
  exists v', In (Monitor (lc_name own) (name con) v') (output_lines t).
Proof.
  intros Lc Lo Hne Hm H.
  destruct d as [|d]; [discriminate|]. rewrite set_unfold in H.
  apply bind_inv in H as (con0 & h0 & t0 & t0' & E0 & H & ->).
  apply get_conn_inv in E0 as (-> & -> & L0).
  assert (con0 = con) by congruence. subst con0.
  rewrite Hne in H.
  apply bind_inv in H as (u1 & h1 & t1 & t1' & E1 & H & ->).
  apply bind_inv in H as (u2 & h2 & t2 & t2' & E2 & H & ->).
  apply bind_inv in H as (u3 & h3 & t3 & t3' & E3 & H & ->).
  destruct (Z.eqb_spec (monitor con) 0) as [|_]; [contradiction|].
  cbn [negb] in E3.
  apply bind_inv in E3 as (own' & h4 & t4 & t4' & E4 & E3 & ->).
  apply get_obj_inv in E4 as (-> & -> & L4).
  apply bind_inv in E3 as (now & h5 & t5 & t5' & E5 & E3 & ->).
  apply get_conn_inv in E5 as (-> & -> & L5).
  inversion E3; subst; clear E3.
  assert (K1 : conns h1 !! c
               = Some (mkConnector v (owner con) (name con) (monitor con)
                         (connects con) (activates con)) /\
               objs h1 = objs h).
  { inversion E1; subst. simpl. rewrite lookup_insert_eq. auto. }
  destruct K1 as [K1 O1].
  assert (K2 : wiring_kept h1 h3).
  { destruct (negb (activates con =? 0)%Z).
    - eapply keeps_evaluate; [|exact E2]. intros. apply keeps_set.
    - eapply keeps_ret. exact E2. }
  destruct K2 as (O2 & _ & _ & K2). specialize (K2 c).
  rewrite K1, L5 in K2. destruct K2 as (_ & Kn & _). simpl in Kn.
  rewrite O2, O1, Lo in L4. inversion L4; subst own'.
  exists (value now). rewrite !output_lines_app. rewrite Kn.
  apply in_or_app. right. apply in_or_app. right.
  apply in_or_app. right. apply in_or_app. left.
  simpl. left. reflexivity.
Qed.

Lemma monitored_change_is_reported_witness :
  exists h' t v',
    set 24 1%positive (VBool true) full_adder_heap = Ok (tt, h', t) /\
    In (Monitor (NameStr "G") "A" v') (output_lines t).
Proof.
  destruct (set 24 1%positive (VBool true) full_adder_heap)
    as [[[[] h'] t]|] eqn:E.
  - edestruct (monitored_change_is_reported 24 1%positive (VBool true)
                 full_adder_heap h' t) as [v' Hv'];
      [vm_compute; reflexivity|vm_compute; reflexivity|reflexivity
      |discriminate|exact E|].
    exists h', t, v'. split; [reflexivity|exact Hv'].
  - vm_compute in E. discriminate E.
Defined.
